(** * compileC: a five-stage didactic compiler for a small C-like language

    Shallow embedding of the Python sources (lexer.py, parser.py,
    semantic_analyzer.py, intermediate_code.py, code_generator.py,
    compiler.py) and the
    properties of the pipeline proved about it.

    Conventions of the embedding:
    - a Python [str] is a [string]; the source text scanned by the lexer is
      the list of its characters, indexed by position as the code does;
    - a Python [dict] that the program fills is a [gmap], a constant [dict]
      literal is the list of its entries, looked up by key; a Python [list]
      is a [list];
    - an object with mutable fields is a record threaded through the
      methods (a small state monad where a method also returns a value);
    - a [raise] is an outcome of a result type next to the normal return;
      [try/except] is [try_except];
    - a [while] loop is a fixpoint on a fuel argument; running out of fuel
      is the separate outcome [OutOfFuel] and is proved not to happen. *)

From Stdlib Require Import ZArith Ascii String List Lia.
From stdpp Require Import gmap strings list pretty.

Import ListNotations.
Set Warnings "-register-all".
Local Open Scope string_scope.
Local Open Scope list_scope.

(* ===================================================================== *)
(** * Lexical analysis (lexer.py)                                         *)
(* ===================================================================== *)

Module Lexer.

Inductive TokenType : Type :=
| INT | FLOAT | CHAR | IF | ELSE | WHILE | FOR | RETURN | VOID
| IDENTIFIER | INTEGER_LITERAL | FLOAT_LITERAL | STRING_LITERAL
| PLUS | MINUS | MULTIPLY | DIVIDE | MODULO | ASSIGN | EQUAL | NOT_EQUAL
| LESS_THAN | GREATER_THAN | LESS_EQUAL | GREATER_EQUAL
| LOGICAL_AND | LOGICAL_OR | LOGICAL_NOT
| SEMICOLON | COMMA | LPAREN | RPAREN | LBRACE | RBRACE | LBRACKET | RBRACKET
| EOF | NEWLINE.

Global Instance TokenType_eq_dec : EqDecision TokenType.
Proof. solve_decision. Defined.

Record Token : Type := mkToken {
  tok_type : TokenType;
  tok_value : string;
  tok_line : nat;
  tok_column : nat
}.

(** ** Characters

    A character is one of the 256 code points below U+0100.  The
    predicates are Python's [str.isdigit], [str.isalpha] and
    [str.isalnum] on these code points. *)

Definition code (c : ascii) : nat := nat_of_ascii c.

Definition between (lo hi n : nat) : bool := (lo <=? n)%nat && (n <=? hi)%nat.

Definition isdigit (c : ascii) : bool :=
  between 48 57 (code c) ||
  (code c =? 178)%nat || (code c =? 179)%nat || (code c =? 185)%nat.

Definition isalpha (c : ascii) : bool :=
  between 65 90 (code c) || between 97 122 (code c) ||
  (code c =? 170)%nat || (code c =? 181)%nat || (code c =? 186)%nat ||
  between 192 214 (code c) || between 216 246 (code c) ||
  between 248 255 (code c).

Definition isalnum (c : ascii) : bool :=
  isalpha c || isdigit c || between 188 190 (code c).

Definition tab : ascii := ascii_of_nat 9.
Definition newline : ascii := ascii_of_nat 10.
Definition carriage_return : ascii := ascii_of_nat 13.
Definition dquote : ascii := ascii_of_nat 34.
Definition backslash : ascii := ascii_of_nat 92.

Definition char_is (c : ascii) (o : option ascii) : bool :=
  match o with
  | Some d => Ascii.eqb d c
  | None => false
  end.

(** [c in ' \t\r\n'] *)
Definition is_blank (c : ascii) : bool :=
  Ascii.eqb c " " || Ascii.eqb c tab || Ascii.eqb c carriage_return ||
  Ascii.eqb c newline.

(** ** The scanner object *)

Record Lexer : Type := mkLexer {
  source : list ascii;
  position : nat;
  line : nat;
  column : nat;
  tokens : list Token
}.

(** The [SyntaxError] that [error] raises at line l, column c with a
    message is [LexicalError l c message]; [error_text] is the text it
    carries.  [OutOfFuel] is not an outcome of the code: see
    [tokenize_returns_or_fails]. *)
Inductive result (A : Type) : Type :=
| Ok (a : A)
| LexicalError (at_line at_column : nat) (message : string)
| OutOfFuel.
Arguments Ok {A} a.
Arguments LexicalError {A} at_line at_column message.
Arguments OutOfFuel {A}.

Definition error_text (at_line at_column : nat) (message : string) : string :=
  "Lexical error at line " +:+ pretty at_line +:+ ", column " +:+
  pretty at_column +:+ ": " +:+ message.

Definition bind {A B} (r : result A) (k : A -> result B) : result B :=
  match r with
  | Ok a => k a
  | LexicalError l c m => LexicalError l c m
  | OutOfFuel => OutOfFuel
  end.

Declare Scope lex_scope.
Delimit Scope lex_scope with lex.
Notation "x <- m ;; k" := (bind m (fun x => k))
  (at level 100, m at next level, k at level 200, right associativity)
  : lex_scope.
Local Open Scope lex_scope.

Definition init (source_code : string) : Lexer :=
  {| source := list_ascii_of_string source_code;
     position := 0; line := 1; column := 1; tokens := [] |}.

Definition error {A} (self : Lexer) (message : string) : result A :=
  LexicalError (line self) (column self) message.

Definition current_char (self : Lexer) : option ascii :=
  source self !! position self.

Definition peek_char (self : Lexer) : option ascii :=
  source self !! (position self + 1).

Definition advance (self : Lexer) : Lexer :=
  match source self !! position self with
  | Some c =>
      if Ascii.eqb c newline
      then {| source := source self; position := position self + 1;
              line := line self + 1; column := 1; tokens := tokens self |}
      else {| source := source self; position := position self + 1;
              line := line self; column := column self + 1;
              tokens := tokens self |}
  | None => self
  end.

Definition append_token (t : Token) (self : Lexer) : Lexer :=
  {| source := source self; position := position self; line := line self;
     column := column self; tokens := tokens self ++ [t] |}.

Fixpoint skip_whitespace (fuel : nat) (self : Lexer) : result Lexer :=
  match fuel with
  | 0 => OutOfFuel
  | S fuel =>
      match current_char self with
      | Some c =>
          if is_blank c then skip_whitespace fuel (advance self) else Ok self
      | None => Ok self
      end
  end.

(** [while self.current_char() and self.current_char() != '\n'] *)
Fixpoint skip_line (fuel : nat) (self : Lexer) : result Lexer :=
  match fuel with
  | 0 => OutOfFuel
  | S fuel =>
      match current_char self with
      | Some c =>
          if negb (Ascii.eqb c newline) then skip_line fuel (advance self)
          else Ok self
      | None => Ok self
      end
  end.

(** The loop of the multi-line branch, with its [break]. *)
Fixpoint skip_block (fuel : nat) (self : Lexer) : result Lexer :=
  match fuel with
  | 0 => OutOfFuel
  | S fuel =>
      match current_char self with
      | Some c =>
          if Ascii.eqb c "*" && char_is "/" (peek_char self)
          then Ok (advance (advance self))
          else skip_block fuel (advance self)
      | None => Ok self
      end
  end.

Definition skip_comment (fuel : nat) (self : Lexer) : result Lexer :=
  if char_is "/" (current_char self) && char_is "/" (peek_char self) then
    self <- skip_line fuel self ;;
    Ok (advance self)
  else if char_is "/" (current_char self) && char_is "*" (peek_char self) then
    skip_block fuel (advance (advance self))
  else Ok self.

Definition append_char (s : string) (c : ascii) : string :=
  s +:+ String c EmptyString.

Fixpoint read_number_loop (fuel : nat) (num_str : string) (is_float : bool)
         (self : Lexer) : result (string * bool * Lexer) :=
  match fuel with
  | 0 => OutOfFuel
  | S fuel =>
      match current_char self with
      | Some c =>
          if isdigit c || Ascii.eqb c "." then
            if Ascii.eqb c "." then
              if is_float then error self "Invalid number format"
              else read_number_loop fuel (append_char num_str c) true
                                    (advance self)
            else read_number_loop fuel (append_char num_str c) is_float
                                  (advance self)
          else Ok (num_str, is_float, self)
      | None => Ok (num_str, is_float, self)
      end
  end.

Definition read_number (fuel : nat) (self : Lexer) : result (Token * Lexer) :=
  let start_line := line self in
  let start_column := column self in
  r <- read_number_loop fuel "" false self ;;
  let '(num_str, is_float, self) := r in
  let token_type := if is_float then FLOAT_LITERAL else INTEGER_LITERAL in
  Ok (mkToken token_type num_str start_line start_column, self).

(** [KEYWORDS.get(identifier, TokenType.IDENTIFIER)] *)
Definition KEYWORDS : list (string * TokenType) :=
  [("int", INT); ("float", FLOAT); ("char", CHAR); ("if", IF);
   ("else", ELSE); ("while", WHILE); ("for", FOR); ("return", RETURN);
   ("void", VOID)].

Definition dict_get {V} (d : list (string * V)) (key : string) : option V :=
  snd <$> List.find (fun kv => String.eqb (fst kv) key) d.

Fixpoint read_identifier_loop (fuel : nat) (identifier : string)
         (self : Lexer) : result (string * Lexer) :=
  match fuel with
  | 0 => OutOfFuel
  | S fuel =>
      match current_char self with
      | Some c =>
          if isalnum c || Ascii.eqb c "_"
          then read_identifier_loop fuel (append_char identifier c)
                                    (advance self)
          else Ok (identifier, self)
      | None => Ok (identifier, self)
      end
  end.

Definition read_identifier (fuel : nat) (self : Lexer)
  : result (Token * Lexer) :=
  let start_line := line self in
  let start_column := column self in
  r <- read_identifier_loop fuel "" self ;;
  let '(identifier, self) := r in
  let token_type := default IDENTIFIER (dict_get KEYWORDS identifier) in
  Ok (mkToken token_type identifier start_line start_column, self).

Fixpoint read_string_loop (fuel : nat) (string_ : string) (self : Lexer)
  : result (string * Lexer) :=
  match fuel with
  | 0 => OutOfFuel
  | S fuel =>
      match current_char self with
      | Some c =>
          if negb (Ascii.eqb c dquote) then
            if Ascii.eqb c backslash && char_is dquote (peek_char self)
            then read_string_loop fuel (append_char string_ dquote)
                                  (advance (advance self))
            else read_string_loop fuel (append_char string_ c) (advance self)
          else Ok (string_, self)
      | None => Ok (string_, self)
      end
  end.

Definition read_string (fuel : nat) (self : Lexer) : result (Token * Lexer) :=
  let start_line := line self in
  let start_column := column self in
  let self := advance self in
  r <- read_string_loop fuel "" self ;;
  let '(string_, self) := r in
  match current_char self with
  | None => error self "Unterminated string literal"
  | Some _ =>
      let self := advance self in
      Ok (mkToken STRING_LITERAL string_ start_line start_column, self)
  end.

Definition two_char_tokens : list (string * TokenType) :=
  [("==", EQUAL); ("!=", NOT_EQUAL); ("<=", LESS_EQUAL);
   (">=", GREATER_EQUAL); ("&&", LOGICAL_AND); ("||", LOGICAL_OR)].

Definition single_char_tokens : list (string * TokenType) :=
  [("+", PLUS); ("-", MINUS); ("*", MULTIPLY); ("/", DIVIDE); ("%", MODULO);
   ("=", ASSIGN); ("<", LESS_THAN); (">", GREATER_THAN); ("!", LOGICAL_NOT);
   (";", SEMICOLON); (",", COMMA); ("(", LPAREN); (")", RPAREN);
   ("{", LBRACE); ("}", RBRACE); ("[", LBRACKET); ("]", RBRACKET)].

Definition char_str (c : ascii) : string := String c EmptyString.

(** One turn of the [while] loop of [tokenize]: [inl] to go round again
    ([continue]), [inr] when the loop is left ([break]). *)
Definition tokenize_step (fuel : nat) (self : Lexer)
  : result (Lexer + Lexer) :=
  self <- skip_whitespace fuel self ;;
  match current_char self with
  | None => Ok (inr self)
  | Some char =>
      if Ascii.eqb char "/" &&
         (char_is "/" (peek_char self) || char_is "*" (peek_char self)) then
        self <- skip_comment fuel self ;; Ok (inl self)
      else if isdigit char then
        r <- read_number fuel self ;;
        Ok (inl (append_token (fst r) (snd r)))
      else if isalpha char || Ascii.eqb char "_" then
        r <- read_identifier fuel self ;;
        Ok (inl (append_token (fst r) (snd r)))
      else if Ascii.eqb char dquote then
        r <- read_string fuel self ;;
        Ok (inl (append_token (fst r) (snd r)))
      else
        let next_char := peek_char self in
        let two_char :=
          char_str char +:+
          match next_char with Some n => char_str n | None => "" end in
        match dict_get two_char_tokens two_char with
        | Some token_type =>
            let token := mkToken token_type two_char (line self) (column self) in
            Ok (inl (advance (advance (append_token token self))))
        | None =>
            match dict_get single_char_tokens (char_str char) with
            | Some token_type =>
                let token :=
                  mkToken token_type (char_str char) (line self) (column self) in
                Ok (inl (advance (append_token token self)))
            | None =>
                error self ("Unexpected character: '" +:+ char_str char +:+ "'")
            end
        end
  end.

Fixpoint tokenize_loop (fuel budget : nat) (self : Lexer) : result Lexer :=
  match fuel with
  | 0 => OutOfFuel
  | S fuel =>
      match current_char self with
      | None => Ok self
      | Some _ =>
          next <- tokenize_step budget self ;;
          match next with
          | inl self => tokenize_loop fuel budget self
          | inr self => Ok self
          end
      end
  end.

(** [tokenize]: every loop gets one more turn than the source has
    characters. *)
Definition tokenize_from (self : Lexer) : result (list Token) :=
  let budget := S (length (source self)) in
  self <- tokenize_loop budget budget self ;;
  let self := append_token (mkToken EOF "" (line self) (column self)) self in
  Ok (tokens self).

Definition tokenize (source_code : string) : result (list Token) :=
  tokenize_from (init source_code).

End Lexer.

(* ===================================================================== *)
(** * Abstract syntax (parser.py, the dataclasses)                        *)
(* ===================================================================== *)

Module Ast.

(** Expressions.  [FloatLiteral] holds a Python float; it is represented
    by the text [str(value)] yields, the only way the later stages use
    it. *)
Inductive Expression : Type :=
| BinaryOp (operator : string) (left right : Expression)
| UnaryOp (operator : string) (operand : Expression)
| Identifier (name : string)
| IntLiteral (value : Z)
| FloatLiteral (value : string)
| StringLiteral (value : string)
| FunctionCall (name : string) (arguments : list Expression)
| Assignment (target : string) (value : Expression).

(** The class [Parameter] of parser.py. *)
Record FunParameter : Type := mkParameter {
  param_type : string;
  param_name : string
}.

Record VarDecl : Type := mkVarDecl {
  var_type : string;
  var_name : string;
  initializer : option Expression
}.

(** Statements.  [parse_statement] answers a type keyword with
    [parse_declaration], so a declaration may stand where a statement is
    expected: [SVarDecl] and [SFunctionDecl].  The body of a function is
    the statement list of its [CompoundStmt], [None] for a forward
    declaration. *)
Inductive Statement : Type :=
| SVarDecl (decl : VarDecl)
| SFunctionDecl (return_type name : string) (parameters : list FunParameter)
                (body : option (list Statement))
| CompoundStmt (statements : list Statement)
| ExpressionStmt (expression : option Expression)
| ReturnStmt (expression : option Expression)
| IfStmt (condition : Expression) (then_stmt : Statement)
         (else_stmt : option Statement)
| WhileStmt (condition : Expression) (body : Statement)
| ForStmt (init : option Statement) (condition update : option Expression)
          (body : Statement).

Record FunctionDecl : Type := mkFunctionDecl {
  return_type : string;
  fun_name : string;
  parameters : list FunParameter;
  body : option (list Statement)
}.

Inductive Declaration : Type :=
| DFunction (decl : FunctionDecl)
| DVar (decl : VarDecl).

Record Program : Type := mkProgram {
  declarations : list Declaration
}.

End Ast.

(* ===================================================================== *)
(** * Syntax analysis (parser.py)                                          *)
(* ===================================================================== *)

(** The expression grammar comes first; the functions that parse
    declarations and statements call [parse_expression] and are not called
    by it. *)

Module Parser.
Import Lexer Ast.

Record Parser : Type := mkParser {
  tokens : list Token;
  position : nat;
  current_token : option Token
}.

(** The exceptions met while parsing: the parser's own [SyntaxError],
    [AttributeError] for [self.current_token.type] when the token list is
    empty, [ValueError] from [int] and [float]. *)
Inductive exn : Type :=
| SyntaxError (text : string)
| AttributeError
| ValueError.

Inductive result (A : Type) : Type :=
| Ok (a : A)
| Raise (e : exn)
| OutOfFuel.
Arguments Ok {A} a.
Arguments Raise {A} e.
Arguments OutOfFuel {A}.

Definition bind {A B} (r : result A) (k : A -> result B) : result B :=
  match r with
  | Ok a => k a
  | Raise e => Raise e
  | OutOfFuel => OutOfFuel
  end.

Declare Scope parse_scope.
Delimit Scope parse_scope with parse.
Notation "x <- m ;; k" := (bind m (fun x => k))
  (at level 100, m at next level, k at level 200, right associativity)
  : parse_scope.
Local Open Scope parse_scope.

(** [TokenType.name] *)
Definition name (t : TokenType) : string :=
  match t with
  | INT => "INT" | FLOAT => "FLOAT" | CHAR => "CHAR" | IF => "IF"
  | ELSE => "ELSE" | WHILE => "WHILE" | FOR => "FOR" | RETURN => "RETURN"
  | VOID => "VOID" | IDENTIFIER => "IDENTIFIER"
  | INTEGER_LITERAL => "INTEGER_LITERAL" | FLOAT_LITERAL => "FLOAT_LITERAL"
  | STRING_LITERAL => "STRING_LITERAL" | PLUS => "PLUS" | MINUS => "MINUS"
  | MULTIPLY => "MULTIPLY" | DIVIDE => "DIVIDE" | MODULO => "MODULO"
  | ASSIGN => "ASSIGN" | EQUAL => "EQUAL" | NOT_EQUAL => "NOT_EQUAL"
  | LESS_THAN => "LESS_THAN" | GREATER_THAN => "GREATER_THAN"
  | LESS_EQUAL => "LESS_EQUAL" | GREATER_EQUAL => "GREATER_EQUAL"
  | LOGICAL_AND => "LOGICAL_AND" | LOGICAL_OR => "LOGICAL_OR"
  | LOGICAL_NOT => "LOGICAL_NOT" | SEMICOLON => "SEMICOLON"
  | COMMA => "COMMA" | LPAREN => "LPAREN" | RPAREN => "RPAREN"
  | LBRACE => "LBRACE" | RBRACE => "RBRACE" | LBRACKET => "LBRACKET"
  | RBRACKET => "RBRACKET" | EOF => "EOF" | NEWLINE => "NEWLINE"
  end.

(** [__init__]: [tokens[0] if tokens else None] *)
Definition init (tokens : list Token) : Parser :=
  {| tokens := tokens; position := 0; current_token := tokens !! 0 |}.

Definition error_text (at_token : option Token) (message : string) : string :=
  match at_token with
  | Some t =>
      "Parse error at line " +:+ pretty (tok_line t) +:+ ", column " +:+
      pretty (tok_column t) +:+ ": " +:+ message
  | None => "Parse error: " +:+ message
  end.

Definition error {A} (self : Parser) (message : string) : result A :=
  Raise (SyntaxError (error_text (current_token self) message)).

Definition advance (self : Parser) : Parser :=
  if (position self <? length (tokens self) - 1)%nat
  then {| tokens := tokens self;
          position := position self + 1;
          current_token := tokens self !! (position self + 1) |}
  else self.

(** [self.current_token.type], an [AttributeError] on [None]. *)
Definition current_type (self : Parser) : result TokenType :=
  match current_token self with
  | Some t => Ok (tok_type t)
  | None => Raise AttributeError
  end.

(** [self.current_token.value] *)
Definition current_value (self : Parser) : result string :=
  match current_token self with
  | Some t => Ok (tok_value t)
  | None => Raise AttributeError
  end.

Definition is_type (a b : TokenType) : bool := bool_decide (a = b).

Definition expect (token_type : TokenType) (self : Parser)
  : result (Token * Parser) :=
  match current_token self with
  | None => Raise AttributeError
  | Some token =>
      if negb (is_type (tok_type token) token_type)
      then error self ("Expected " +:+ name token_type +:+ ", got " +:+
                       name (tok_type token))
      else Ok (token, advance self)
  end.

(** [match], given the token types to try. *)
Definition match_ (token_types : list TokenType) (self : Parser)
  : result bool :=
  t <- current_type self ;;
  Ok (existsb (is_type t) token_types).

Section Expressions.

(** Python's [int] and [float] on a lexeme: the value, or [None] where
    they raise [ValueError].  A float is kept as the text [str] gives. *)
Variable py_int : string -> option Z.
Variable py_float : string -> option string.

(** Loops get [fuel] turns; [parse_expression_rec] is the recursive
    call to [parse_expression]. *)
Variable fuel : nat.
Variable parse_expression_rec : Parser -> result (Expression * Parser).

Definition parse_primary (self : Parser) : result (Expression * Parser) :=
  t <- current_type self ;;
  if is_type t INTEGER_LITERAL then
    lexeme <- current_value self ;;
    match py_int lexeme with
    | Some value => Ok (IntLiteral value, advance self)
    | None => Raise ValueError
    end
  else if is_type t FLOAT_LITERAL then
    lexeme <- current_value self ;;
    match py_float lexeme with
    | Some value => Ok (FloatLiteral value, advance self)
    | None => Raise ValueError
    end
  else if is_type t STRING_LITERAL then
    value <- current_value self ;;
    Ok (StringLiteral value, advance self)
  else if is_type t IDENTIFIER then
    name <- current_value self ;;
    Ok (Identifier name, advance self)
  else if is_type t LPAREN then
    r <- parse_expression_rec (advance self) ;;
    r' <- expect RPAREN (snd r) ;;
    Ok (fst r, snd r')
  else error self ("Unexpected token: " +:+ name t).

(** [while self.current_token.type == TokenType.COMMA] *)
Fixpoint parse_arguments_loop (n : nat) (arguments : list Expression)
         (self : Parser) : result (list Expression * Parser) :=
  match n with
  | 0 => OutOfFuel
  | S n =>
      t <- current_type self ;;
      if is_type t COMMA then
        r <- parse_expression_rec (advance self) ;;
        parse_arguments_loop n (arguments ++ [fst r]) (snd r)
      else Ok (arguments, self)
  end.

Definition parse_postfix (self : Parser) : result (Expression * Parser) :=
  r <- parse_primary self ;;
  let (expr, self) := r in
  t <- current_type self ;;
  if is_type t LPAREN then
    match expr with
    | Identifier callee =>
        let self := advance self in
        t <- current_type self ;;
        r <- (if negb (is_type t RPAREN) then
                r <- parse_expression_rec self ;;
                parse_arguments_loop fuel [fst r] (snd r)
              else Ok ([], self)) ;;
        r' <- expect RPAREN (snd r) ;;
        Ok (FunctionCall callee (fst r), snd r')
    | _ => error self "Invalid function call"
    end
  else Ok (expr, self).

Fixpoint parse_unary_rec (n : nat) (self : Parser)
  : result (Expression * Parser) :=
  match n with
  | 0 => OutOfFuel
  | S n =>
      m <- match_ [MINUS; LOGICAL_NOT] self ;;
      if (m : bool) then
        op <- current_value self ;;
        r <- parse_unary_rec n (advance self) ;;
        Ok (UnaryOp op (fst r), snd r)
      else parse_postfix self
  end.

Definition parse_unary : Parser -> result (Expression * Parser) :=
  parse_unary_rec fuel.

(** The body shared by [parse_multiplicative], [parse_additive],
    [parse_relational], [parse_equality], [parse_logical_and] and
    [parse_logical_or]: they differ in the operators matched and in the
    parser of the operands. *)
Fixpoint binary_loop (operators : list TokenType)
         (operand : Parser -> result (Expression * Parser))
         (n : nat) (left_ : Expression) (self : Parser)
  : result (Expression * Parser) :=
  match n with
  | 0 => OutOfFuel
  | S n =>
      m <- match_ operators self ;;
      if (m : bool) then
        op <- current_value self ;;
        r <- operand (advance self) ;;
        binary_loop operators operand n (BinaryOp op left_ (fst r)) (snd r)
      else Ok (left_, self)
  end.

Definition binary_level (operators : list TokenType)
           (operand : Parser -> result (Expression * Parser))
           (self : Parser) : result (Expression * Parser) :=
  r <- operand self ;;
  binary_loop operators operand fuel (fst r) (snd r).

Definition parse_multiplicative :=
  binary_level [MULTIPLY; DIVIDE; MODULO] parse_unary.
Definition parse_additive :=
  binary_level [PLUS; MINUS] parse_multiplicative.
Definition parse_relational :=
  binary_level [LESS_THAN; GREATER_THAN; LESS_EQUAL; GREATER_EQUAL]
               parse_additive.
Definition parse_equality :=
  binary_level [EQUAL; NOT_EQUAL] parse_relational.
Definition parse_logical_and :=
  binary_level [LOGICAL_AND] parse_equality.
Definition parse_logical_or :=
  binary_level [LOGICAL_OR] parse_logical_and.

(** The body of [parse_expression]. *)
Definition parse_expression_body (self : Parser)
  : result (Expression * Parser) :=
  r <- parse_logical_or self ;;
  let (expr, self) := r in
  t <- current_type self ;;
  if is_type t ASSIGN then
    match expr with
    | Identifier target =>
        let self := advance self in
        r <- parse_expression_rec self ;;
        Ok (Assignment target (fst r), snd r)
    | _ => error self "Invalid assignment target"
    end
  else Ok (expr, self).

End Expressions.

(** [parse_expression], at most [fuel] calls deep. *)
Fixpoint parse_expression (py_int : string -> option Z)
         (py_float : string -> option string) (fuel : nat) (self : Parser)
  : result (Expression * Parser) :=
  match fuel with
  | 0 => OutOfFuel
  | S fuel =>
      parse_expression_body py_int py_float fuel
        (parse_expression py_int py_float fuel) self
  end.

(** [int] on the lexemes made of the digits 0 to 9. *)
Fixpoint decimal_value (acc : Z) (s : string) : option Z :=
  match s with
  | EmptyString => Some acc
  | String c rest =>
      if (48 <=? nat_of_ascii c)%nat && (nat_of_ascii c <=? 57)%nat
      then decimal_value (10 * acc + Z.of_nat (nat_of_ascii c - 48)) rest
      else None
  end.

Definition int_of_digits (s : string) : option Z :=
  match s with
  | EmptyString => None
  | _ => decimal_value 0 s
  end.

(** ** Declarations and statements *)

(** A declaration met where a statement is expected. *)
Definition statement_of_declaration (decl : Declaration) : Statement :=
  match decl with
  | DFunction f =>
      SFunctionDecl (return_type f) (fun_name f) (parameters f) (body f)
  | DVar v => SVarDecl v
  end.

Section Statements.

Variable py_int : string -> option Z.
Variable py_float : string -> option string.

(** Loops get [fuel] turns and [parse_expression] may go [fuel] calls
    deep; [parse_statement_rec] is the recursive call to
    [parse_statement]. *)
Variable fuel : nat.
Variable parse_statement_rec : Parser -> result (Statement * Parser).

(** The [while True] loop of [parse_parameter_list], left by [break]. *)
Fixpoint parse_parameter_list_loop (n : nat) (parameters : list FunParameter)
         (self : Parser) : result (list FunParameter * Parser) :=
  match n with
  | 0 => OutOfFuel
  | S n =>
      m <- match_ [INT; FLOAT; CHAR] self ;;
      if negb m then error self "Expected parameter type"
      else
        param_type <- current_value self ;;
        let self := advance self in
        r <- expect IDENTIFIER self ;;
        let (name_token, self) := r in
        let parameters :=
          parameters ++ [mkParameter param_type (tok_value name_token)] in
        t <- current_type self ;;
        if negb (is_type t COMMA) then Ok (parameters, self)
        else parse_parameter_list_loop n parameters (advance self)
  end.

Definition parse_parameter_list (self : Parser)
  : result (list FunParameter * Parser) :=
  parse_parameter_list_loop fuel [] self.

Definition parse_variable_declaration (var_type name : string) (self : Parser)
  : result (VarDecl * Parser) :=
  t <- current_type self ;;
  r <- (if is_type t ASSIGN then
          r <- parse_expression py_int py_float fuel (advance self) ;;
          Ok (Some (fst r), snd r)
        else Ok (None, self)) ;;
  let (initializer, self) := r in
  r <- expect SEMICOLON self ;;
  Ok (mkVarDecl var_type name initializer, snd r).

(** [while self.current_token.type != TokenType.RBRACE] *)
Fixpoint parse_statements_loop (n : nat) (statements : list Statement)
         (self : Parser) : result (list Statement * Parser) :=
  match n with
  | 0 => OutOfFuel
  | S n =>
      t <- current_type self ;;
      if negb (is_type t RBRACE) then
        r <- parse_statement_rec self ;;
        parse_statements_loop n (statements ++ [fst r]) (snd r)
      else Ok (statements, self)
  end.

(** The result is the statement list of the [CompoundStmt]. *)
Definition parse_compound_statement (self : Parser)
  : result (list Statement * Parser) :=
  r <- expect LBRACE self ;;
  r <- parse_statements_loop fuel [] (snd r) ;;
  let (statements, self) := r in
  r <- expect RBRACE self ;;
  Ok (statements, snd r).

Definition parse_function_declaration (return_type name : string)
           (self : Parser) : result (FunctionDecl * Parser) :=
  r <- expect LPAREN self ;;
  let self := snd r in
  t <- current_type self ;;
  r <- (if negb (is_type t RPAREN) then parse_parameter_list self
        else Ok ([], self)) ;;
  let (parameters, self) := r in
  r <- expect RPAREN self ;;
  let self := snd r in
  t <- current_type self ;;
  r <- (if is_type t LBRACE then
          r <- parse_compound_statement self ;;
          Ok (Some (fst r), snd r)
        else
          r <- expect SEMICOLON self ;;
          Ok (None, snd r)) ;;
  let (body, self) := r in
  Ok (mkFunctionDecl return_type name parameters body, self).

Definition parse_declaration (self : Parser) : result (Declaration * Parser) :=
  m <- match_ [INT; FLOAT; CHAR; VOID] self ;;
  if negb m then
    t <- current_type self ;;
    error self ("Expected type specifier, got " +:+ name t)
  else
    var_type <- current_value self ;;
    let self := advance self in
    r <- expect IDENTIFIER self ;;
    let (name_token, self) := r in
    let name := tok_value name_token in
    t <- current_type self ;;
    if is_type t LPAREN then
      r <- parse_function_declaration var_type name self ;;
      Ok (DFunction (fst r), snd r)
    else
      r <- parse_variable_declaration var_type name self ;;
      Ok (DVar (fst r), snd r).

Definition parse_return_statement (self : Parser)
  : result (Statement * Parser) :=
  r <- expect RETURN self ;;
  let self := snd r in
  t <- current_type self ;;
  r <- (if negb (is_type t SEMICOLON) then
          r <- parse_expression py_int py_float fuel self ;;
          Ok (Some (fst r), snd r)
        else Ok (None, self)) ;;
  let (expression, self) := r in
  r <- expect SEMICOLON self ;;
  Ok (ReturnStmt expression, snd r).

Definition parse_if_statement (self : Parser) : result (Statement * Parser) :=
  r <- expect IF self ;;
  r <- expect LPAREN (snd r) ;;
  r <- parse_expression py_int py_float fuel (snd r) ;;
  let (condition, self) := r in
  r <- expect RPAREN self ;;
  r <- parse_statement_rec (snd r) ;;
  let (then_stmt, self) := r in
  t <- current_type self ;;
  r <- (if is_type t ELSE then
          r <- parse_statement_rec (advance self) ;;
          Ok (Some (fst r), snd r)
        else Ok (None, self)) ;;
  let (else_stmt, self) := r in
  Ok (IfStmt condition then_stmt else_stmt, self).

Definition parse_while_statement (self : Parser)
  : result (Statement * Parser) :=
  r <- expect WHILE self ;;
  r <- expect LPAREN (snd r) ;;
  r <- parse_expression py_int py_float fuel (snd r) ;;
  let (condition, self) := r in
  r <- expect RPAREN self ;;
  r <- parse_statement_rec (snd r) ;;
  Ok (WhileStmt condition (fst r), snd r).

Definition parse_expression_statement (self : Parser)
  : result (Statement * Parser) :=
  t <- current_type self ;;
  if is_type t SEMICOLON then Ok (ExpressionStmt None, advance self)
  else
    r <- parse_expression py_int py_float fuel self ;;
    let (expression, self) := r in
    r <- expect SEMICOLON self ;;
    Ok (ExpressionStmt (Some expression), snd r).

Definition parse_for_statement (self : Parser) : result (Statement * Parser) :=
  r <- expect FOR self ;;
  r <- expect LPAREN (snd r) ;;
  let self := snd r in
  m <- match_ [INT; FLOAT; CHAR] self ;;
  t <- current_type self ;;
  r <- (if (m : bool) then
          r <- parse_declaration self ;;
          Ok (Some (statement_of_declaration (fst r)), snd r)
        else if negb (is_type t SEMICOLON) then
          r <- parse_expression_statement self ;;
          Ok (Some (fst r), snd r)
        else Ok (None, advance self)) ;;
  let (init, self) := r in
  t <- current_type self ;;
  r <- (if negb (is_type t SEMICOLON) then
          r <- parse_expression py_int py_float fuel self ;;
          Ok (Some (fst r), snd r)
        else Ok (None, self)) ;;
  let (condition, self) := r in
  r <- expect SEMICOLON self ;;
  let self := snd r in
  t <- current_type self ;;
  r <- (if negb (is_type t RPAREN) then
          r <- parse_expression py_int py_float fuel self ;;
          Ok (Some (fst r), snd r)
        else Ok (None, self)) ;;
  let (update, self) := r in
  r <- expect RPAREN self ;;
  r <- parse_statement_rec (snd r) ;;
  Ok (ForStmt init condition update (fst r), snd r).

(** The body of [parse_statement]. *)
Definition parse_statement_body (self : Parser)
  : result (Statement * Parser) :=
  m <- match_ [INT; FLOAT; CHAR] self ;;
  if (m : bool) then
    r <- parse_declaration self ;;
    Ok (statement_of_declaration (fst r), snd r)
  else
    t <- current_type self ;;
    if is_type t RETURN then parse_return_statement self
    else if is_type t IF then parse_if_statement self
    else if is_type t WHILE then parse_while_statement self
    else if is_type t FOR then parse_for_statement self
    else if is_type t LBRACE then
      r <- parse_compound_statement self ;;
      Ok (CompoundStmt (fst r), snd r)
    else parse_expression_statement self.

(** [while self.current_token.type != TokenType.EOF] of [parse] *)
Fixpoint parse_loop (n : nat) (declarations : list Declaration)
         (self : Parser) : result (list Declaration * Parser) :=
  match n with
  | 0 => OutOfFuel
  | S n =>
      t <- current_type self ;;
      if negb (is_type t EOF) then
        r <- parse_declaration self ;;
        parse_loop n (declarations ++ [fst r]) (snd r)
      else Ok (declarations, self)
  end.

End Statements.

(** [parse_statement], at most [fuel] calls deep. *)
Fixpoint parse_statement (py_int : string -> option Z)
         (py_float : string -> option string) (fuel : nat) (self : Parser)
  : result (Statement * Parser) :=
  match fuel with
  | 0 => OutOfFuel
  | S fuel =>
      parse_statement_body py_int py_float fuel
        (parse_statement py_int py_float fuel) self
  end.

(** [parse]: the program, and the parser as the call leaves it. *)
Definition parse (py_int : string -> option Z)
           (py_float : string -> option string) (fuel : nat) (self : Parser)
  : result (Program * Parser) :=
  r <- parse_loop py_int py_float fuel (parse_statement py_int py_float fuel)
                  fuel [] self ;;
  Ok (mkProgram (fst r), snd r).

End Parser.

(* ===================================================================== *)
(** * Semantic analysis (semantic_analyzer.py)                            *)
(* ===================================================================== *)

Module Semantic.
Import Ast.

Record Symbol : Type := mkSymbol {
  sym_name : string;
  sym_type : string;
  sym_scope : string
}.

(** The exceptions the analyzer can meet: its own [SemanticError] and
    Python's [IndexError] ([scopes[-1]] on an empty stack, [split(...)[1]]
    on a one-element list). *)
Inductive exn : Type :=
| SemanticError (message : string)
| IndexError.

Inductive outcome (A : Type) : Type :=
| Return (a : A)
| Raise (e : exn).
Arguments Return {A} a.
Arguments Raise {A} e.

(** [scopes] is the Python list, the innermost frame last.  [recorded] is
    a ghost field, absent from the source: the list of every [Symbol] that
    [declare] has stored, kept so that the symbols of popped frames can
    still be talked about. *)
Record SymbolTable : Type := mkSymbolTable {
  scopes : list (gmap string Symbol);
  current_scope : string;
  recorded : list Symbol
}.

Module SymbolTable_.

Definition init : SymbolTable :=
  {| scopes := [∅]; current_scope := "global"; recorded := [] |}.

Definition enter_scope (scope_name : string) (self : SymbolTable)
  : SymbolTable :=
  {| scopes := scopes self ++ [∅];
     current_scope := scope_name;
     recorded := recorded self |}.

Definition exit_scope (self : SymbolTable) : SymbolTable :=
  if (1 <? length (scopes self))%nat
  then {| scopes := removelast (scopes self);
          current_scope := "outer";
          recorded := recorded self |}
  else self.

Definition declare (name symbol_type : string) (self : SymbolTable)
  : outcome unit * SymbolTable :=
  match last (scopes self) with
  | None => (Raise IndexError, self)
  | Some top =>
      match top !! name with
      | Some _ =>
          (Raise (SemanticError
                    ("Variable '" +:+ name +:+
                     "' already declared in this scope")),
           self)
      | None =>
          let symbol := mkSymbol name symbol_type (current_scope self) in
          (Return tt,
           {| scopes := <[length (scopes self) - 1 := <[name := symbol]> top]>
                          (scopes self);
              current_scope := current_scope self;
              recorded := recorded self ++ [symbol] |})
      end
  end.

Fixpoint lookup_frames (frames : list (gmap string Symbol)) (name : string)
  : option Symbol :=
  match frames with
  | [] => None
  | scope :: rest =>
      match scope !! name with
      | Some symbol => Some symbol
      | None => lookup_frames rest name
      end
  end.

(** [for scope in reversed(self.scopes)] *)
Definition lookup (name : string) (self : SymbolTable) : option Symbol :=
  lookup_frames (rev (scopes self)) name.

(** Values of a frame.  A Python dict lists them in insertion order, a
    [gmap] in key order; no property below depends on the order. *)
Definition get_all_symbols (self : SymbolTable) : list Symbol :=
  flat_map (fun scope => map snd (map_to_list scope)) (scopes self).

End SymbolTable_.

Record SemanticAnalyzer : Type := mkAnalyzer {
  symbol_table : SymbolTable;
  current_function_return_type : option string;
  errors : list string
}.

Definition init : SemanticAnalyzer :=
  {| symbol_table := SymbolTable_.init;
     current_function_return_type := None;
     errors := [] |}.

(** A method of the analyzer: it may return or raise, and leaves the
    object in a new state either way. *)
Definition M (A : Type) : Type :=
  SemanticAnalyzer -> outcome A * SemanticAnalyzer.

Definition ret {A} (a : A) : M A := fun self => (Return a, self).

Definition raise {A} (e : exn) : M A := fun self => (Raise e, self).

Definition bind {A B} (m : M A) (k : A -> M B) : M B := fun self =>
  match m self with
  | (Return a, self') => k a self'
  | (Raise e, self') => (Raise e, self')
  end.

(** [try: m except SemanticError as e: handler(str(e))] *)
Definition try_except {A} (m : M A) (handler : string -> M A) : M A :=
  fun self =>
    match m self with
    | (Raise (SemanticError message), self') => handler message self'
    | r => r
    end.

Declare Scope sem_scope.
Delimit Scope sem_scope with sem.
Bind Scope sem_scope with M.
Notation "x <- m ;; k" := (bind m (fun x => k))
  (at level 100, m at next level, k at level 200, right associativity)
  : sem_scope.
Notation "m ;; k" := (bind m (fun _ => k))
  (at level 100, k at level 200, right associativity) : sem_scope.
Local Open Scope sem_scope.

Definition for_each {A} (body : A -> M unit) : list A -> M unit :=
  fix go (l : list A) : M unit :=
    match l with
    | [] => ret tt
    | x :: rest => body x ;; go rest
    end.

Definition get {A} (f : SemanticAnalyzer -> A) : M A :=
  fun self => (Return (f self), self).

Definition error (message : string) : M unit := fun self =>
  (Return tt,
   {| symbol_table := symbol_table self;
      current_function_return_type := current_function_return_type self;
      errors := errors self ++ [message] |}).

Definition set_current_function_return_type (t : option string) : M unit :=
  fun self =>
    (Return tt,
     {| symbol_table := symbol_table self;
        current_function_return_type := t;
        errors := errors self |}).

Definition with_table (f : SymbolTable -> SymbolTable) : M unit := fun self =>
  (Return tt,
   {| symbol_table := f (symbol_table self);
      current_function_return_type := current_function_return_type self;
      errors := errors self |}).

Definition enter_scope (scope_name : string) : M unit :=
  with_table (SymbolTable_.enter_scope scope_name).

Definition exit_scope : M unit := with_table SymbolTable_.exit_scope.

Definition declare (name symbol_type : string) : M unit := fun self =>
  let (r, table) := SymbolTable_.declare name symbol_type (symbol_table self) in
  (r,
   {| symbol_table := table;
      current_function_return_type := current_function_return_type self;
      errors := errors self |}).

Definition lookup (name : string) : M (option Symbol) :=
  get (fun self => SymbolTable_.lookup name (symbol_table self)).

(** [x in [a, b, ...]] on strings *)
Definition in_list (x : string) (l : list string) : bool :=
  existsb (String.eqb x) l.

Definition is_compatible_type (target_type source_type : string) : bool :=
  if String.eqb target_type source_type then true
  else if in_list target_type ["int"; "float"] &&
          in_list source_type ["int"; "float"] then true
  else if String.eqb source_type "unknown" then true
  else false.

(** [s.split(sep, 1)]: the text before the first [sep] and, when there is
    one, the text after it. *)
Fixpoint split1 (sep : ascii) (s : string) : string * option string :=
  match s with
  | EmptyString => (EmptyString, None)
  | String c rest =>
      if Ascii.eqb c sep then (EmptyString, Some rest)
      else let (before, after) := split1 sep rest in (String c before, after)
  end.

Definition colon : ascii := ascii_of_nat 58.

Fixpoint visit_expression (node : Expression) : M string :=
  match node with
  | IntLiteral _ => ret "int"
  | FloatLiteral _ => ret "float"
  | StringLiteral _ => ret "char*"
  | Identifier name =>
      symbol <- lookup name ;;
      match symbol with
      | None =>
          error ("Undefined variable: '" +:+ name +:+ "'") ;;
          ret "unknown"
      | Some symbol => ret (sym_type symbol)
      end
  | BinaryOp operator left_ right_ =>
      left_type <- visit_expression left_ ;;
      right_type <- visit_expression right_ ;;
      if in_list operator ["&&"; "||"; "=="; "!="; "<"; ">"; "<="; ">="]
      then ret "int"
      else if in_list operator ["+"; "-"; "*"; "/"; "%"]
      then (if String.eqb left_type "float" || String.eqb right_type "float"
            then ret "float" else ret "int")
      else ret "int"
  | UnaryOp operator operand =>
      operand_type <- visit_expression operand ;;
      if String.eqb operator "!" then ret "int"
      else if String.eqb operator "-" then ret operand_type
      else ret operand_type
  | Assignment target value =>
      symbol <- lookup target ;;
      match symbol with
      | None =>
          error ("Assignment to undefined variable: '" +:+ target +:+ "'") ;;
          ret "unknown"
      | Some symbol =>
          value_type <- visit_expression value ;;
          (if is_compatible_type (sym_type symbol) value_type then ret tt
           else error ("Type mismatch in assignment to '" +:+ target +:+
                       "': cannot assign " +:+ value_type +:+ " to " +:+
                       sym_type symbol)) ;;
          ret (sym_type symbol)
      end
  | FunctionCall name arguments =>
      symbol <- lookup name ;;
      match symbol with
      | None =>
          error ("Call to undefined function: '" +:+ name +:+ "'") ;;
          ret "unknown"
      | Some symbol =>
          if negb (String.prefix "function:" (sym_type symbol))
          then error ("'" +:+ name +:+ "' is not a function") ;;
               ret "unknown"
          else
            match snd (split1 colon (sym_type symbol)) with
            | None => raise IndexError
            | Some return_type =>
                for_each (fun arg => _ <- visit_expression arg ;; ret tt)
                         arguments ;;
                ret return_type
            end
      end
  end.

Definition visit_var_decl (node : VarDecl) : M unit :=
  try_except (declare (var_name node) (var_type node)) error ;;
  match initializer node with
  | Some init_expr =>
      init_type <- visit_expression init_expr ;;
      if is_compatible_type (var_type node) init_type then ret tt
      else error ("Type mismatch in initialization of '" +:+ var_name node +:+
                  "': cannot assign " +:+ init_type +:+ " to " +:+
                  var_type node)
  | None => ret tt
  end.

Definition visit_return_stmt (expression : option Expression) : M unit :=
  return_type <- get current_function_return_type ;;
  match return_type with
  | None => error "Return statement outside of function"
  | Some return_type =>
      match expression with
      | Some e =>
          expr_type <- visit_expression e ;;
          if is_compatible_type return_type expr_type then ret tt
          else error ("Return type mismatch: expected " +:+ return_type +:+
                      ", got " +:+ expr_type)
      | None =>
          if negb (String.eqb return_type "void")
          then error ("Return statement must return a value of type " +:+
                      return_type)
          else ret tt
      end
  end.

(** [visit_statement] with [visit_compound_stmt], [visit_if_stmt],
    [visit_while_stmt] and [visit_for_stmt] in its branches. *)
Fixpoint visit_statement (node : Statement) : M unit :=
  match node with
  | SVarDecl decl => visit_var_decl decl
  | SFunctionDecl _ _ _ _ => ret tt
  | CompoundStmt statements =>
      enter_scope "block" ;;
      for_each visit_statement statements ;;
      exit_scope
  | ExpressionStmt (Some e) => _ <- visit_expression e ;; ret tt
  | ExpressionStmt None => ret tt
  | ReturnStmt expression => visit_return_stmt expression
  | IfStmt condition then_stmt else_stmt =>
      _ <- visit_expression condition ;;
      visit_statement then_stmt ;;
      match else_stmt with
      | Some else_stmt => visit_statement else_stmt
      | None => ret tt
      end
  | WhileStmt condition body =>
      _ <- visit_expression condition ;;
      visit_statement body
  | ForStmt init condition update body =>
      enter_scope "for" ;;
      match init with
      | Some (SVarDecl decl) => visit_var_decl decl
      | Some init_stmt => visit_statement init_stmt
      | None => ret tt
      end ;;
      match condition with
      | Some c => _ <- visit_expression c ;; ret tt
      | None => ret tt
      end ;;
      match update with
      | Some u => _ <- visit_expression u ;; ret tt
      | None => ret tt
      end ;;
      visit_statement body ;;
      exit_scope
  end.

Definition visit_compound_stmt (statements : list Statement) : M unit :=
  for_each visit_statement statements.

Definition visit_function_decl (node : FunctionDecl) : M unit :=
  try_except
    (declare (fun_name node) ("function:" +:+ return_type node)) error ;;
  match body node with
  | Some statements =>
      enter_scope ("function:" +:+ fun_name node) ;;
      set_current_function_return_type (Some (return_type node)) ;;
      for_each
        (fun param =>
           try_except (declare (param_name param) (param_type param)) error)
        (parameters node) ;;
      visit_compound_stmt statements ;;
      exit_scope ;;
      set_current_function_return_type None
  | None => ret tt
  end.

Definition visit_declaration (decl : Declaration) : M unit :=
  match decl with
  | DFunction f => visit_function_decl f
  | DVar v => visit_var_decl v
  end.

Definition visit_program (node : Program) : M unit :=
  for_each visit_declaration (declarations node).

(** [analyze]; the printing of the error list is left out. *)
Definition analyze (ast : Program) : M unit :=
  try_except (visit_program ast) error ;;
  errors_found <- get errors ;;
  match errors_found with
  | [] => ret tt
  | _ :: _ => raise (SemanticError "Semantic analysis failed")
  end.

End Semantic.

(* ===================================================================== *)
(** * Three-address code and its generator (intermediate_code.py)         *)
(* ===================================================================== *)

Module IR.
Import Ast.

Inductive TACInstruction : Type :=
| TACAssign (result arg1 : string)
| TACBinaryOp (result arg1 op arg2 : string)
| TACUnaryOp (result op arg : string)
| TACLabel (label : string)
| TACGoto (label : string)
| TACIfGoto (condition label : string)
| TACIfFalseGoto (condition label : string)
| TACCall (result : option string) (function : string) (n_args : nat)
| TACParam (arg : string)
| TACReturn (value : option string)
| TACFunctionStart (name : string)
| TACFunctionEnd (name : string).

(** Python truth value of an [Optional[str]]: [None] and the empty
    string are false. *)
Definition truthy (s : option string) : bool :=
  match s with
  | Some (String _ _) => true
  | _ => false
  end.

(** [__str__] of the instruction classes. *)
Definition str (i : TACInstruction) : string :=
  match i with
  | TACAssign result arg1 => result +:+ " = " +:+ arg1
  | TACBinaryOp result arg1 op arg2 =>
      result +:+ " = " +:+ arg1 +:+ " " +:+ op +:+ " " +:+ arg2
  | TACUnaryOp result op arg => result +:+ " = " +:+ op +:+ " " +:+ arg
  | TACLabel label => label +:+ ":"
  | TACGoto label => "goto " +:+ label
  | TACIfGoto condition label => "if " +:+ condition +:+ " goto " +:+ label
  | TACIfFalseGoto condition label =>
      "ifFalse " +:+ condition +:+ " goto " +:+ label
  | TACCall result function n_args =>
      if truthy result
      then default "" result +:+ " = call " +:+ function +:+ ", " +:+ pretty n_args
      else "call " +:+ function +:+ ", " +:+ pretty n_args
  | TACParam arg => "param " +:+ arg
  | TACReturn value =>
      if truthy value then "return " +:+ default "" value else "return"
  | TACFunctionStart name => "function " +:+ name +:+ ":"
  | TACFunctionEnd name => "end function " +:+ name
  end.

Record IntermediateCodeGenerator : Type := mkGen {
  instructions : list TACInstruction;
  temp_counter : nat;
  label_counter : nat
}.

(** [__init__] *)
Definition init : IntermediateCodeGenerator :=
  {| instructions := []; temp_counter := 0; label_counter := 0 |}.

(** The methods read and update [self]: a state monad over the
    generator. *)
Definition M (A : Type) : Type :=
  IntermediateCodeGenerator -> A * IntermediateCodeGenerator.

Definition ret {A} (a : A) : M A := fun self => (a, self).

Definition bind {A B} (m : M A) (k : A -> M B) : M B :=
  fun self => let (a, self') := m self in k a self'.

Declare Scope gen_scope.
Delimit Scope gen_scope with gen.
Bind Scope gen_scope with M.
Notation "x <- m ;; k" := (bind m (fun x => k))
  (at level 100, m at next level, k at level 200, right associativity)
  : gen_scope.
Notation "m ;; k" := (bind m (fun _ => k))
  (at level 100, k at level 200, right associativity) : gen_scope.
Local Open Scope gen_scope.

(** [for x in l: body(x)] *)
Definition for_each {A} (body : A -> M unit) : list A -> M unit :=
  fix go (l : list A) : M unit :=
    match l with
    | [] => ret tt
    | x :: rest => body x ;; go rest
    end.

(** [for x in reversed(l): body(x)], by recursion on [l]: the tail is
    walked first.  [for_each_reversed_rev] shows it is [for_each] over
    [rev l]. *)
Definition for_each_reversed {A} (body : A -> M unit) : list A -> M unit :=
  fix go (l : list A) : M unit :=
    match l with
    | [] => ret tt
    | x :: rest => go rest ;; body x
    end.

Definition temp_name (n : nat) : string := "t" +:+ pretty n.
Definition label_name (n : nat) : string := "L" +:+ pretty n.

Definition new_temp : M string := fun self =>
  (temp_name (temp_counter self),
   {| instructions := instructions self;
      temp_counter := temp_counter self + 1;
      label_counter := label_counter self |}).

Definition new_label : M string := fun self =>
  (label_name (label_counter self),
   {| instructions := instructions self;
      temp_counter := temp_counter self;
      label_counter := label_counter self + 1 |}).

Definition emit (instruction : TACInstruction) : M unit := fun self =>
  (tt,
   {| instructions := instructions self ++ [instruction];
      temp_counter := temp_counter self;
      label_counter := label_counter self |}).

(** The double quote character, and the f-string that puts [value]
    between two of them. *)
Definition dquote : ascii := ascii_of_nat 34.
Definition quoted (value : string) : string :=
  String dquote (value +:+ String dquote "").

(** [visit_expression] and the expression visitors it dispatches to
    ([visit_binary_op], [visit_unary_op], [visit_assignment],
    [visit_function_call]), one structural recursion on the node. *)
Fixpoint visit_expression (node : Expression) : M string :=
  match node with
  | IntLiteral value => ret (pretty value)
  | FloatLiteral value => ret value
  | StringLiteral value => ret (quoted value)
  | Identifier name => ret name
  | BinaryOp operator left_ right_ =>
      left_temp <- visit_expression left_ ;;
      right_temp <- visit_expression right_ ;;
      result_temp <- new_temp ;;
      emit (TACBinaryOp result_temp left_temp operator right_temp) ;;
      ret result_temp
  | UnaryOp operator operand =>
      operand_temp <- visit_expression operand ;;
      result_temp <- new_temp ;;
      emit (TACUnaryOp result_temp operator operand_temp) ;;
      ret result_temp
  | Assignment target value =>
      value_temp <- visit_expression value ;;
      emit (TACAssign target value_temp) ;;
      ret target
  | FunctionCall name arguments =>
      for_each_reversed
        (fun arg => arg_temp <- visit_expression arg ;;
                    emit (TACParam arg_temp))
        arguments ;;
      result_temp <- new_temp ;;
      emit (TACCall (Some result_temp) name (length arguments)) ;;
      ret result_temp
  end.

Definition visit_var_decl (node : VarDecl) : M unit :=
  match initializer node with
  | Some init_expr =>
      temp <- visit_expression init_expr ;;
      emit (TACAssign (var_name node) temp)
  | None => ret tt
  end.

Definition visit_return_stmt (expression : option Expression) : M unit :=
  match expression with
  | Some e => temp <- visit_expression e ;; emit (TACReturn (Some temp))
  | None => emit (TACReturn None)
  end.

(** [visit_statement] with [visit_compound_stmt], [visit_if_stmt],
    [visit_while_stmt] and [visit_for_stmt] in its branches.  A
    [FunctionDecl] in statement position matches no [isinstance] test and
    is skipped. *)
Fixpoint visit_statement (node : Statement) : M unit :=
  match node with
  | SVarDecl decl => visit_var_decl decl
  | SFunctionDecl _ _ _ _ => ret tt
  | CompoundStmt statements => for_each visit_statement statements
  | ExpressionStmt (Some e) => _ <- visit_expression e ;; ret tt
  | ExpressionStmt None => ret tt
  | ReturnStmt expression => visit_return_stmt expression
  | IfStmt condition then_stmt (Some else_stmt) =>
      condition_temp <- visit_expression condition ;;
      else_label <- new_label ;;
      end_label <- new_label ;;
      emit (TACIfFalseGoto condition_temp else_label) ;;
      visit_statement then_stmt ;;
      emit (TACGoto end_label) ;;
      emit (TACLabel else_label) ;;
      visit_statement else_stmt ;;
      emit (TACLabel end_label)
  | IfStmt condition then_stmt None =>
      condition_temp <- visit_expression condition ;;
      end_label <- new_label ;;
      emit (TACIfFalseGoto condition_temp end_label) ;;
      visit_statement then_stmt ;;
      emit (TACLabel end_label)
  | WhileStmt condition body =>
      start_label <- new_label ;;
      end_label <- new_label ;;
      emit (TACLabel start_label) ;;
      condition_temp <- visit_expression condition ;;
      emit (TACIfFalseGoto condition_temp end_label) ;;
      visit_statement body ;;
      emit (TACGoto start_label) ;;
      emit (TACLabel end_label)
  | ForStmt init condition update body =>
      match init with
      | Some (SVarDecl decl) => visit_var_decl decl
      | Some init_stmt => visit_statement init_stmt
      | None => ret tt
      end ;;
      start_label <- new_label ;;
      end_label <- new_label ;;
      update_label <- new_label ;;
      emit (TACLabel start_label) ;;
      match condition with
      | Some c =>
          condition_temp <- visit_expression c ;;
          emit (TACIfFalseGoto condition_temp end_label)
      | None => ret tt
      end ;;
      visit_statement body ;;
      emit (TACLabel update_label) ;;
      match update with
      | Some u => _ <- visit_expression u ;; ret tt
      | None => ret tt
      end ;;
      emit (TACGoto start_label) ;;
      emit (TACLabel end_label)
  end.

Definition visit_compound_stmt (statements : list Statement) : M unit :=
  for_each visit_statement statements.

Definition visit_function_decl (node : FunctionDecl) : M unit :=
  match body node with
  | Some statements =>
      emit (TACFunctionStart (fun_name node)) ;;
      visit_compound_stmt statements ;;
      emit (TACFunctionEnd (fun_name node))
  | None => ret tt
  end.

Definition visit_declaration (decl : Declaration) : M unit :=
  match decl with
  | DFunction f => visit_function_decl f
  | DVar v => visit_var_decl v
  end.

Definition visit_program (node : Program) : M unit :=
  for_each visit_declaration (declarations node).

(** [generate], run on a fresh generator; the result is the generator
    after the walk. *)
Definition generate (ast : Program) : IntermediateCodeGenerator :=
  snd (visit_program ast init).

End IR.

(* ===================================================================== *)
(** * Code generation and the peephole pass (code_generator.py)           *)
(* ===================================================================== *)

Module CodeGen.
Import IR.

(** ** Python string operations used by the generator *)

(** [needle in s] *)
Fixpoint contains (needle s : string) : bool :=
  String.prefix needle s ||
  match s with
  | EmptyString => false
  | String _ rest => contains needle rest
  end.

(** The characters [str.split()] takes as separators, among the code
    points below U+0100. *)
Definition isspace (c : ascii) : bool :=
  let n := nat_of_ascii c in
  ((9 <=? n) && (n <=? 13) || (28 <=? n) && (n <=? 32) ||
   (n =? 133) || (n =? 160))%nat.

(** [s.split()]: the maximal runs of non-blank characters.  [word] is the
    run being read, [None] between two runs. *)
Fixpoint split_go (word : option string) (s : string) : list string :=
  match s with
  | EmptyString =>
      match word with
      | Some w => [w]
      | None => []
      end
  | String c rest =>
      if isspace c then
        match word with
        | Some w => w :: split_go None rest
        | None => split_go None rest
        end
      else split_go (Some (default EmptyString word +:+ String c EmptyString)) rest
  end.

Definition split (s : string) : list string := split_go None s.

(** [s.rstrip(',')] *)
Fixpoint rstrip_comma (s : string) : string :=
  match s with
  | EmptyString => EmptyString
  | String c rest =>
      match rstrip_comma rest with
      | EmptyString => if Ascii.eqb c "," then EmptyString else String c EmptyString
      | rest' => String c rest'
      end
  end.

Definition startswith (c : ascii) (s : string) : bool :=
  match s with
  | String d _ => Ascii.eqb d c
  | EmptyString => false
  end.

Fixpoint endswith (c : ascii) (s : string) : bool :=
  match s with
  | EmptyString => false
  | String d EmptyString => Ascii.eqb d c
  | String _ rest => endswith c rest
  end.

Definition in_list (x : string) (l : list string) : bool :=
  existsb (String.eqb x) l.

(** ** The generator object *)

Record CodeGenerator : Type := mkCodeGenerator {
  tac_instructions : list TACInstruction;
  assembly_code : list string;
  register_counter : nat;
  var_to_register : gmap string string
}.

Definition init (instructions : list TACInstruction) : CodeGenerator :=
  {| tac_instructions := instructions; assembly_code := [];
     register_counter := 0; var_to_register := ∅ |}.

Definition append (line : string) (self : CodeGenerator) : CodeGenerator :=
  {| tac_instructions := tac_instructions self;
     assembly_code := assembly_code self ++ [line];
     register_counter := register_counter self;
     var_to_register := var_to_register self |}.

Definition allocate_register (var : string) (self : CodeGenerator)
  : string * CodeGenerator :=
  match var_to_register self !! var with
  | Some reg => (reg, self)
  | None =>
      let reg := "R" +:+ pretty (register_counter self) in
      (reg,
       {| tac_instructions := tac_instructions self;
          assembly_code := assembly_code self;
          register_counter := register_counter self + 1;
          var_to_register := <[var := reg]> (var_to_register self) |})
  end.

Section Generate.

(** Whether Python's [float(value)] returns rather than raising
    [ValueError]. *)
Variable py_float_ok : string -> bool.

Definition is_constant (value : string) : bool :=
  if py_float_ok value then true
  else startswith dquote value && endswith dquote value.

Definition op_map : list (string * string) :=
  [("+", "ADD"); ("-", "SUB"); ("*", "MUL"); ("/", "DIV"); ("%", "MOD");
   ("==", "CMP_EQ"); ("!=", "CMP_NE"); ("<", "CMP_LT"); (">", "CMP_GT");
   ("<=", "CMP_LE"); (">=", "CMP_GE"); ("&&", "AND"); ("||", "OR")].

Definition op_map_get (op default_ : string) : string :=
  default default_
    (snd <$> List.find (fun kv => String.eqb (fst kv) op) op_map).

Definition generate_instruction (instruction : TACInstruction)
           (self : CodeGenerator) : CodeGenerator :=
  match instruction with
  | TACFunctionStart name =>
      let self := append (String (ascii_of_nat 10) ("; Function: " +:+ name)) self in
      let self := append (name +:+ ":") self in
      let self := append "    PUSH BP" self in
      append "    MOV BP, SP" self
  | TACFunctionEnd name =>
      let self := append "    MOV SP, BP" self in
      let self := append "    POP BP" self in
      let self := append "    RET" self in
      append ("; End of " +:+ name) self
  | TACAssign result arg1 =>
      let (result_reg, self) := allocate_register result self in
      if is_constant arg1
      then append ("    LOAD " +:+ result_reg +:+ ", #" +:+ arg1) self
      else
        let (arg_reg, self) := allocate_register arg1 self in
        append ("    MOV " +:+ result_reg +:+ ", " +:+ arg_reg) self
  | TACBinaryOp result arg1 op arg2 =>
      let (result_reg, self) := allocate_register result self in
      let (arg1_reg, self) :=
        if is_constant arg1
        then (result_reg,
              append ("    LOAD " +:+ result_reg +:+ ", #" +:+ arg1) self)
        else allocate_register arg1 self in
      let (arg2_val, self) :=
        if is_constant arg2 then ("#" +:+ arg2, self)
        else allocate_register arg2 self in
      let op_code := op_map_get op "OP" in
      if in_list op ["=="; "!="; "<"; ">"; "<="; ">="]
      then
        let self := append ("    CMP " +:+ arg1_reg +:+ ", " +:+ arg2_val) self in
        append ("    " +:+ op_code +:+ " " +:+ result_reg) self
      else
        let self :=
          if negb (String.eqb arg1_reg result_reg)
          then append ("    MOV " +:+ result_reg +:+ ", " +:+ arg1_reg) self
          else self in
        append ("    " +:+ op_code +:+ " " +:+ result_reg +:+ ", " +:+ arg2_val)
               self
  | TACUnaryOp result op arg =>
      let (result_reg, self) := allocate_register result self in
      let (arg_reg, self) := allocate_register arg self in
      if String.eqb op "-"
      then append ("    NEG " +:+ result_reg +:+ ", " +:+ arg_reg) self
      else if String.eqb op "!"
      then append ("    NOT " +:+ result_reg +:+ ", " +:+ arg_reg) self
      else self
  | TACLabel label => append (label +:+ ":") self
  | TACGoto label => append ("    JMP " +:+ label) self
  | TACIfGoto condition label =>
      let (cond_reg, self) := allocate_register condition self in
      let self := append ("    CMP " +:+ cond_reg +:+ ", #0") self in
      append ("    JNE " +:+ label) self
  | TACIfFalseGoto condition label =>
      let (cond_reg, self) := allocate_register condition self in
      let self := append ("    CMP " +:+ cond_reg +:+ ", #0") self in
      append ("    JE " +:+ label) self
  | TACParam arg =>
      if is_constant arg then append ("    PUSH #" +:+ arg) self
      else
        let (arg_reg, self) := allocate_register arg self in
        append ("    PUSH " +:+ arg_reg) self
  | TACCall result function n_args =>
      let self := append ("    CALL " +:+ function) self in
      let self :=
        if (0 <? n_args)%nat
        then append ("    ADD SP, #" +:+ pretty (n_args * 4)%nat) self
        else self in
      if truthy result then
        let (result_reg, self) := allocate_register (default "" result) self in
        append ("    MOV " +:+ result_reg +:+ ", RAX") self
      else self
  | TACReturn value =>
      if truthy value then
        let value := default "" value in
        if is_constant value
        then append ("    LOAD RAX, #" +:+ value) self
        else
          let (value_reg, self) := allocate_register value self in
          append ("    MOV RAX, " +:+ value_reg) self
      else self
  end.

Definition generate (self : CodeGenerator) : CodeGenerator :=
  let self := append "; Generated Assembly Code" self in
  let self := append "; Simplified RISC-style instructions" self in
  let self := append "" self in
  fold_left (fun self instruction => generate_instruction instruction self)
            (tac_instructions self) self.

End Generate.

(** ** [optimize] *)

(** The test of the first pattern of the loop body: the line holds the
    letters MOV, splits into three fields or more, and the second field
    with its trailing commas removed is the third. *)
Definition redundant_move (line : string) : bool :=
  if contains "MOV" line then
    match split line with
    | _ :: dest :: src :: _ => String.eqb (rstrip_comma dest) src
    | _ => false
    end
  else false.

(** The [while i < len(self.assembly_code)] loop.  [i] grows by one at
    every turn, so the loop visits the lines in order, once each; the
    second pattern of the body ends in [pass] and changes nothing.  The
    result is the count of eliminated lines and the lines kept. *)
Fixpoint optimize_loop (lines : list string) (optimizations_made : nat)
         (optimized_code : list string) : nat * list string :=
  match lines with
  | [] => (optimizations_made, optimized_code)
  | line :: rest =>
      if redundant_move line
      then optimize_loop rest (optimizations_made + 1) optimized_code
      else optimize_loop rest optimizations_made (optimized_code ++ [line])
  end.

Definition optimize (self : CodeGenerator) : nat * CodeGenerator :=
  let (optimizations_made, optimized_code) :=
    optimize_loop (assembly_code self) 0 [] in
  (optimizations_made,
   {| tac_instructions := tac_instructions self;
      assembly_code := optimized_code;
      register_counter := register_counter self;
      var_to_register := var_to_register self |}).

End CodeGen.

(* ===================================================================== *)
(** * The driver (compiler.py)                                            *)
(* ===================================================================== *)

Module Compiler.

(** How a call of [compile_c_code] ends: it returns [True] after the five
    stages ([Success], with the target code generator), it returns [False]
    from the handler of [SyntaxError] ([CompilationError], with the text
    printed) or from the handler of every other [Exception]
    ([UnexpectedError]).  [OutOfFuel] is not an outcome of the code. *)
Inductive outcome : Type :=
| Success (target : CodeGen.CodeGenerator)
| CompilationError (text : string)
| UnexpectedError
| OutOfFuel.

(** The value returned. *)
Definition returned (o : outcome) : option bool :=
  match o with
  | Success _ => Some true
  | CompilationError _ => Some false
  | UnexpectedError => Some false
  | OutOfFuel => None
  end.

Section Driver.

(** Python's [int] and [float] on a lexeme, and whether [float] accepts an
    operand of the TAC. *)
Variable py_int : string -> option Z.
Variable py_float : string -> option string.
Variable py_float_ok : string -> bool.

(** [compile_c_code]; what it prints is left out, and printing is taken to
    succeed.  The exceptions of the scanner and of the parser are
    [SyntaxError]s; [SemanticError], [ValueError] and [AttributeError] are
    not, and reach the second handler.  The parser gets one unit of fuel
    more than there are tokens, which is proved to be enough; the limit of
    the interpreter on the depth of recursion is not modelled. *)
Definition compile_c_code (source_code : string) : outcome :=
  match Lexer.tokenize source_code with
  | Lexer.LexicalError at_line at_column message =>
      CompilationError (Lexer.error_text at_line at_column message)
  | Lexer.OutOfFuel => OutOfFuel
  | Lexer.Ok tokens =>
      match Parser.parse py_int py_float (S (length tokens))
                         (Parser.init tokens) with
      | Parser.Raise (Parser.SyntaxError text) => CompilationError text
      | Parser.Raise _ => UnexpectedError
      | Parser.OutOfFuel => OutOfFuel
      | Parser.Ok (ast, _) =>
          match fst (Semantic.analyze ast Semantic.init) with
          | Semantic.Raise _ => UnexpectedError
          | Semantic.Return _ =>
              let code_gen := IR.generate ast in
              let target_code_gen :=
                CodeGen.generate py_float_ok
                  (CodeGen.init (IR.instructions code_gen)) in
              Success (snd (CodeGen.optimize target_code_gen))
          end
      end
  end.

End Driver.

End Compiler.

(* ===================================================================== *)
(** * Vocabulary of the properties *)
(* ===================================================================== *)

Module LexerSpec.
Import Lexer.

(** Characters left to scan. *)
Definition remaining (self : Lexer) : nat :=
  length (source self) - position self.

(** A character that starts no token, no comment and no blank. *)
Definition unexpected (c : ascii) : Prop :=
  is_blank c = false /\ isdigit c = false /\ isalpha c = false /\
  c <> "_"%char /\ c <> dquote /\
  dict_get single_char_tokens (char_str c) = None.

(** The three ways the scanner fails, each with the character of the
    source text it was looking at. *)
Definition lexical_failure (src : list ascii) (message : string) : Prop :=
  (message = "Invalid number format" /\
   exists q p, q < p /\ src !! q = Some "."%char /\ src !! p = Some "."%char /\
               forall k, q < k < p ->
                         exists d, src !! k = Some d /\ isdigit d = true) \/
  (message = "Unterminated string literal" /\ In dquote src) \/
  (exists c, message = "Unexpected character: '" +:+ char_str c +:+ "'" /\
             In c src /\ unexpected c).

Definition scanned {A} (src : list ascii) (P : A -> Prop) (r : result A)
  : Prop :=
  match r with
  | Ok a => P a
  | LexicalError _ _ message => lexical_failure src message
  | OutOfFuel => False
  end.

(** [self'] is [self] further along the same text, same tokens. *)
Record scans (self self' : Lexer) : Prop := mkScans {
  scans_source : source self' = source self;
  scans_tokens : tokens self' = tokens self;
  scans_position : position self <= position self'
}.

Definition not_EOF (t : Token) : Prop := tok_type t <> EOF.

(** Loop invariant of [read_number]: when [is_float] is set, a dot was
    read and only digits since. *)
Definition dot_seen (self : Lexer) (is_float : bool) : Prop :=
  is_float = true ->
  exists q, q < position self /\ source self !! q = Some "."%char /\
            forall k, q < k < position self ->
                      exists d, source self !! k = Some d /\ isdigit d = true.

(** [self'] is [self] further along, with tokens added, none of them
    EOF. *)
Record extends (self self' : Lexer) : Prop := mkExtends {
  extends_source : source self' = source self;
  extends_tokens :
    exists new, tokens self' = tokens self ++ new /\ Forall not_EOF new;
  extends_position : position self <= position self'
}.
End LexerSpec.

Module SemanticSpec.
Import Ast Semantic.

(** The scope labels of the specification. *)
Definition spec_scope_label (s : string) : Prop :=
  s = "global" \/ s = "for" \/ s = "block" \/
  exists name, s = "function:" +:+ name.

(** The scope labels the code attaches. *)
Definition code_scope_label (s : string) : Prop :=
  spec_scope_label s \/ s = "outer".

(** What holds of the errors and the labels all along the walk: the errors
    [e0] found so far stay in front of the list, and every label in use or
    recorded is one the code attaches. *)
Record Steady (e0 : list string) (self : SemanticAnalyzer) : Prop := mkSteady {
  steady_errors : e0 `prefix_of` errors self;
  steady_current : code_scope_label (current_scope (symbol_table self));
  steady_recorded :
    Forall (fun s => code_scope_label (sym_scope s))
           (recorded (symbol_table self))
}.

(** State invariant of the walk at scope depth [n]: the stack has [n]
    frames, and the frames under the innermost one are [below]. *)
Record Inv (e0 : list string) (below : list (gmap string Symbol)) (n : nat)
       (self : SemanticAnalyzer) : Prop := mkInv {
  inv_steady : Steady e0 self;
  inv_depth : length (scopes (symbol_table self)) = n;
  inv_nonempty : 1 <= n;
  inv_below : take (n - 1) (scopes (symbol_table self)) = below
}.

(** The state once a scope has been left: the stack is [stack] again. *)
Record Restored (e0 : list string) (stack : list (gmap string Symbol))
       (self : SemanticAnalyzer) : Prop := mkRestored {
  restored_steady : Steady e0 self;
  restored_scopes : scopes (symbol_table self) = stack
}.

(** The state between two top-level declarations: one frame, whose keys
    are the names [G]. *)
Record Global (e0 : list string) (G : gset string)
       (self : SemanticAnalyzer) : Prop := mkGlobal {
  global_steady : Steady e0 self;
  global_frame :
    exists g, scopes (symbol_table self) = [g] /\ dom g = G
}.

(** The method returns (raises nothing) from every state of [P], into a
    state of [Q]. *)
Definition returns {A} (P : SemanticAnalyzer -> Prop) (m : M A)
           (Q : SemanticAnalyzer -> Prop) : Prop :=
  forall self, P self ->
    exists a, fst (m self) = Return a /\ Q (snd (m self)).

(** The name a top-level declaration declares. *)
Definition declared_name (decl : Declaration) : string :=
  match decl with
  | DFunction f => fun_name f
  | DVar v => var_name v
  end.

End SemanticSpec.

Module IRSpec.
Import Ast IR.
Local Open Scope gen_scope.

(** ** Observations on a TAC list, used to state the properties *)

(** The name an instruction defines through [new_temp]: the result of a
    binary operation, of a unary operation and of a call. *)
Definition defined_temp (i : TACInstruction) : list string :=
  match i with
  | TACBinaryOp result _ _ _ => [result]
  | TACUnaryOp result _ _ => [result]
  | TACCall (Some result) _ _ => [result]
  | _ => []
  end.

Definition defined_label (i : TACInstruction) : list string :=
  match i with
  | TACLabel label => [label]
  | _ => []
  end.

Definition temp_defs (code : list TACInstruction) : list string :=
  flat_map defined_temp code.

Definition label_defs (code : list TACInstruction) : list string :=
  flat_map defined_label code.

(** A call instruction carries a result that Python takes as true. *)
Definition call_has_result (i : TACInstruction) : Prop :=
  match i with
  | TACCall result _ _ => truthy result = true
  | _ => True
  end.

Definition is_call (i : TACInstruction) : bool :=
  match i with
  | TACCall _ _ _ => true
  | _ => false
  end.

(** The naturals [a], [a+1], ..., [b-1]. *)
Definition interval (a b : nat) : list nat := seq a (b - a).
Arguments interval : simpl never.
Arguments temp_name : simpl never.
Arguments label_name : simpl never.

(** Bookkeeping of a run from [self] to [self']: [code] is what was
    appended, [ids] are the numbers of the labels placed in [code], and
    the temporaries defined in [code] are those numbered from the counter
    of [self] up to that of [self']. *)
Record acct (self : IntermediateCodeGenerator) (code : list TACInstruction)
            (ids : list nat) (self' : IntermediateCodeGenerator) : Prop := mkAcct {
  acct_instructions : instructions self' = instructions self ++ code;
  acct_temp_le : temp_counter self <= temp_counter self';
  acct_label_le : label_counter self <= label_counter self';
  acct_temps :
    temp_defs code =
    map temp_name (interval (temp_counter self) (temp_counter self'));
  acct_labels : label_defs code = map label_name ids;
  acct_calls : Forall call_has_result code
}.

(** Label discipline of an action: started with the labels [pending]
    allocated and not yet placed, it leaves [pending'] such, having placed
    the others and those it allocated itself. *)
Definition disciplined {A} (pending pending' : list nat) (m : M A) : Prop :=
  forall self, exists code ids,
    acct self code ids (snd (m self)) /\
    ids ++ pending' ≡ₚ
      pending ++ interval (label_counter self) (label_counter (snd (m self))).

(** The instructions that lowering [node] from [self] appends. *)
Definition lowering (node : Expression) (self : IntermediateCodeGenerator)
  : list TACInstruction :=
  drop (length (instructions self))
       (instructions (snd (visit_expression node self))).

(** Following the spec's words: for each argument of [l], in the order of
    [l], the lowering of the argument and then its [param]. *)
Fixpoint params_code (l : list Expression) (self : IntermediateCodeGenerator)
  : list TACInstruction * IntermediateCodeGenerator :=
  match l with
  | [] => ([], self)
  | arg :: rest =>
      let (name, self1) := visit_expression arg self in
      let self2 := snd (emit (TACParam name) self1) in
      let (code, self3) := params_code rest self2 in
      (lowering arg self ++ [TACParam name] ++ code, self3)
  end.

(** Following the spec's words: [param] for each argument in reverse
    source order, then [result = call f, n]. *)
Definition call_code (f : string) (args : list Expression)
           (self : IntermediateCodeGenerator) : string * list TACInstruction :=
  let (code, self1) := params_code (rev args) self in
  let result := temp_name (temp_counter self1) in
  (result, code ++ [TACCall (Some result) f (length args)]).

End IRSpec.

Module CodeGenSpec.
Import CodeGen.

(** A field of an assembly line: not empty, no blank and no comma in it. *)
Fixpoint plain (s : string) : bool :=
  match s with
  | EmptyString => true
  | String c rest => negb (isspace c) && negb (Ascii.eqb c ",") && plain rest
  end.

Definition field (s : string) : Prop := s <> "" /\ plain s = true.

End CodeGenSpec.

Module Samples.
Import Ast IR.

(** A function [main] whose body is the call [f()] as a statement. *)
Definition call_program : Program :=
  {| declarations :=
       [DFunction {| return_type := "void"; fun_name := "main"; parameters := [];
                     body := Some [ExpressionStmt (Some (FunctionCall "f" []))] |}] |}.

(** Two functions [f] and [g], each with one addition and one [if]. *)
Definition two_functions : Program :=
  {| declarations :=
       [DFunction
          {| return_type := "int"; fun_name := "f";
             parameters := [mkParameter "int" "a"];
             body := Some [IfStmt (BinaryOp "+" (Identifier "a") (IntLiteral 1))
                                  (ReturnStmt (Some (Identifier "a"))) None] |};
        DFunction
          {| return_type := "int"; fun_name := "g";
             parameters := [mkParameter "int" "b"];
             body := Some [IfStmt (BinaryOp "+" (Identifier "b") (IntLiteral 2))
                                  (ReturnStmt (Some (Identifier "b"))) None] |}] |}.

(** The global declaration [int x = 5;]. *)
Definition global_x : VarDecl :=
  {| var_type := "int"; var_name := "x"; initializer := Some (IntLiteral 5) |}.

(** The tokens of a text the scanner accepts, [[]] otherwise. *)
Definition scan (source_code : string) : list Lexer.Token :=
  match Lexer.tokenize source_code with
  | Lexer.Ok toks => toks
  | _ => []
  end.

Definition parse_text (source_code : string)
  : Parser.result (Expression * Parser.Parser) :=
  Parser.parse_expression Parser.int_of_digits Some 16 (Parser.init (scan source_code)).

(** The assignment token of the text [x = 5] and the parser once it has
    read [x]. *)
Definition assign_token : Lexer.Token := Lexer.mkToken Lexer.ASSIGN "=" 1 3.

Definition after_x : Parser.Parser :=
  {| Parser.tokens := scan "x = 5"; Parser.position := 1; Parser.current_token := Some assign_token |}.

(** [int main() { int x; int x; return y; }]: a redeclaration, then an
    undefined name. *)
Definition two_errors : Program :=
  {| declarations :=
       [DFunction
          {| return_type := "int"; fun_name := "main"; parameters := [];
             body := Some [SVarDecl (mkVarDecl "int" "x" None);
                           SVarDecl (mkVarDecl "int" "x" None);
                           ReturnStmt (Some (Identifier "y"))] |}] |}.

(** A function with an empty body, then a global variable. *)
Definition outer_program : Program :=
  {| declarations :=
       [DFunction {| return_type := "void"; fun_name := "f";
                     parameters := []; body := Some [] |};
        DVar {| var_type := "int"; var_name := "x"; initializer := None |}] |}.

(** The text of a string literal of the source language: x, blank, #,
    an escaped double quote, x, blank, MOV. *)
Definition push_literal : string := "x #" +:+ String IR.dquote "x MOV".

(** A forward declaration of [f], and a function [main] whose body calls
    [f] on that literal. *)
Definition push_program : Program :=
  {| declarations :=
       [DFunction
          {| return_type := "void"; fun_name := "f";
             parameters := [{| param_type := "char"; param_name := "s" |}];
             body := None |};
        DFunction
          {| return_type := "void"; fun_name := "main"; parameters := [];
             body := Some [ExpressionStmt
                             (Some (FunctionCall "f" [StringLiteral push_literal]))] |}] |}.

(** The call as it is written in a source file: the literal between double
    quotes, its inner quote escaped with a backslash. *)
Definition push_call_text : string :=
  "f(" +:+ String IR.dquote ("x #" +:+ String Lexer.backslash
    (String IR.dquote ("x MOV" +:+ String IR.dquote ")"))).

Definition push_line : string := "    PUSH #" +:+ IR.quoted push_literal.



End Samples.

(* ===================================================================== *)
(** * Vocabulary of the further properties *)
(* ===================================================================== *)

Module LexerPlacement.
Import Lexer LexerSpec.

(** ** Coordinates *)

(** The line of the offset that follows the text [prefix]: one more than
    the newlines of [prefix]. *)
Definition line_of (prefix : list ascii) : nat :=
  1 + length (List.filter (fun c => Ascii.eqb c newline) prefix).

(** The characters of [prefix] since its last newline. *)
Definition last_line (prefix : list ascii) : list ascii :=
  fold_left (fun acc c => if Ascii.eqb c newline then [] else acc ++ [c])
            prefix [].

(** The column of that offset: one more than the characters since the
    last newline. *)
Definition column_of (prefix : list ascii) : nat :=
  1 + length (last_line prefix).

(** The scanner's line and column are those of its position. *)
Record tracked (self : Lexer) : Prop := mkTracked {
  tracked_line : line self = line_of (take (position self) (source self));
  tracked_column :
    column self = column_of (take (position self) (source self));
  tracked_position : position self <= length (source self)
}.

(** [self'] is [self] further along the same text, same tokens, its
    coordinates still right if they were. *)
Record keeps (self self' : Lexer) : Prop := mkKeeps {
  keeps_scans : scans self self';
  keeps_tracked : tracked self -> tracked self'
}.

(** The text between the positions of [self] and [self']. *)
Definition text (self self' : Lexer) : list ascii :=
  take (position self' - position self) (drop (position self) (source self)).

(** ** Tokens *)

Definition is_dot (c : ascii) : bool := Ascii.eqb c ".".

Definition chars (tok : Token) : list ascii :=
  list_ascii_of_string (tok_value tok).

(** A number: digits, and one dot exactly when the type is
    [FLOAT_LITERAL]. *)
Definition number (tok : Token) : Prop :=
  Forall (fun c => isdigit c || is_dot c = true) (chars tok) /\
  ((tok_type tok = INTEGER_LITERAL /\ List.filter is_dot (chars tok) = []) \/
   (tok_type tok = FLOAT_LITERAL /\
    length (List.filter is_dot (chars tok)) = 1)).

(** A word: letters, digits and underscores, no digit in front; its type
    is the keyword that the text is, [IDENTIFIER] for any other text. *)
Definition word (tok : Token) : Prop :=
  Forall (fun c => isalnum c || Ascii.eqb c "_" = true) (chars tok) /\
  (exists c, head (chars tok) = Some c /\
             isalpha c || Ascii.eqb c "_" = true) /\
  tok_type tok = default IDENTIFIER (dict_get KEYWORDS (tok_value tok)).

(** An operator or a delimiter: an entry of one of the two tables. *)
Definition operator (tok : Token) : Prop :=
  dict_get two_char_tokens (tok_value tok) = Some (tok_type tok) \/
  dict_get single_char_tokens (tok_value tok) = Some (tok_type tok).

(** The token [tok] was read at offset [p] of [src]: its line and column
    are those of [p]; it is a string literal that opens at [p] with a
    double quote, or a number, a word or an operator whose text is the
    text of [src] at [p]. *)
Record placed (src : list ascii) (p : nat) (tok : Token) : Prop := mkPlaced {
  placed_line : tok_line tok = line_of (take p src);
  placed_column : tok_column tok = column_of (take p src);
  placed_kind :
    (tok_type tok = STRING_LITERAL /\ src !! p = Some dquote) \/
    (chars tok `prefix_of` drop p src /\ chars tok <> [] /\
     (number tok \/ word tok \/ operator tok))
}.

(** A list of offsets that grow strictly. *)
Definition increasing (offsets : list nat) : Prop :=
  forall i j p q,
    i < j -> offsets !! i = Some p -> offsets !! j = Some q -> p < q.

(** The tokens read so far lie at increasing offsets before the
    position. *)
Record lexed (self : Lexer) : Prop := mkLexed {
  lexed_tracked : tracked self;
  lexed_tokens :
    exists offsets,
      Forall2 (placed (source self)) offsets (tokens self) /\
      increasing offsets /\
      Forall (fun p => p < position self) offsets
}.

End LexerPlacement.

Module LexerGrammar.
Import Lexer LexerSpec LexerPlacement.

(** ** The lexical grammar, on the text that remains

    What the scanner is to meet is said here on the text itself, a list of
    characters, with no position, no line, no column and no fuel: the
    blanks, the comments and the lexemes of the language, each followed by
    the text that remains after it, and the three malformed items. *)

(** The longest prefix of [s] whose characters satisfy [p], and the text
    after it. *)
Fixpoint run (p : ascii -> bool) (s : list ascii) : list ascii :=
  match s with
  | c :: s' => if p c then c :: run p s' else []
  | [] => []
  end.

Fixpoint after_run (p : ascii -> bool) (s : list ascii) : list ascii :=
  match s with
  | c :: s' => if p c then after_run p s' else s
  | [] => []
  end.

(** The characters of a numeric literal and of a word. *)
Definition digit_or_dot (c : ascii) : bool := isdigit c || is_dot c.

Definition word_char (c : ascii) : bool := isalnum c || Ascii.eqb c "_".

Definition dots (s : list ascii) : nat := length (List.filter is_dot s).

(** The text after a line comment: after the newline that ends it. *)
Definition after_line (s : list ascii) : list ascii :=
  tail (after_run (fun c => negb (Ascii.eqb c newline)) s).

(** The text after the star and slash that close a block comment; a
    comment that is not closed runs to the end of the text. *)
Fixpoint after_block (s : list ascii) : list ascii :=
  match s with
  | [] => []
  | c :: s' =>
      if Ascii.eqb c "*" && char_is "/" (head s') then tail s'
      else after_block s'
  end.

(** The text after the double quote that closes a string literal, [s]
    being the text after the quote that opens it; a backslash hides the
    double quote that follows it.  [None] when the literal is not
    closed. *)
Fixpoint after_string (s : list ascii) : option (list ascii) :=
  match s with
  | [] => None
  | c :: s' =>
      if Ascii.eqb c dquote then Some s'
      else
        match s' with
        | d :: s'' =>
            if Ascii.eqb c backslash && Ascii.eqb d dquote
            then after_string s''
            else after_string s'
        | [] => None
        end
  end.

(** The three malformed items, and the message of each. *)
Inductive cause : Type :=
| SecondDot
| OpenString
| Unexpected (c : ascii).

Definition message_of (k : cause) : string :=
  match k with
  | SecondDot => "Invalid number format"
  | OpenString => "Unterminated string literal"
  | Unexpected c => "Unexpected character: '" +:+ char_str c +:+ "'"
  end.

(** What stands at the head of a text: nothing, an item followed by the
    text [rest], or a malformed item. *)
Inductive item : Type :=
| Finished
| Next (rest : list ascii)
| Failure (k : cause).

(** The item at the head of [s]:
    - a blank;
    - a comment, opened by two slashes or by a slash and a star;
    - a numeric literal, the longest run of digits and dots after a digit,
      malformed when it holds a second dot;
    - a word, the longest run of letters, digits and underscores after a
      letter or an underscore;
    - a string literal, malformed when no double quote closes it;
    - an operator or a delimiter of two characters, or else of one;
    - any other character is unexpected. *)
Definition item_at (s : list ascii) : item :=
  match s with
  | [] => Finished
  | c :: s' =>
      if is_blank c then Next s'
      else if Ascii.eqb c "/" && char_is "/" (head s') then Next (after_line s)
      else if Ascii.eqb c "/" && char_is "*" (head s')
      then Next (after_block (tail s'))
      else if isdigit c then
        if (2 <=? dots (run digit_or_dot s))%nat then Failure SecondDot
        else Next (after_run digit_or_dot s)
      else if isalpha c || Ascii.eqb c "_" then Next (after_run word_char s)
      else if Ascii.eqb c dquote then
        match after_string s' with
        | Some rest => Next rest
        | None => Failure OpenString
        end
      else
        let two_char :=
          char_str c +:+
          match head s' with Some d => char_str d | None => "" end in
        if bool_decide (is_Some (dict_get two_char_tokens two_char))
        then Next (tail s')
        else if bool_decide (is_Some (dict_get single_char_tokens (char_str c)))
        then Next s'
        else Failure (Unexpected c)
  end.

(** Scanning the text [s] meets the malformed item [k]: [k] stands at the
    head of [s], or after one item or more. *)
Inductive meets : list ascii -> cause -> Prop :=
| meets_here s k : item_at s = Failure k -> meets s k
| meets_later s rest k : item_at s = Next rest -> meets rest k -> meets s k.

(** The text that remains to the scanner. *)
Definition rest (self : Lexer) : list ascii :=
  drop (position self) (source self).

(** What a method of the scanner does to the text that remains: it leaves
    [after] when it returns, and it raises only for the cause [failure]. *)
Definition leaves {A} (after : A -> Prop) (failure : option cause)
           (r : result A) : Prop :=
  match r with
  | Ok a => after a
  | LexicalError _ _ message =>
      exists k, failure = Some k /\ message = message_of k
  | OutOfFuel => True
  end.

End LexerGrammar.

Module ParserSpec.
Import Lexer Ast Parser.

(** The binary and the unary operators of the language. *)
Definition binary_operators : list string :=
  ["+"; "-"; "*"; "/"; "%"; "=="; "!="; "<"; ">"; "<="; ">="; "&&"; "||"].

Definition unary_operators : list string := ["-"; "!"].

Definition in_list (x : string) (l : list string) : bool :=
  existsb (String.eqb x) l.

(** The token types that [parse_multiplicative] to [parse_logical_or] take
    for a binary operator, and those that [parse_unary] takes for a unary
    one. *)
Definition binary_type (t : TokenType) : bool :=
  match t with
  | PLUS | MINUS | MULTIPLY | DIVIDE | MODULO | EQUAL | NOT_EQUAL
  | LESS_THAN | GREATER_THAN | LESS_EQUAL | GREATER_EQUAL
  | LOGICAL_AND | LOGICAL_OR => true
  | _ => false
  end.

Definition unary_type (t : TokenType) : bool :=
  match t with
  | MINUS | LOGICAL_NOT => true
  | _ => false
  end.

Section Operators.

(** The binary and the unary operators accepted. *)
Variable B U : string -> bool.

(** Every operator of the expression is accepted. *)
Fixpoint operators_ok (e : Expression) : bool :=
  match e with
  | BinaryOp op l r => B op && operators_ok l && operators_ok r
  | UnaryOp op e => U op && operators_ok e
  | Assignment _ e => operators_ok e
  | FunctionCall _ args => forallb operators_ok args
  | _ => true
  end.

Definition option_ok (e : option Expression) : bool :=
  match e with
  | Some e => operators_ok e
  | None => true
  end.

Fixpoint statement_ok (s : Statement) : bool :=
  match s with
  | SVarDecl decl => option_ok (initializer decl)
  | SFunctionDecl _ _ _ body =>
      match body with
      | Some statements => forallb statement_ok statements
      | None => true
      end
  | CompoundStmt statements => forallb statement_ok statements
  | ExpressionStmt e => option_ok e
  | ReturnStmt e => option_ok e
  | IfStmt c t e =>
      operators_ok c && statement_ok t &&
      match e with Some s => statement_ok s | None => true end
  | WhileStmt c b => operators_ok c && statement_ok b
  | ForStmt i c u b =>
      match i with Some s => statement_ok s | None => true end &&
      option_ok c && option_ok u && statement_ok b
  end.

Definition declaration_ok (decl : Declaration) : bool :=
  statement_ok (statement_of_declaration decl).

Definition program_ok (p : Program) : bool :=
  forallb declaration_ok (declarations p).

(** The text of an operator token is an accepted operator. *)
Definition token_ok (tok : Token) : Prop :=
  (binary_type (tok_type tok) = true -> B (tok_value tok) = true) /\
  (unary_type (tok_type tok) = true -> U (tok_value tok) = true).

End Operators.

(** Every operator of the program is one of the language. *)
Definition program_known : Program -> bool :=
  program_ok (fun op => in_list op binary_operators)
             (fun op => in_list op unary_operators).

(** The text of an operator or delimiter token is the one that the
    scanner's tables give for its type. *)
Definition spelled (tok : Token) : Prop :=
  forall lexeme,
    In (lexeme, tok_type tok) (two_char_tokens ++ single_char_tokens) ->
    tok_value tok = lexeme.

(** The parser stands on a token of its list; the list ends with an EOF
    token, as the lists of [tokenize] do, and [T] holds of its tokens. *)
Record well_formed (T : Token -> Prop) (self : Parser) : Prop := mkWellFormed {
  wf_position : position self < length (tokens self);
  wf_current : current_token self = tokens self !! position self;
  wf_sentinel : exists eof, last (tokens self) = Some eof /\ tok_type eof = EOF;
  wf_tokens : Forall T (tokens self)
}.

(** Tokens from the current one to the end of the list. *)
Definition tokens_left (self : Parser) : nat :=
  length (tokens self) - position self.

(** [self'] is [self] at least [d] tokens further in the same list. *)
Record after (T : Token -> Prop) (self : Parser) (d : nat) (self' : Parser)
  : Prop := mkAfter {
  after_tokens : tokens self' = tokens self;
  after_wf : well_formed T self';
  after_position : position self + d <= position self'
}.

(** A call from [self] has ended: it returned a value of [P] and a parser
    at least [d] tokens further, or raised something other than
    [AttributeError]. *)
Definition parsed (T : Token -> Prop) {A} (P : A -> Prop) (self : Parser)
           (d : nat) (r : result (A * Parser)) : Prop :=
  match r with
  | Ok (a, self') => after T self d self' /\ P a
  | Raise e => e <> AttributeError
  | OutOfFuel => False
  end.

(** The parser stands on an EOF token. *)
Definition at_EOF (self : Parser) : Prop :=
  exists tok, current_token self = Some tok /\ tok_type tok = EOF.

(** The token types of a level are types of binary operators. *)
Definition level_known (operators : list TokenType) : Prop :=
  forall t, existsb (is_type t) operators = true -> binary_type t = true.

(** A parser of operands that ends, one token further or more. *)
Definition ends (B U : string -> bool) (fuel : nat)
           (operand : Parser -> result (Expression * Parser)) : Prop :=
  forall self,
    well_formed (token_ok B U) self -> tokens_left self <= fuel ->
    parsed (token_ok B U) (fun e => operators_ok B U e = true) self 1
           (operand self).

(** The text that the tables give for a type. *)
Definition lexeme_of (t : TokenType) : option string :=
  fst <$> List.find (fun kv => bool_decide (snd kv = t))
                    (two_char_tokens ++ single_char_tokens).

End ParserSpec.

Module ScopeSpec.
Import Ast Semantic SemanticSpec.
Local Open Scope sem_scope.

(** The text of the error that [declare] raises. *)
Definition already_declared (name : string) : string :=
  "Variable '" +:+ name +:+ "' already declared in this scope".

(** The symbol tables that calls of the methods build from a new table. *)
Inductive reachable : SymbolTable -> Prop :=
| reachable_init : reachable SymbolTable_.init
| reachable_enter_scope scope_name self :
    reachable self -> reachable (SymbolTable_.enter_scope scope_name self)
| reachable_exit_scope self :
    reachable self -> reachable (SymbolTable_.exit_scope self)
| reachable_declare name symbol_type self :
    reachable self ->
    reachable (snd (SymbolTable_.declare name symbol_type self)).

(** [declare] called for each pair of a name and a type, in turn, an
    exception being dropped as [visit_var_decl] does. *)
Definition declare_all (ds : list (string * string)) (self : SymbolTable)
  : SymbolTable :=
  fold_left (fun table d => snd (SymbolTable_.declare (fst d) (snd d) table))
            ds self.

(** The key of an entry is the name of its symbol. *)
Definition keyed_by_name (frame : gmap string Symbol) : Prop :=
  forall key symbol, frame !! key = Some symbol -> sym_name symbol = key.

(** The type that a top-level declaration gives its name. *)
Definition declared_type (decl : Declaration) : string :=
  match decl with
  | DFunction f => "function:" +:+ return_type f
  | DVar v => var_type v
  end.

(** The type of the first declaration of [name] in [ds]. *)
Definition first_declared (ds : list Declaration) (name : string)
  : option string :=
  declared_type <$> List.find (fun d => String.eqb (declared_name d) name) ds.

(** What [visit_function_decl] and [visit_var_decl] do once the name is
    declared. *)
Definition after_declare (decl : Declaration) : M unit :=
  match decl with
  | DFunction node =>
      match body node with
      | Some statements =>
          enter_scope ("function:" +:+ fun_name node) ;;
          set_current_function_return_type (Some (return_type node)) ;;
          for_each
            (fun param =>
               try_except (declare (param_name param) (param_type param)) error)
            (parameters node) ;;
          visit_compound_stmt statements ;;
          exit_scope ;;
          set_current_function_return_type None
      | None => ret tt
      end
  | DVar node =>
      match initializer node with
      | Some init_expr =>
          init_type <- visit_expression init_expr ;;
          if is_compatible_type (var_type node) init_type then ret tt
          else error ("Type mismatch in initialization of '" +:+ var_name node +:+
                      "': cannot assign " +:+ init_type +:+ " to " +:+
                      var_type node)
      | None => ret tt
      end
  end.

(** The state between two top-level declarations: the errors [e0] in
    front, and the one frame [g]. *)
Definition Top (e0 : list string) (g : gmap string Symbol)
           (self : SemanticAnalyzer) : Prop :=
  Steady e0 self /\ scopes (symbol_table self) = [g].

(** The names an expression uses: its identifiers, the targets of its
    assignments and the functions it calls. *)
Fixpoint names_used (e : Expression) : list string :=
  match e with
  | BinaryOp _ l r => names_used l ++ names_used r
  | UnaryOp _ e => names_used e
  | Identifier name => [name]
  | Assignment target e => target :: names_used e
  | FunctionCall name args => name :: flat_map names_used args
  | _ => []
  end.

(** What visiting expressions from [self] keeps: the table of [self], and
    its errors in front. *)
Definition kept (self : SemanticAnalyzer) (s : SemanticAnalyzer) : Prop :=
  symbol_table s = symbol_table self /\ errors self `prefix_of` errors s.

End ScopeSpec.

Module WalkSpec.
Import Ast Semantic SemanticSpec ScopeSpec.

(** ** What the walk visits *)




(** ** What a program declares *)






(** State invariant of the walk of a program whose declared names are
    among [D]: the stack has a frame, the names of its frames are among
    [D], and [n] errors or more have been collected. *)
Record Counted (D : list string) (n : nat) (self : SemanticAnalyzer)
  : Prop := mkCounted {
  counted_frames : scopes (symbol_table self) <> [];
  counted_names :
    Forall (fun frame : gmap string Symbol =>
              forall name, is_Some (frame !! name) -> name ∈ D)
           (scopes (symbol_table self));
  counted_errors : n <= length (errors self)
}.

End WalkSpec.

Module IRShape.
Import Ast IR IRSpec.
Local Open Scope gen_scope.

(** The label an instruction jumps to. *)
Definition jump_target (i : TACInstruction) : list string :=
  match i with
  | TACGoto label => [label]
  | TACIfGoto _ label => [label]
  | TACIfFalseGoto _ label => [label]
  | _ => []
  end.

Definition jump_targets (code : list TACInstruction) : list string :=
  flat_map jump_target code.

(** The instructions that open and close a function. *)
Definition is_marker (i : TACInstruction) : bool :=
  match i with
  | TACFunctionStart _ | TACFunctionEnd _ => true
  | _ => false
  end.

(** The instructions an expression is lowered to. *)
Definition straight_line (i : TACInstruction) : bool :=
  match i with
  | TACAssign _ _ | TACBinaryOp _ _ _ _ | TACUnaryOp _ _ _
  | TACParam _ | TACCall _ _ _ => true
  | _ => false
  end.

(** The instructions a statement is lowered to. *)
Definition statement_level (i : TACInstruction) : bool :=
  straight_line i ||
  match i with
  | TACLabel _ | TACGoto _ | TACIfFalseGoto _ _ | TACReturn _ => true
  | _ => false
  end.

(** The markers a top-level declaration contributes: a pair for a function
    that has a body. *)
Definition function_markers (decl : Declaration) : list TACInstruction :=
  match decl with
  | DFunction f =>
      match body f with
      | Some _ => [TACFunctionStart (fun_name f); TACFunctionEnd (fun_name f)]
      | None => []
      end
  | DVar _ => []
  end.

Definition marker (i : TACInstruction) : list TACInstruction :=
  if is_marker i then [i] else [].

Definition markers (code : list TACInstruction) : list TACInstruction :=
  flat_map marker code.

(** The operator and call nodes of an expression. *)
Fixpoint operations (e : Expression) : nat :=
  match e with
  | BinaryOp _ l r => operations l + operations r + 1
  | UnaryOp _ e => operations e + 1
  | Assignment _ e => operations e
  | FunctionCall _ args => list_sum (map operations args) + 1
  | _ => 0
  end.

(** What an action appends: instructions of kind [Q], jumping only to
    labels placed in the appended code or listed in [open], and placing at
    least the labels [placed]. *)
Definition shape (Q : TACInstruction -> Prop) (open placed : list string)
           {A} (m : M A) : Prop :=
  forall self, exists code,
    instructions (snd (m self)) = instructions self ++ code /\
    Forall Q code /\
    (forall l, l ∈ jump_targets code -> l ∈ label_defs code \/ l ∈ open) /\
    (forall l, l ∈ placed -> l ∈ label_defs code).

End IRShape.

Module TranslationSpec.
Import IR CodeGen.

(** The name of the register numbered [n]. *)
Definition register_name (n : nat) : string := "R" +:+ pretty n.

(** [self] with another TAC list to translate. *)
Definition with_tac (tac : list TACInstruction) (self : CodeGenerator)
  : CodeGenerator :=
  {| tac_instructions := tac;
     assembly_code := assembly_code self;
     register_counter := register_counter self;
     var_to_register := var_to_register self |}.

(** [self'] is [self] after more lines were appended and more registers
    given out: no line and no register assignment of [self] was changed. *)
Record grows (self self' : CodeGenerator) : Prop := mkGrows {
  grows_assembly : assembly_code self `prefix_of` assembly_code self';
  grows_registers : var_to_register self ⊆ var_to_register self';
  grows_counter : register_counter self <= register_counter self'
}.

(** The registers in use are R0, R1, ... up to the counter, one variable
    each. *)
Definition registers_in_use (self : CodeGenerator) : Prop :=
  map snd (map_to_list (var_to_register self)) ≡ₚ
  map register_name (seq 0 (register_counter self)).

(** The header lines [generate] starts with. *)
Definition header : list string :=
  ["; Generated Assembly Code"; "; Simplified RISC-style instructions"; ""].

End TranslationSpec.

(* ===================================================================== *)
(** * Induction on the syntax *)
(* ===================================================================== *)

Module AstFacts.
Import Ast.

(** Induction on expressions, with the hypothesis on every argument of a
    call. *)
Lemma Expression_nested_ind (P : Expression -> Prop) :
  (forall op l r, P l -> P r -> P (BinaryOp op l r)) ->
  (forall op e, P e -> P (UnaryOp op e)) ->
  (forall name, P (Identifier name)) ->
  (forall v, P (IntLiteral v)) ->
  (forall v, P (FloatLiteral v)) ->
  (forall v, P (StringLiteral v)) ->
  (forall name args, Forall P args -> P (FunctionCall name args)) ->
  (forall target e, P e -> P (Assignment target e)) ->
  forall e, P e.
Proof.
  intros HBinary HUnary HIdent HInt HFloat HString HCall HAssign.
  fix IH 1. intros [op l r|op e|name|v|v|v|name args|target e].
  - apply HBinary; apply IH.
  - apply HUnary, IH.
  - apply HIdent.
  - apply HInt.
  - apply HFloat.
  - apply HString.
  - apply HCall. induction args as [|a args IHargs]; constructor.
    + apply IH.
    + exact IHargs.
  - apply HAssign, IH.
Qed.

(** Induction on statements, with the hypothesis on every statement of a
    block and on the optional parts.  A function declared in statement
    position is a leaf: no visitor enters it. *)
Lemma Statement_nested_ind (P : Statement -> Prop) :
  (forall decl, P (SVarDecl decl)) ->
  (forall rt name ps b, P (SFunctionDecl rt name ps b)) ->
  (forall l, Forall P l -> P (CompoundStmt l)) ->
  (forall e, P (ExpressionStmt e)) ->
  (forall e, P (ReturnStmt e)) ->
  (forall c t e, P t -> (forall s, e = Some s -> P s) -> P (IfStmt c t e)) ->
  (forall c b, P b -> P (WhileStmt c b)) ->
  (forall i c u b,
      (forall s, i = Some s -> P s) -> P b -> P (ForStmt i c u b)) ->
  forall s, P s.
Proof.
  intros HVar HFun HCompound HExpr HReturn HIf HWhile HFor.
  fix IH 1. intros [decl|rt name ps b|l|e|e|c t e|c b|i c u b].
  - apply HVar.
  - apply HFun.
  - apply HCompound. induction l as [|a l IHl]; constructor.
    + apply IH.
    + exact IHl.
  - apply HExpr.
  - apply HReturn.
  - apply HIf; [apply IH|]. destruct e as [s0|]; [|intros s [=]].
    pose proof (IH s0) as Hs0. by intros s [= <-].
  - apply HWhile, IH.
  - apply HFor; [|apply IH]. destruct i as [s0|]; [|intros s [=]].
    pose proof (IH s0) as Hs0. by intros s [= <-].
Qed.
End AstFacts.

(* ===================================================================== *)
(** * Properties of the scanner *)
(* ===================================================================== *)

Module LexerFacts.
Import Lexer LexerSpec.
Local Open Scope lex_scope.
#[local] Arguments dict_get : simpl never.

Lemma scanned_bind {A B} src (P : A -> Prop) (Q : B -> Prop) r k :
  scanned src P r -> (forall a, P a -> scanned src Q (k a)) ->
  scanned src Q (bind r k).
Proof. destruct r; cbn; auto. Qed.

Lemma scans_refl self : scans self self.
Proof. by split. Qed.

Lemma scans_trans a b c : scans a b -> scans b c -> scans a c.
Proof. intros [] []. split; [congruence|congruence|lia]. Qed.

Lemma current_char_lt self c :
  current_char self = Some c -> position self < length (source self).
Proof. unfold current_char. apply lookup_lt_Some. Qed.

Lemma current_char_In self c : current_char self = Some c -> In c (source self).
Proof.
  unfold current_char. intros H. apply list_elem_of_In.
  by eapply list_elem_of_lookup_2.
Qed.

Lemma advance_scans self : scans self (advance self).
Proof.
  unfold advance. destruct (source self !! position self) as [c|];
    [|apply scans_refl].
  destruct (Ascii.eqb c newline); split; cbn; try done; lia.
Qed.

Lemma advance_position self c :
  current_char self = Some c -> position (advance self) = position self + 1.
Proof.
  unfold current_char, advance. intros ->. by destruct (Ascii.eqb c newline).
Qed.

Lemma advance_remaining self c :
  current_char self = Some c -> S (remaining (advance self)) = remaining self.
Proof.
  intros H. pose proof (current_char_lt _ _ H).
  pose proof (advance_scans self) as [Hs _ _].
  unfold remaining. rewrite Hs, (advance_position _ _ H). lia.
Qed.

Lemma advance_remaining_le self : remaining (advance self) <= remaining self.
Proof.
  pose proof (advance_scans self) as [Hs _ Hp]. unfold remaining.
  rewrite Hs. lia.
Qed.

(** A step that consumes the current character and goes on. *)
Lemma scans_advance_then self c self' :
  current_char self = Some c -> scans (advance self) self' ->
  scans self self' /\ position self < position self'.
Proof.
  intros Hc Hs. split; [by eapply scans_trans; [apply advance_scans|]|].
  destruct Hs as [_ _ Hp]. rewrite (advance_position _ _ Hc) in Hp. lia.
Qed.

Ltac loop_start fuel self :=
  revert self; induction fuel as [|fuel IH]; intros self Hfuel; [lia|]; cbn.

Lemma skip_whitespace_scans fuel self :
  remaining self < fuel ->
  exists self', skip_whitespace fuel self = Ok self' /\ scans self self' /\
    (forall c, current_char self' = Some c -> is_blank c = false).
Proof.
  loop_start fuel self.
  destruct (current_char self) as [c|] eqn:Hc.
  - destruct (is_blank c) eqn:Hb.
    + destruct (IH (advance self)) as (self' & -> & Hs & Hb').
      { pose proof (advance_remaining _ _ Hc). lia. }
      exists self'. split; [done|].
      split; [eapply scans_trans; [apply advance_scans|done]|done].
    + exists self. split; [done|]. split; [apply scans_refl|].
      intros c' Hc'. congruence.
  - exists self. split; [done|]. split; [apply scans_refl|]. congruence.
Qed.

Lemma skip_line_scans fuel self :
  remaining self < fuel ->
  exists self', skip_line fuel self = Ok self' /\ scans self self' /\
    (forall c, current_char self = Some c -> c <> newline ->
               position self < position self').
Proof.
  loop_start fuel self.
  destruct (current_char self) as [c|] eqn:Hc;
    [|exists self; split; [done|split; [apply scans_refl|done]]].
  destruct (Ascii.eqb_spec c newline) as [->|Hne]; cbn.
  - exists self. split; [done|]. split; [apply scans_refl|].
    intros c [= <-] ?. done.
  - destruct (IH (advance self)) as (self' & -> & Hs & _).
    { pose proof (advance_remaining _ _ Hc). lia. }
    exists self'. split; [done|].
    destruct (scans_advance_then _ _ _ Hc Hs). auto.
Qed.

Lemma skip_block_scans fuel self :
  remaining self < fuel ->
  exists self', skip_block fuel self = Ok self' /\ scans self self'.
Proof.
  loop_start fuel self.
  destruct (current_char self) as [c|] eqn:Hc; [|eauto using scans_refl].
  destruct (_ && _).
  - eexists. split; [done|].
    eapply scans_trans; [apply advance_scans|apply advance_scans].
  - destruct (IH (advance self)) as (self' & -> & Hs).
    { pose proof (advance_remaining _ _ Hc). lia. }
    exists self'. split; [done|].
    eapply scans_trans; [apply advance_scans|done].
Qed.

Lemma char_is_Some c o : char_is c o = true -> o = Some c.
Proof.
  destruct o as [d|]; cbn; [|done].
  by destruct (Ascii.eqb_spec d c) as [->|].
Qed.

Lemma skip_comment_scans fuel self :
  remaining self < fuel ->
  current_char self = Some "/"%char ->
  exists self', skip_comment fuel self = Ok self' /\ scans self self' /\
    (char_is "/" (peek_char self) || char_is "*" (peek_char self) = true ->
     position self < position self').
Proof.
  intros Hfuel Hc. unfold skip_comment. rewrite Hc. cbn.
  destruct (char_is "/" (peek_char self)) eqn:H1; cbn.
  - destruct (skip_line_scans fuel self Hfuel) as (s1 & -> & Hs & Hp). cbn.
    eexists. split; [done|]. specialize (Hp _ Hc ltac:(done)).
    pose proof (advance_scans s1) as [? ? ?]. destruct Hs.
    split; [split; [congruence|congruence|lia]|]. intros _. lia.
  - destruct (char_is "*" (peek_char self)) eqn:H2; cbn.
    + destruct (skip_block_scans fuel (advance (advance self)))
        as (s1 & -> & Hs).
      { pose proof (advance_remaining_le (advance self)).
        pose proof (advance_remaining_le self). lia. }
      exists s1. split; [done|].
      assert (Hs1 : scans (advance self) s1).
      { eapply scans_trans; [apply advance_scans|done]. }
      destruct (scans_advance_then _ _ _ Hc Hs1). auto.
    + exists self. split; [done|]. split; [apply scans_refl|done].
Qed.

Lemma isdigit_not_dot c : isdigit c = true -> Ascii.eqb c "." = false.
Proof. destruct (Ascii.eqb_spec c "."); [by subst|done]. Qed.

Lemma read_number_loop_scanned fuel num_str is_float self :
  remaining self < fuel -> dot_seen self is_float ->
  scanned (source self)
    (fun r => scans self (snd r) /\
              (forall c, current_char self = Some c -> isdigit c = true ->
                         position self < position (snd r)))
    (read_number_loop fuel num_str is_float self).
Proof.
  revert num_str is_float self.
  induction fuel as [|fuel IH]; intros num_str is_float self Hfuel Hdot; [lia|].
  cbn. destruct (current_char self) as [c|] eqn:Hc;
    [|cbn; split; [apply scans_refl|done]].
  assert (Hrem : remaining (advance self) < fuel).
  { pose proof (advance_remaining _ _ Hc). lia. }
  pose proof (advance_scans self) as [Hsrc _ _].
  pose proof (advance_position _ _ Hc) as Hpos.
  assert (Hnext : forall s b, dot_seen (advance self) b ->
    scanned (source self)
      (fun r => scans self (snd r) /\
                (forall c0, Some c = Some c0 -> isdigit c0 = true ->
                            position self < position (snd r)))
      (read_number_loop fuel s b (advance self))).
  { intros s b Hb. specialize (IH s b _ Hrem Hb). rewrite Hsrc in IH.
    destruct (read_number_loop fuel s b (advance self)); cbn in *; try done.
    destruct IH as [Hs _]. destruct (scans_advance_then _ _ _ Hc Hs). auto. }
  destruct (Ascii.eqb_spec c ".") as [->|Hdot'].
  - rewrite orb_true_r. destruct is_float.
    + cbn. left. split; [done|].
      destruct (Hdot eq_refl) as (q & Hq & Hqd & Hbetween).
      exists q, (position self). eauto.
    + apply Hnext. intros _. exists (position self).
      rewrite Hsrc, Hpos. split; [lia|]. split; [done|]. intros k ?. lia.
  - rewrite orb_false_r. destruct (isdigit c) eqn:Hd.
    + apply Hnext. intros Hf. destruct (Hdot Hf) as (q & Hq & Hqd & Hbetween).
      exists q. rewrite Hsrc, Hpos. split; [lia|]. split; [done|].
      intros k Hk. destruct (decide (k = position self)) as [->|].
      * by exists c.
      * apply Hbetween. lia.
    + cbn. split; [apply scans_refl|]. intros ? [= <-]. congruence.
Qed.

Lemma read_number_scanned fuel self c :
  remaining self < fuel ->
  current_char self = Some c -> isdigit c = true ->
  scanned (source self)
    (fun r => scans self (snd r) /\ position self < position (snd r) /\
              not_EOF (fst r))
    (read_number fuel self).
Proof.
  intros Hfuel Hc Hd. unfold read_number.
  eapply scanned_bind; [by apply read_number_loop_scanned|].
  intros [[num_str is_float] s1] [Hs Hp]. cbn in *.
  split; [done|]. split; [eauto|]. unfold not_EOF. cbn. by destruct is_float.
Qed.

Lemma KEYWORDS_not_EOF identifier :
  default IDENTIFIER (dict_get KEYWORDS identifier) <> EOF.
Proof.
  unfold dict_get, KEYWORDS. cbn [List.find fst].
  repeat (destruct (String.eqb _ identifier); [by cbn|]). by cbn.
Qed.

Lemma two_char_tokens_not_EOF s t :
  dict_get two_char_tokens s = Some t -> t <> EOF.
Proof.
  unfold dict_get, two_char_tokens. cbn [List.find fst].
  repeat (destruct (String.eqb _ s); [by intros [= <-]|]). by cbn.
Qed.

Lemma single_char_tokens_not_EOF s t :
  dict_get single_char_tokens s = Some t -> t <> EOF.
Proof.
  unfold dict_get, single_char_tokens. cbn [List.find fst].
  repeat (destruct (String.eqb _ s); [by intros [= <-]|]). by cbn.
Qed.

Lemma read_identifier_loop_scanned fuel identifier self :
  remaining self < fuel ->
  exists r, read_identifier_loop fuel identifier self = Ok r /\
    scans self (snd r) /\
    (forall c, current_char self = Some c ->
               isalnum c || Ascii.eqb c "_" = true ->
               position self < position (snd r)).
Proof.
  revert identifier self.
  induction fuel as [|fuel IH]; intros identifier self Hfuel; [lia|].
  cbn. destruct (current_char self) as [c|] eqn:Hc;
    [|eexists; split; [done|]; split; [apply scans_refl|done]].
  destruct (isalnum c || Ascii.eqb c "_") eqn:Hd.
  - destruct (IH (append_char identifier c) (advance self))
      as (r & -> & Hs & _).
    { pose proof (advance_remaining _ _ Hc). lia. }
    exists r. split; [done|].
    destruct (scans_advance_then _ _ _ Hc Hs). auto.
  - eexists. split; [done|]. split; [apply scans_refl|].
    intros ? [= <-]. congruence.
Qed.

Lemma isalpha_isalnum c :
  isalpha c || Ascii.eqb c "_" = true -> isalnum c || Ascii.eqb c "_" = true.
Proof.
  unfold isalnum. intros H. apply orb_true_iff in H as [H|H]; rewrite H.
  - done.
  - by rewrite orb_true_r.
Qed.

Lemma read_identifier_scanned fuel self c :
  remaining self < fuel ->
  current_char self = Some c -> isalpha c || Ascii.eqb c "_" = true ->
  scanned (source self)
    (fun r => scans self (snd r) /\ position self < position (snd r) /\
              not_EOF (fst r))
    (read_identifier fuel self).
Proof.
  intros Hfuel Hc Hd. unfold read_identifier.
  destruct (read_identifier_loop_scanned fuel "" self Hfuel)
    as ([identifier s1] & -> & Hs & Hp). cbn in *.
  split; [done|]. split; [eauto using isalpha_isalnum|].
  apply KEYWORDS_not_EOF.
Qed.

Lemma read_string_loop_scanned fuel string_ self :
  remaining self < fuel ->
  exists r, read_string_loop fuel string_ self = Ok r /\ scans self (snd r).
Proof.
  revert string_ self.
  induction fuel as [|fuel IH]; intros string_ self Hfuel; [lia|].
  cbn. destruct (current_char self) as [c|] eqn:Hc;
    [|eexists; split; [done|apply scans_refl]].
  pose proof (advance_remaining _ _ Hc) as Hrem.
  destruct (negb (Ascii.eqb c dquote));
    [|eexists; split; [done|apply scans_refl]].
  destruct (_ && _).
  - destruct (IH (append_char string_ dquote) (advance (advance self)))
      as (r & -> & Hs).
    { pose proof (advance_remaining_le (advance self)). lia. }
    exists r. split; [done|].
    eapply scans_trans; [apply advance_scans|].
    eapply scans_trans; [apply advance_scans|done].
  - destruct (IH (append_char string_ c) (advance self)) as (r & -> & Hs);
      [lia|].
    exists r. split; [done|]. eapply scans_trans; [apply advance_scans|done].
Qed.

Lemma read_string_scanned fuel self :
  remaining self < fuel ->
  current_char self = Some dquote ->
  scanned (source self)
    (fun r => scans self (snd r) /\ position self < position (snd r) /\
              not_EOF (fst r))
    (read_string fuel self).
Proof.
  intros Hfuel Hc. unfold read_string.
  destruct (read_string_loop_scanned fuel "" (advance self))
    as ([string_ s1] & -> & Hs).
  { pose proof (advance_remaining_le self). lia. }
  cbn in *. destruct (scans_advance_then _ _ _ Hc Hs) as [Hs' Hp].
  destruct (current_char s1) eqn:Hc1; cbn.
  - split; [eapply scans_trans; [done|apply advance_scans]|].
    split; [|done]. pose proof (advance_scans s1) as [_ _ ?]. lia.
  - right. left. split; [done|]. by apply current_char_In.
Qed.

Lemma extends_refl self : extends self self.
Proof. split; [done| |done]. exists []. by rewrite app_nil_r. Qed.

Lemma extends_trans a b c : extends a b -> extends b c -> extends a c.
Proof.
  intros [H1 (n1 & H2 & H3) H4] [K1 (n2 & K2 & K3) K4].
  split; [congruence| |lia].
  exists (n1 ++ n2). split; [by rewrite K2, H2, app_assoc|by apply Forall_app].
Qed.

Lemma scans_extends a b : scans a b -> extends a b.
Proof.
  intros [H1 H2 H3]. split; [done| |done].
  exists []. by rewrite app_nil_r.
Qed.

Lemma append_token_extends t self :
  not_EOF t -> extends self (append_token t self).
Proof.
  intros Ht. split; cbn; [done| |done]. exists [t]. split; [done|].
  by constructor.
Qed.

(** What one turn of the loop of [tokenize] does. *)
Definition turn (self : Lexer) (next : Lexer + Lexer) : Prop :=
  match next with
  | inl self' => extends self self' /\ position self < position self'
  | inr self' => extends self self'
  end.

Lemma token_read_turn self s0 (r : Token * Lexer) :
  scans self s0 ->
  scans s0 (snd r) /\ position s0 < position (snd r) /\ not_EOF (fst r) ->
  turn self (inl (append_token (fst r) (snd r))).
Proof.
  intros Hs0 (Hs & Hp & Ht). cbn. split.
  - eapply extends_trans; [apply scans_extends, (scans_trans _ _ _ Hs0 Hs)|].
    by apply append_token_extends.
  - cbn. destruct Hs0. lia.
Qed.

Lemma operator_turn self s0 t s1 :
  scans self s0 -> not_EOF t -> scans (append_token t s0) s1 ->
  position s0 < position s1 -> turn self (inl s1).
Proof.
  intros Hs0 Ht Hs1 Hp. split; [|destruct Hs0; lia].
  eapply extends_trans; [by apply scans_extends|].
  eapply extends_trans; [by apply append_token_extends|].
  by apply scans_extends.
Qed.

Lemma tokenize_step_scanned fuel self :
  remaining self < fuel ->
  scanned (source self) (turn self) (tokenize_step fuel self).
Proof.
  intros Hfuel. unfold tokenize_step.
  destruct (skip_whitespace_scans fuel self Hfuel) as (s0 & -> & Hs0 & Hb).
  cbn.
  assert (Hsrc : source s0 = source self) by apply Hs0.
  assert (Hfuel0 : remaining s0 < fuel).
  { destruct Hs0. unfold remaining in *. rewrite Hsrc. lia. }
  rewrite <- Hsrc.
  destruct (current_char s0) as [char|] eqn:Hc;
    [|by apply scans_extends].
  destruct (Ascii.eqb char "/" && _) eqn:Hcomment.
  { apply andb_true_iff in Hcomment as [Hslash Hpk].
    apply Ascii.eqb_eq in Hslash as ->.
    destruct (skip_comment_scans fuel s0 Hfuel0 Hc) as (s1 & -> & Hs & Hp).
    cbn. split.
    - apply scans_extends. by eapply scans_trans.
    - specialize (Hp Hpk). destruct Hs0. lia. }
  destruct (isdigit char) eqn:Hd.
  { eapply scanned_bind; [by eapply read_number_scanned|].
    intros r Hr. by eapply token_read_turn. }
  destruct (isalpha char || Ascii.eqb char "_") eqn:Ha.
  { eapply scanned_bind; [by eapply read_identifier_scanned|].
    intros r Hr. by eapply token_read_turn. }
  destruct (Ascii.eqb_spec char dquote) as [->|Hq].
  { eapply scanned_bind; [by eapply read_string_scanned|].
    intros r Hr. by eapply token_read_turn. }
  cbv beta iota zeta.
  destruct (dict_get two_char_tokens _) as [t2|] eqn:H2.
  { apply two_char_tokens_not_EOF in H2.
    eapply (operator_turn _ s0 (mkToken t2 _ _ _)); [done|exact H2| |].
    - eapply scans_trans; apply advance_scans.
    - pose proof (advance_scans (advance (append_token
          {| tok_type := t2;
             tok_value := char_str char +:+
               match peek_char s0 with Some n => char_str n | None => "" end;
             tok_line := line s0; tok_column := column s0 |} s0))) as [_ _ Hp].
      rewrite (advance_position _ char) in Hp; [|done]. cbn in Hp. lia. }
  destruct (dict_get single_char_tokens _) as [t1|] eqn:H1.
  { apply single_char_tokens_not_EOF in H1.
    eapply (operator_turn _ s0 (mkToken t1 _ _ _)); [done|exact H1| |].
    - apply advance_scans.
    - rewrite (advance_position _ char); [|done]. cbn. lia. }
  cbn. right. right. exists char. split; [done|].
  split; [by apply current_char_In|].
  apply orb_false_elim in Ha as [Ha1 Ha2].
  repeat split; try done.
  - by apply Hb.
  - by destruct (Ascii.eqb_spec char "_").
Qed.

Lemma tokenize_loop_scanned fuel budget self :
  remaining self < fuel -> length (source self) < budget ->
  scanned (source self) (extends self) (tokenize_loop fuel budget self).
Proof.
  revert self. induction fuel as [|fuel IH]; intros self Hfuel Hbudget; [lia|].
  cbn. destruct (current_char self) as [c|] eqn:Hc; [|apply extends_refl].
  eapply scanned_bind.
  { apply tokenize_step_scanned. unfold remaining. lia. }
  intros [s1|s1]; cbn; [|done]. intros [He Hp].
  pose proof (extends_source _ _ He) as Hsrc.
  specialize (IH s1). rewrite Hsrc in IH.
  assert (Hrem : remaining s1 < fuel).
  { unfold remaining in *. rewrite Hsrc. pose proof (current_char_lt _ _ Hc). lia. }
  specialize (IH Hrem Hbudget).
  destruct (tokenize_loop fuel budget s1); cbn in *; try done.
  by eapply extends_trans.
Qed.

Example tokenize_declaration :
  tokenize "int x = 5;" =
  Ok [mkToken INT "int" 1 1; mkToken IDENTIFIER "x" 1 5; mkToken ASSIGN "=" 1 7;
      mkToken INTEGER_LITERAL "5" 1 9; mkToken SEMICOLON ";" 1 10;
      mkToken EOF "" 1 11].
Proof. vm_compute. reflexivity. Qed.

Example tokenize_second_dot :
  tokenize "x = 1.2.3;" = LexicalError 1 8 "Invalid number format".
Proof. vm_compute. reflexivity. Qed.

Example tokenize_unterminated_string :
  tokenize ("s = " +:+ String dquote "abc") =
  LexicalError 1 9 "Unterminated string literal".
Proof. vm_compute. reflexivity. Qed.

Example tokenize_unexpected_character :
  tokenize "a & b" = LexicalError 1 3 "Unexpected character: '&'".
Proof. vm_compute. reflexivity. Qed.

Example tokenize_open_block_comment :
  tokenize "x /* no end" = Ok [mkToken IDENTIFIER "x" 1 1; mkToken EOF "" 1 12].
Proof. vm_compute. reflexivity. Qed.

End LexerFacts.

(* ===================================================================== *)
(** * Properties of the parser *)
(* ===================================================================== *)

Module ParserFacts.
Import Lexer Ast Parser Samples.
Local Open Scope parse_scope.

Example parse_assignment :
  fst <$> (match parse_text "x = y = 5" with Ok r => Some r | _ => None end) =
  Some (Assignment "x" (Assignment "y" (IntLiteral 5))).
Proof. vm_compute. reflexivity. Qed.

Example parse_parenthesized_target :
  fst <$> (match parse_text "(x) = 1" with Ok r => Some r | _ => None end) =
  Some (Assignment "x" (IntLiteral 1)).
Proof. vm_compute. reflexivity. Qed.

Example parse_literal_target :
  parse_text "1 = 5" =
  Raise (SyntaxError "Parse error at line 1, column 3: Invalid assignment target").
Proof. vm_compute. reflexivity. Qed.

Example parse_call_target :
  parse_text "f() = 3" =
  Raise (SyntaxError "Parse error at line 1, column 5: Invalid assignment target").
Proof. vm_compute. reflexivity. Qed.

Example parse_sum_target :
  parse_text "x + 1 = 3" =
  Raise (SyntaxError "Parse error at line 1, column 7: Invalid assignment target").
Proof. vm_compute. reflexivity. Qed.

Example parse_call_with_quoted_literal :
  fst <$> (match parse_text push_call_text with Ok r => Some r | _ => None end) =
  Some (FunctionCall "f" [StringLiteral push_literal]).
Proof. vm_compute. reflexivity. Qed.

(** Claim C9.  When [parse_expression] has read its left operand with
    [parse_logical_or] and the current token is [=], then: if the operand
    is an [Identifier] node, the parser skips the [=], parses the value with
    [parse_expression] and, when that succeeds, returns the [Assignment] of
    the value to the identifier; if the operand is any other node, it raises
    the parse error, located at the [=], whose message is
    Invalid assignment target. *)
Theorem assignment_target_rule
        (py_int : string -> option Z) (py_float : string -> option string)
        (fuel : nat) (self self1 : Parser.Parser) (expr : Expression)
        (t : Token) :
  parse_logical_or py_int py_float fuel
    (parse_expression py_int py_float fuel) self = Ok (expr, self1) ->
  current_token self1 = Some t ->
  tok_type t = ASSIGN ->
  parse_expression py_int py_float (S fuel) self =
    match expr with
    | Identifier target =>
        r <- parse_expression py_int py_float fuel (advance self1) ;;
        Ok (Assignment target (fst r), snd r)
    | _ =>
        Raise (SyntaxError
                 ("Parse error at line " +:+ pretty (tok_line t) +:+
                  ", column " +:+ pretty (tok_column t) +:+
                  ": Invalid assignment target"))
    end.
Proof.
  intros Hor Hcur Hassign.
  cbn [parse_expression]. unfold parse_expression_body.
  rewrite Hor. cbn [bind]. unfold current_type. rewrite Hcur. cbn [bind].
  rewrite Hassign. change (is_type ASSIGN ASSIGN) with true. cbv iota.
  unfold error, error_text. rewrite Hcur.
  by destruct expr.
Qed.

Lemma assignment_target_rule_witness :
  parse_logical_or int_of_digits Some 7
    (parse_expression int_of_digits Some 7) (Parser.init (scan "x = 5")) =
    Ok (Identifier "x", after_x) /\
  current_token after_x = Some assign_token /\
  tok_type assign_token = ASSIGN /\
  parse_expression int_of_digits Some 8 (Parser.init (scan "x = 5")) =
    (r <- parse_expression int_of_digits Some 7 (advance after_x) ;;
     Ok (Assignment "x" (fst r), snd r)).
Proof.
  split; [vm_compute; reflexivity|].
  split; [reflexivity|]. split; [reflexivity|].
  apply (assignment_target_rule int_of_digits Some 7
           (Parser.init (scan "x = 5")) after_x (Identifier "x") assign_token).
  - vm_compute. reflexivity.
  - reflexivity.
  - reflexivity.
Defined.
End ParserFacts.

(* ===================================================================== *)
(** * Properties of the semantic analyzer *)
(* ===================================================================== *)

Module SemanticFacts.
Import Ast Semantic SemanticSpec Samples AstFacts.
Local Open Scope sem_scope.

Lemma bind_return {A B} (m : M A) (k : A -> M B) self a :
  fst (m self) = Return a -> bind m k self = k a (snd (m self)).
Proof. unfold bind. destruct (m self) as [[]]; cbn; congruence. Qed.

Lemma returns_ret {A} (a : A) P : returns P (ret a) P.
Proof. intros self H. by exists a. Qed.

Lemma returns_bind {A B} P Q R (m : M A) (k : A -> M B) :
  returns P m Q -> (forall a, returns Q (k a) R) -> returns P (bind m k) R.
Proof.
  intros Hm Hk self HP. destruct (Hm self HP) as (a & Ha & HQ).
  rewrite (bind_return _ _ _ _ Ha). by apply Hk.
Qed.

Lemma returns_weaken {A} (P P' Q Q' : SemanticAnalyzer -> Prop) (m : M A) :
  (forall s, P' s -> P s) -> (forall s, Q s -> Q' s) ->
  returns P m Q -> returns P' m Q'.
Proof.
  intros HP HQ Hm self H. destruct (Hm self (HP _ H)) as (a & Ha & Hq).
  exists a. auto.
Qed.

Lemma returns_for_each {A} P (body : A -> M unit) l :
  Forall (fun x => returns P (body x) P) l -> returns P (for_each body l) P.
Proof.
  induction 1 as [|x l Hx Hl IH]; [apply returns_ret|].
  cbn [for_each]. eapply returns_bind; [exact Hx | done].
Qed.

Lemma returns_get {A} (f : SemanticAnalyzer -> A) P : returns P (get f) P.
Proof. intros self H. by exists (f self). Qed.

Lemma returns_lookup name P : returns P (lookup name) P.
Proof. apply returns_get. Qed.

Lemma prefix_app p s : String.prefix p s = true -> exists r, s = p +:+ r.
Proof.
  revert s. induction p as [|c p IH]; intros s H; [by exists s|].
  destruct s as [|d s]; [discriminate|]. cbn in H.
  destruct (ascii_dec c d) as [->|]; [|discriminate].
  destruct (IH _ H) as [r ->]. by exists r.
Qed.

Lemma function_type_return_type t :
  String.prefix "function:" t = true ->
  exists r, t = "function:" +:+ r /\ split1 colon t = ("function", Some r).
Proof. intros H. destruct (prefix_app _ _ H) as [r ->]. by exists r. Qed.

Lemma code_scope_label_block : code_scope_label "block".
Proof. left. right. right. by left. Qed.

Lemma code_scope_label_for : code_scope_label "for".
Proof. left. right. by left. Qed.

Lemma code_scope_label_function name :
  code_scope_label ("function:" +:+ name).
Proof. left. do 3 right. by exists name. Qed.

Lemma removelast_take {A} (l : list A) : removelast l = take (length l - 1) l.
Proof.
  destruct l as [|x l _] using rev_ind; [done|].
  rewrite removelast_last, length_app. cbn.
  by rewrite take_app_length' by lia.
Qed.

Lemma last_is_Some {A} (l : list A) : 1 <= length l -> is_Some (last l).
Proof.
  intros H. destruct l as [|x l] using rev_ind; [cbn in H; lia|].
  rewrite last_snoc. by eexists.
Qed.

(** ** Expressions: they read the table and add errors, nothing else *)

Ltac walk_with error_rule :=
  first
    [ apply returns_ret
    | apply error_rule
    | apply returns_lookup
    | apply returns_get
    | eapply returns_bind; [ | intros ? ] ].

Lemma visit_expression_returns P e :
  (forall message, returns P (error message) P) ->
  returns P (visit_expression e) P.
Proof.
  intros Herror.
  induction e as [op l r IHl IHr|op e IH|name|v|v|v|name args IH|target e IH]
    using Expression_nested_ind; cbn [visit_expression].
  - walk_with Herror; [exact IHl|]. walk_with Herror; [exact IHr|].
    repeat case_match; walk_with Herror.
  - walk_with Herror; [exact IH|]. repeat case_match; walk_with Herror.
  - walk_with Herror; [walk_with Herror|].
    destruct a; [walk_with Herror|]. walk_with Herror; walk_with Herror.
  - walk_with Herror.
  - walk_with Herror.
  - walk_with Herror.
  - walk_with Herror; [walk_with Herror|].
    destruct a as [symbol|]; [|walk_with Herror; walk_with Herror].
    destruct (String.prefix "function:" (sym_type symbol)) eqn:Hp; cbn [negb].
    + destruct (function_type_return_type _ Hp) as (r & _ & ->). cbn [snd].
      walk_with Herror; [|walk_with Herror]. apply returns_for_each.
      eapply Forall_impl; [exact IH|]. intros a Ha. cbn beta.
      walk_with Herror; [exact Ha|walk_with Herror].
    + walk_with Herror; walk_with Herror.
  - walk_with Herror; [walk_with Herror|].
    destruct a as [symbol|]; [|walk_with Herror; walk_with Herror].
    walk_with Herror; [exact IH|]. walk_with Herror; [|walk_with Herror].
    case_match; walk_with Herror.
Qed.

Section Walk.
Variable e0 : list string.

Lemma Steady_error message self :
  Steady e0 self -> Steady e0 (snd (error message self)).
Proof. intros [? ? ?]. split; cbn; try done. by apply prefix_app_r. Qed.

Lemma returns_error message below n :
  returns (Inv e0 below n) (error message) (Inv e0 below n).
Proof.
  intros self [? ? ? ?]. exists tt. split; [done|].
  split; try done. by apply Steady_error.
Qed.

Lemma returns_error_global message G :
  returns (Global e0 G) (error message) (Global e0 G).
Proof.
  intros self [? ?]. exists tt. split; [done|].
  split; try done. by apply Steady_error.
Qed.

Lemma returns_set_return_type t below n :
  returns (Inv e0 below n) (set_current_function_return_type t)
          (Inv e0 below n).
Proof. intros self [[? ? ?] ? ? ?]. exists tt. by repeat split. Qed.

Lemma returns_set_return_type_restored t stack :
  returns (Restored e0 stack) (set_current_function_return_type t)
          (Restored e0 stack).
Proof. intros self [[? ? ?] ?]. exists tt. by repeat split. Qed.

Lemma returns_try_declare name symbol_type below n :
  returns (Inv e0 below n) (try_except (declare name symbol_type) error)
          (Inv e0 below n).
Proof.
  intros self [[H0 H1 H2] H3 H4 H5].
  unfold try_except, declare, SymbolTable_.declare.
  destruct (last_is_Some (scopes (symbol_table self))) as [top ->]; [lia|].
  destruct (top !! name).
  - exists tt. split; [done|]. repeat split; cbn; try done.
    by apply prefix_app_r.
  - exists tt. split; [done|]. repeat split; cbn; try done.
    + apply Forall_app. split; [done|]. by constructor.
    + by rewrite length_insert.
    + by rewrite take_insert_ge by lia.
Qed.

Lemma returns_try_declare_global name symbol_type G :
  returns (Global e0 G) (try_except (declare name symbol_type) error)
          (Global e0 ({[name]} ∪ G)).
Proof.
  intros self [[H0 H1 H2] (g & Hg & Hdom)].
  unfold try_except, declare, SymbolTable_.declare. rewrite Hg. cbn [last].
  destruct (g !! name) as [sym|] eqn:Hlook.
  - exists tt. split; [done|]. split; [split; cbn; try done; by apply prefix_app_r|].
    exists g. cbn. split; [done|].
    assert (Hin : name ∈ dom g) by (apply elem_of_dom; eauto).
    rewrite <- Hdom. symmetry. apply subseteq_union_1_L.
    by apply singleton_subseteq_l.
  - exists tt. split; [done|]. split.
    + split; cbn; try done. apply Forall_app. split; [done|]. by constructor.
    + eexists. cbn. split; [done|]. rewrite dom_insert_L. by rewrite Hdom.
Qed.

Ltac walk :=
  first
    [ apply returns_ret
    | apply returns_error
    | apply returns_lookup
    | apply returns_get
    | apply returns_try_declare
    | apply returns_set_return_type
    | apply visit_expression_returns; intros; apply returns_error
    | eapply returns_bind; [ | intros ? ] ].

Lemma visit_var_decl_returns decl below n :
  returns (Inv e0 below n) (visit_var_decl decl) (Inv e0 below n).
Proof.
  unfold visit_var_decl. walk; [walk|].
  destruct (initializer decl); [|walk].
  walk; [walk|]. case_match; walk.
Qed.

Lemma visit_return_stmt_returns e below n :
  returns (Inv e0 below n) (visit_return_stmt e) (Inv e0 below n).
Proof.
  unfold visit_return_stmt. walk; [walk|].
  destruct a; [|walk]. destruct e.
  - walk; [walk|]. case_match; walk.
  - case_match; walk.
Qed.

(** Leaving a scope entered at depth [n] pops its frame: the stack is the
    one found on entry. *)
Lemma returns_exit_scope stack n :
  length stack = n -> 1 <= n ->
  returns (Inv e0 stack (n + 1)) exit_scope (Restored e0 stack).
Proof.
  intros Hlen Hn self [[H0 H1 H2] H3 H4 H5]. exists tt. split; [done|].
  cbn. unfold SymbolTable_.exit_scope.
  destruct (Nat.ltb_spec 1 (length (scopes (symbol_table self)))); [|lia].
  repeat split; cbn; try done.
  - by right.
  - rewrite removelast_take, H3. by replace (n + 1 - 1) with n in * by lia.
Qed.

(** A scope entered at depth [n] and left by the rest [k] of the method:
    the stack is unchanged, whatever was declared inside. *)
Lemma returns_enter_scope {A} label below n (k : M A) :
  code_scope_label label -> 1 <= n ->
  (forall stack, length stack = n ->
     returns (Inv e0 stack (n + 1)) k (Restored e0 stack)) ->
  forall stack,
    returns (fun s => Inv e0 below n s /\ scopes (symbol_table s) = stack)
            (enter_scope label ;; k)
            (fun s => Inv e0 below n s /\ scopes (symbol_table s) = stack).
Proof.
  intros Hlabel Hn Hk stack self [[[H0 H1 H2] H3 H4 H5] Hstack].
  rewrite (bind_return (enter_scope label) _ self tt eq_refl).
  destruct (Hk stack ltac:(congruence) (snd (enter_scope label self)))
    as (a & Ha & [[K0 K1 K2] K3]).
  { repeat split; cbn; try done.
    - rewrite length_app. cbn. lia.
    - lia.
    - rewrite <- Hstack. apply take_app_length'. lia. }
  exists a. split; [done|]. split; [|done].
  repeat split; try done; rewrite K3; congruence.
Qed.

Lemma returns_scoped {A} label below n (k : M A) :
  code_scope_label label -> 1 <= n ->
  (forall stack, length stack = n ->
     returns (Inv e0 stack (n + 1)) k (Restored e0 stack)) ->
  returns (Inv e0 below n) (enter_scope label ;; k) (Inv e0 below n).
Proof.
  intros Hlabel Hn Hk self HI.
  destruct (returns_enter_scope label below n k Hlabel Hn Hk
              (scopes (symbol_table self)) self (conj HI eq_refl))
    as (a & Ha & HI' & _).
  by exists a.
Qed.

Lemma visit_statement_returns s :
  forall below n, 1 <= n ->
    returns (Inv e0 below n) (visit_statement s) (Inv e0 below n).
Proof.
  induction s as [decl|rt name ps b|l IH|e|e|c t e IHt IHe|c b IH|i c u b IHi IHb]
    using Statement_nested_ind; intros below n Hn; cbn [visit_statement].
  - apply visit_var_decl_returns.
  - walk.
  - apply returns_scoped; [apply code_scope_label_block|done|].
    intros stack Hstack.
    walk; [|by apply returns_exit_scope].
    apply returns_for_each. eapply Forall_impl; [exact IH|].
    intros s Hs. apply Hs. lia.
  - destruct e; [|walk]. walk; [walk|walk].
  - apply visit_return_stmt_returns.
  - walk; [walk|].
    walk; [by apply IHt|]. destruct e; [by apply IHe|walk].
  - walk; [walk|]. by apply IH.
  - apply returns_scoped; [apply code_scope_label_for|done|].
    intros stack Hstack.
    walk.
    { destruct i as [s0|]; [|walk].
      destruct s0;
        first [ apply (IHi _ eq_refl stack (n + 1)); lia
              | apply visit_var_decl_returns ]. }
    walk; [destruct c; [walk; [walk|walk]|walk]|].
    walk; [destruct u; [walk; [walk|walk]|walk]|].
    walk; [apply IHb; lia|]. by apply returns_exit_scope.
Qed.

(** The part of [visit_function_decl] that deals with the body. *)
Lemma function_body_returns rt ps statements stack n :
  length stack = n -> 1 <= n ->
  returns (Inv e0 stack (n + 1))
    (set_current_function_return_type (Some rt) ;;
     for_each
       (fun param =>
          try_except (declare (param_name param) (param_type param)) error)
       ps ;;
     visit_compound_stmt statements ;;
     exit_scope ;;
     set_current_function_return_type None)
    (Restored e0 stack).
Proof.
  intros Hstack Hn.
  walk; [walk|].
  walk; [apply returns_for_each, Forall_forall; intros; walk|].
  walk.
  { apply returns_for_each, Forall_forall. intros s _.
    apply visit_statement_returns. lia. }
  walk; [by apply returns_exit_scope|].
  apply returns_set_return_type_restored.
Qed.

Lemma Global_Inv G self :
  Global e0 G self -> Inv e0 [] 1 self.
Proof. intros [? (g & Hg & _)]. split; try done; by rewrite Hg. Qed.

Lemma visit_declaration_returns decl G :
  returns (Global e0 G) (visit_declaration decl)
          (Global e0 ({[declared_name decl]} ∪ G)).
Proof.
  destruct decl as [f|v]; cbn [visit_declaration declared_name].
  - unfold visit_function_decl.
    eapply returns_bind; [apply returns_try_declare_global|]. intros _.
    destruct (body f) as [statements|]; [|apply returns_ret].
    intros self HG. pose proof HG as [_ (g & Hg & Hdom)].
    destruct (returns_enter_scope ("function:" +:+ fun_name f) [] 1 _
                (code_scope_label_function _) ltac:(lia)
                (fun stack Hstack =>
                   function_body_returns (return_type f) (parameters f)
                     statements stack 1 Hstack ltac:(lia))
                [g] self (conj (Global_Inv _ _ HG) Hg))
      as (a & Ha & [HI _] & Hs).
    exists a. split; [done|]. split; [apply HI|]. by exists g.
  - unfold visit_var_decl.
    eapply returns_bind; [apply returns_try_declare_global|]. intros _.
    destruct (initializer v); [|apply returns_ret].
    eapply returns_bind.
    + apply visit_expression_returns. intros message.
      apply returns_error_global.
    + intros t. case_match; [apply returns_ret|apply returns_error_global].
Qed.

Lemma visit_declarations_returns ds :
  forall G,
    returns (Global e0 G) (for_each visit_declaration ds)
            (Global e0 (list_to_set (map declared_name ds) ∪ G)).
Proof.
  induction ds as [|d ds IH]; intros G; cbn [for_each map list_to_set].
  - eapply returns_weaken; [| |apply returns_ret]; [done|].
    intros s [? (g & ? & Hdom)]. split; [done|]. exists g. split; [done|].
    by rewrite union_empty_l_L.
  - eapply returns_bind; [apply visit_declaration_returns|]. intros _.
    eapply returns_weaken; [| |apply IH]; [done|].
    intros s [? (g & ? & Hdom)]. split; [done|]. exists g. split; [done|].
    rewrite Hdom. apply set_eq. intros x. rewrite !elem_of_union. tauto.
Qed.

End Walk.

Lemma Global_init : Global [] ∅ init.
Proof.
  split.
  - split; cbn; try done. left. by left.
  - exists ∅. by rewrite dom_empty_L.
Qed.

Lemma visit_program_returns ast :
  exists self',
    visit_program ast init = (Return tt, self') /\
    Global [] (list_to_set (map declared_name (declarations ast))) self'.
Proof.
  destruct (visit_declarations_returns [] (declarations ast) ∅ init Global_init)
    as ([] & Hr & HG).
  fold (visit_program ast) in *.
  exists (snd (visit_program ast init)). split.
  - by destruct (visit_program ast init) as [r s]; cbn in *; subst.
  - by rewrite union_empty_r_L in HG.
Qed.

Lemma analyze_run ast :
  fst (visit_program ast init) = Return tt /\
  analyze ast init =
    (match errors (snd (visit_program ast init)) with
     | [] => Return tt
     | _ :: _ => Raise (SemanticError "Semantic analysis failed")
     end,
     snd (visit_program ast init)).
Proof.
  destruct (visit_program_returns ast) as (self' & Hrun & _).
  rewrite Hrun. split; [done|]. unfold analyze.
  unfold bind at 1. unfold try_except. rewrite Hrun. unfold bind, get.
  cbn [snd]. by destruct (errors self').
Qed.

Lemma Global_restart e0 G self : Global e0 G self -> Global (errors self) G self.
Proof. intros [[? ? ?] ?]. by repeat split. Qed.

Lemma walk_for_each_app {A} (body : A -> M unit) l1 l2 self :
  for_each body (l1 ++ l2) self = (for_each body l1 ;; for_each body l2) self.
Proof.
  revert self. induction l1 as [|x l1 IH]; intros self; [done|].
  cbn [for_each app]. unfold bind.
  destruct (body x self) as [[[]|e] self1]; [|done]. by rewrite IH.
Qed.

(** Errors are only added: those found in the first declarations of a
    program are still there, in front, after the whole walk. *)
Lemma errors_are_kept (ds1 ds2 : list Declaration) :
  errors (snd (visit_program {| declarations := ds1 |} init))
    `prefix_of`
  errors (snd (visit_program {| declarations := ds1 ++ ds2 |} init)).
Proof.
  destruct (visit_program_returns {| declarations := ds1 |})
    as (self1 & Hrun & HG).
  unfold visit_program in *. cbn [declarations] in *.
  rewrite walk_for_each_app, Hrun.
  rewrite (bind_return _ _ init tt) by by rewrite Hrun.
  rewrite Hrun. cbn [snd].
  destruct (visit_declarations_returns _ ds2 _ self1 (Global_restart _ _ _ HG))
    as (_ & _ & [[H _ _] _]).
  exact H.
Qed.

Example two_errors_collected :
  errors (snd (analyze two_errors init)) =
    ["Variable 'x' already declared in this scope";
     "Undefined variable: 'y'"] /\
  fst (analyze two_errors init) =
    Raise (SemanticError "Semantic analysis failed").
Proof. split; vm_compute; reflexivity. Qed.

(** Claim C8 (scope balance).  After the walk of any program, and so after
    [analyze] whether it raises or not, every frame pushed for a function
    body, a block or a [for] statement has been popped: the scope stack of
    the symbol table has exactly one frame, and this frame is the global
    one, whose keys are the names declared at top level. *)
Theorem scope_balance (ast : Program) :
  exists global_frame,
    scopes (symbol_table (snd (analyze ast init))) = [global_frame] /\
    dom global_frame = list_to_set (map declared_name (declarations ast)).
Proof.
  destruct (visit_program_returns ast) as (self' & Hrun & [_ HG]).
  destruct (analyze_run ast) as [_ ->]. by rewrite Hrun.
Qed.

(** Claim C2, amended.  Every symbol that [declare] records while a program
    is analyzed, in a frame still on the stack or popped since, has a scope
    label among global, function:<name>, for, block and outer; outer is the
    label that [exit_scope] sets after it has popped a frame. *)
Theorem recorded_scope_labels (ast : Program) :
  Forall (fun s => code_scope_label (sym_scope s))
         (recorded (symbol_table (snd (analyze ast init)))).
Proof.
  destruct (visit_program_returns ast) as (self' & Hrun & [[_ _ H] _]).
  destruct (analyze_run ast) as [_ ->]. by rewrite Hrun.
Qed.

Lemma outer_not_spec_label : ~ spec_scope_label "outer".
Proof. intros [H|[H|[H|[name H]]]]; discriminate. Qed.

(** Claim C2 fails as stated: on the program [void f() {} int x;] the
    analysis succeeds and the symbol [x] is recorded with the scope label
    outer, which is none of global, function:<name>, for, block. *)
Lemma scope_label_outer :
  fst (analyze outer_program init) = Return tt /\
  In (mkSymbol "x" "int" "outer")
     (SymbolTable_.get_all_symbols (symbol_table (snd (analyze outer_program init)))) /\
  In (mkSymbol "x" "int" "outer")
     (recorded (symbol_table (snd (analyze outer_program init)))) /\
  ~ spec_scope_label "outer".
Proof.
  split; [reflexivity|]. split; [|split].
  - vm_compute. auto.
  - vm_compute. auto.
  - apply outer_not_spec_label.
Qed.
End SemanticFacts.

(* ===================================================================== *)
(** * Properties of the TAC generator *)
(* ===================================================================== *)

Module IRFacts.
Import Ast IR IRSpec Samples AstFacts.
Local Open Scope gen_scope.

Lemma interval_nil a : interval a a = [].
Proof. unfold interval. by rewrite Nat.sub_diag. Qed.

Lemma interval_split a b c :
  a <= b -> b <= c -> interval a c = interval a b ++ interval b c.
Proof.
  intros Hab Hbc. unfold interval.
  replace (c - a) with ((b - a) + (c - b)) by lia.
  rewrite seq_app. do 2 f_equal. lia.
Qed.

Lemma interval_one a : interval a (a + 1) = [a].
Proof. unfold interval. by replace (a + 1 - a) with 1 by lia. Qed.

Lemma temp_name_inj : Inj (=) (=) temp_name.
Proof. intros a b H. unfold temp_name in H. by simplify_eq. Qed.

Lemma label_name_inj : Inj (=) (=) label_name.
Proof. intros a b H. unfold label_name in H. by simplify_eq. Qed.

Lemma temp_defs_app c1 c2 : temp_defs (c1 ++ c2) = temp_defs c1 ++ temp_defs c2.
Proof. apply flat_map_app. Qed.

Lemma label_defs_app c1 c2 :
  label_defs (c1 ++ c2) = label_defs c1 ++ label_defs c2.
Proof. apply flat_map_app. Qed.

Lemma bind_run {A B} (m : M A) (k : A -> M B) self :
  bind m k self = k (fst (m self)) (snd (m self)).
Proof. unfold bind. by destruct (m self). Qed.

Lemma for_each_app {A} (body : A -> M unit) l1 l2 s :
    for_each body (l1 ++ l2) s = (for_each body l1 ;; for_each body l2) s.
Proof.
  revert s. induction l1 as [|y l1 IH1]; intros s.
  - reflexivity.
  - cbn [for_each app]. rewrite !bind_run. rewrite IH1.
    by rewrite !bind_run.
Qed.

Lemma for_each_reversed_rev {A} (body : A -> M unit) l self :
  for_each_reversed body l self = for_each body (rev l) self.
Proof.
  revert self. induction l as [|x l IH]; intros self; [done|].
  cbn [for_each_reversed rev].
  rewrite for_each_app, !bind_run. fold (for_each_reversed body l).
  rewrite IH. cbn [for_each]. rewrite bind_run. cbn.
  by destruct (body x _) as [[] ?].
Qed.

Lemma acct_refl self : acct self [] [] self.
Proof.
  split; try done.
  - by rewrite app_nil_r.
  - by rewrite interval_nil.
Qed.

Lemma acct_trans s0 c1 i1 s1 c2 i2 s2 :
  acct s0 c1 i1 s1 -> acct s1 c2 i2 s2 -> acct s0 (c1 ++ c2) (i1 ++ i2) s2.
Proof.
  intros [H1 H2 H3 H4 H5 H6] [K1 K2 K3 K4 K5 K6]. split.
  - by rewrite K1, H1, app_assoc.
  - lia.
  - lia.
  - rewrite temp_defs_app, H4, K4, <- map_app.
    by rewrite <- interval_split.
  - by rewrite label_defs_app, H5, K5, map_app.
  - by apply Forall_app.
Qed.

Lemma acct_emit_plain self i :
  defined_temp i = [] -> defined_label i = [] -> call_has_result i ->
  acct self [i] [] (snd (emit i self)).
Proof.
  intros Ht Hl Hc. split; cbn; try done.
  - unfold temp_defs. cbn. by rewrite Ht, interval_nil.
  - unfold label_defs. cbn. by rewrite Hl.
  - by constructor.
Qed.

Lemma acct_emit_label self n :
  acct self [TACLabel (label_name n)] [n] (snd (emit (TACLabel (label_name n)) self)).
Proof.
  split; cbn; try done.
  - by rewrite interval_nil.
  - by constructor.
Qed.

Lemma acct_new_label self :
  acct self [] [] (snd (new_label self)).
Proof.
  split; cbn; try done.
  - by rewrite app_nil_r.
  - lia.
  - by rewrite interval_nil.
Qed.

Lemma acct_new_temp_emit self i :
  defined_temp i = [temp_name (temp_counter self)] ->
  defined_label i = [] -> call_has_result i ->
  acct self [i] [] (snd (emit i (snd (new_temp self)))).
Proof.
  intros Ht Hl Hc. split; cbn; try done.
  - lia.
  - unfold temp_defs. cbn. by rewrite Ht, interval_one.
  - unfold label_defs. cbn. by rewrite Hl.
  - by constructor.
Qed.

Lemma disciplined_ret {A} (a : A) p : disciplined p p (ret a).
Proof.
  intros self. exists [], []. split; [apply acct_refl|].
  cbn. by rewrite interval_nil, app_nil_r.
Qed.

Lemma disciplined_bind {A B} p q r (m : M A) (k : A -> M B) :
  disciplined p q m -> (forall a, disciplined q r (k a)) ->
  disciplined p r (bind m k).
Proof.
  intros Hm Hk self. rewrite bind_run.
  destruct (Hm self) as (c1 & i1 & H1 & P1).
  destruct (Hk (fst (m self)) (snd (m self))) as (c2 & i2 & H2 & P2).
  exists (c1 ++ c2), (i1 ++ i2). split; [by eapply acct_trans|].
  rewrite (interval_split _ (label_counter (snd (m self))))
    by (eapply acct_label_le; eauto).
  rewrite <- app_assoc, P2, !app_assoc, P1. done.
Qed.

Lemma disciplined_frame {A} p q r (m : M A) :
  disciplined p q m -> disciplined (p ++ r) (q ++ r) m.
Proof.
  intros Hm self. destruct (Hm self) as (c & i & H & P).
  exists c, i. split; [done|].
  rewrite app_assoc, P. solve_Permutation.
Qed.

Lemma disciplined_frame_nil {A} p (m : M A) :
  disciplined [] [] m -> disciplined p p m.
Proof. apply (disciplined_frame [] [] p). Qed.

Lemma disciplined_perm {A} p p' q (m : M A) :
  p ≡ₚ p' -> disciplined p q m -> disciplined p' q m.
Proof.
  intros Hp Hm self. destruct (Hm self) as (c & i & H & P).
  exists c, i. split; [done|]. by rewrite <- Hp.
Qed.

Lemma disciplined_emit i p :
  defined_temp i = [] -> defined_label i = [] -> call_has_result i ->
  disciplined p p (emit i).
Proof.
  intros Ht Hl Hc self. exists [i], []. split; [by apply acct_emit_plain|].
  cbn. by rewrite interval_nil, app_nil_r.
Qed.

Lemma disciplined_emit_label n p :
  disciplined (n :: p) p (emit (TACLabel (label_name n))).
Proof.
  intros self. exists [TACLabel (label_name n)], [n].
  split; [apply acct_emit_label|].
  cbn. by rewrite interval_nil, app_nil_r.
Qed.

Lemma disciplined_new_label {A} p q (k : string -> M A) :
  (forall n, disciplined (n :: p) q (k (label_name n))) ->
  disciplined p q (l <- new_label ;; k l).
Proof.
  intros Hk self. rewrite bind_run.
  destruct (Hk (label_counter self) (snd (new_label self)))
    as (c & i & H & P).
  exists ([] ++ c), ([] ++ i). split.
  - eapply acct_trans; [apply acct_new_label | exact H].
  - cbn [app]. cbn [new_label fst snd label_counter] in *.
    rewrite P.
    rewrite (interval_split (label_counter self) (label_counter self + 1))
      by (apply acct_label_le in H; cbn in H; lia).
    rewrite interval_one. solve_Permutation.
Qed.

Lemma disciplined_new_temp_emit {A} p q (f : string -> TACInstruction)
      (k : string -> M A) :
  (forall t, defined_temp (f t) = [t]) ->
  (forall t, defined_label (f t) = []) ->
  (forall n, call_has_result (f (temp_name n))) ->
  (forall t, disciplined p q (k t)) ->
  disciplined p q (t <- new_temp ;; emit (f t) ;; k t).
Proof.
  intros Ht Hl Hc Hk self. rewrite !bind_run.
  set (s1 := snd (emit _ _)).
  destruct (Hk (fst (new_temp self)) s1) as (c & i & H & P).
  exists ([f (temp_name (temp_counter self))] ++ c), ([] ++ i). split.
  - refine (acct_trans _ _ [] s1 _ _ _ _ H).
    apply acct_new_temp_emit; auto.
  - cbn [app]. by rewrite P.
Qed.

Lemma disciplined_for_each_reversed {A} p (body : A -> M unit) l :
  Forall (fun x => disciplined p p (body x)) l ->
  disciplined p p (for_each_reversed body l).
Proof.
  induction 1 as [|x l Hx Hl IH]; [apply disciplined_ret|].
  cbn [for_each_reversed]. eapply disciplined_bind; [apply IH | done].
Qed.

Lemma disciplined_for_each {A} p (body : A -> M unit) l :
  Forall (fun x => disciplined p p (body x)) l ->
  disciplined p p (for_each body l).
Proof.
  induction 1 as [|x l Hx Hl IH]; [apply disciplined_ret|].
  cbn [for_each]. eapply disciplined_bind; [apply Hx | done].
Qed.

Lemma visit_expression_disciplined e p :
  disciplined p p (visit_expression e).
Proof.
  induction e as [op l IHl r IHr|op e IH|name|v|v|v|name args IH|target e IH]
    using Expression_nested_ind; cbn [visit_expression];
    try apply disciplined_ret.
  - eapply disciplined_bind; [done|intros lt].
    eapply disciplined_bind; [done|intros rt].
    apply (disciplined_new_temp_emit _ _ (fun t => TACBinaryOp t lt op rt));
      try done; intros; apply disciplined_ret.
  - eapply disciplined_bind; [done|intros ot].
    apply (disciplined_new_temp_emit _ _ (fun t => TACUnaryOp t op ot));
      try done; intros; apply disciplined_ret.
  - eapply disciplined_bind.
    + apply disciplined_for_each_reversed. eapply Forall_impl; [exact IH|].
      intros a Ha. cbn beta.
      eapply disciplined_bind; [exact Ha|]. intros t.
      by apply disciplined_emit.
    + intros _.
      apply (disciplined_new_temp_emit _ _
               (fun t => TACCall (Some t) name (length args)));
        try done; intros; apply disciplined_ret.
  - eapply disciplined_bind; [done|intros vt].
    eapply disciplined_bind; [by apply disciplined_emit|].
    intros _. apply disciplined_ret.
Qed.

Lemma visit_var_decl_disciplined decl p : disciplined p p (visit_var_decl decl).
Proof.
  unfold visit_var_decl. destruct (initializer decl); [|apply disciplined_ret].
  eapply disciplined_bind; [apply visit_expression_disciplined|].
  intros t. by apply disciplined_emit.
Qed.

Lemma visit_return_stmt_disciplined e p : disciplined p p (visit_return_stmt e).
Proof.
  destruct e; cbn; [|by apply disciplined_emit].
  eapply disciplined_bind; [apply visit_expression_disciplined|].
  intros t. by apply disciplined_emit.
Qed.

Ltac step :=
  first
    [ apply disciplined_ret
    | apply disciplined_emit_label
    | apply disciplined_emit; done
    | apply visit_expression_disciplined
    | apply visit_var_decl_disciplined
    | apply visit_return_stmt_disciplined
    | apply disciplined_new_label; intros ?
    | eapply disciplined_bind; [ | intros ? ] ].

Lemma visit_statement_disciplined s : forall p, disciplined p p (visit_statement s).
Proof.
  induction s as [decl|rt name ps b|l IH|e|e|c t e IHt IHe|c b IH|i c u b IHi IHb]
    using Statement_nested_ind; intros p; cbn [visit_statement].
  - step.
  - step.
  - apply disciplined_for_each. eapply Forall_impl; [exact IH|]. by intros.
  - destruct e; repeat step.
  - step.
  - destruct e as [e|].
    + step; [step|]. step. step. step; [step|]. step; [apply IHt|].
      step; [step|].
      step; [apply (disciplined_perm (n :: n0 :: p)); [solve_Permutation|step]|].
      step; [by apply IHe|]. step.
    + step; [step|]. step. step; [step|]. step; [apply IHt|]. step.
  - step. step. 
    step; [apply (disciplined_perm (n :: n0 :: p)); [solve_Permutation|step]|].
    step; [step|]. step; [step|]. step; [apply IH|]. step; [step|]. step.
  - step.
    { destruct i as [s0|]; [|step].
      destruct s0; first [exact (IHi _ eq_refl p) | step]. }
    step. step. step.
    step; [apply (disciplined_perm (n :: n0 :: n1 :: p)); [solve_Permutation|step]|].
    step; [destruct c; repeat step|].
    step; [apply IHb|].
    step; [apply (disciplined_perm (n1 :: n0 :: p)); [solve_Permutation|step]|].
    step; [destruct u; repeat step|].
    step; [step|]. step.
Qed.

Lemma visit_function_decl_disciplined f p :
  disciplined p p (visit_function_decl f).
Proof.
  unfold visit_function_decl, visit_compound_stmt.
  destruct (body f) as [statements|]; [|step].
  step; [step|]. step; [|step].
  apply disciplined_for_each, Forall_forall. intros s _.
  apply visit_statement_disciplined.
Qed.

Lemma visit_program_disciplined ast : disciplined [] [] (visit_program ast).
Proof.
  apply disciplined_for_each, Forall_forall. intros [f|v] _.
  - apply visit_function_decl_disciplined.
  - apply visit_var_decl_disciplined.
Qed.

Lemma generate_acct ast :
  exists ids,
    acct init (instructions (generate ast)) ids (generate ast) /\
    ids ≡ₚ interval 0 (label_counter (generate ast)).
Proof.
  destruct (visit_program_disciplined ast init) as (code & ids & H & P).
  exists ids. fold (generate ast) in *. split.
  - pose proof (acct_instructions _ _ _ _ H) as E. cbn in E. by rewrite E.
  - by rewrite app_nil_r in P.
Qed.

Lemma generate_temp_defs ast :
  temp_defs (instructions (generate ast)) =
  map temp_name (seq 0 (temp_counter (generate ast))).
Proof.
  destruct (generate_acct ast) as (ids & H & _).
  pose proof (acct_temps _ _ _ _ H) as Ht.
  unfold interval in Ht. cbn [init temp_counter] in Ht.
  by rewrite Nat.sub_0_r in Ht.
Qed.

Example counters_run_across_functions :
  instructions (generate two_functions) =
  [TACFunctionStart "f"; TACBinaryOp "t0" "a" "+" "1"; TACIfFalseGoto "t0" "L0";
   TACReturn (Some "a"); TACLabel "L0"; TACFunctionEnd "f";
   TACFunctionStart "g"; TACBinaryOp "t1" "b" "+" "2"; TACIfFalseGoto "t1" "L1";
   TACReturn (Some "b"); TACLabel "L1"; TACFunctionEnd "g"].
Proof. reflexivity. Qed.

(** Claim C4 (fresh-name uniqueness).  In the TAC list of one run of the
    generator on any program, the names defined through [new_temp] are, in
    the order of the list, t0, t1, ... up to the final value of the
    temporary counter, and the labels placed are, up to their order,
    L0, L1, ... up to the final value of the label counter; so no temporary
    is defined twice and no label is placed twice.  The two counters are
    separate fields, and the numbering runs through the whole program: it
    does not start again at a function. *)
Theorem fresh_names_unique (ast : Program) :
  temp_defs (instructions (generate ast)) =
    map temp_name (seq 0 (temp_counter (generate ast))) /\
  label_defs (instructions (generate ast)) ≡ₚ
    map label_name (seq 0 (label_counter (generate ast))) /\
  NoDup (temp_defs (instructions (generate ast))) /\
  NoDup (label_defs (instructions (generate ast))).
Proof.
  destruct (generate_acct ast) as (ids & H & P).
  pose proof (generate_temp_defs ast) as Ht.
  pose proof (acct_labels _ _ _ _ H) as Hl.
  unfold interval in P. rewrite Nat.sub_0_r in P.
  assert (Hl' : label_defs (instructions (generate ast)) ≡ₚ
                map label_name (seq 0 (label_counter (generate ast)))).
  { rewrite Hl. by apply Permutation_map. }
  repeat split; [done|done| |].
  - rewrite Ht. apply (NoDup_fmap_2 temp_name (Inj0 := temp_name_inj)), NoDup_seq.
  - rewrite Hl'. apply (NoDup_fmap_2 label_name (Inj0 := label_name_inj)), NoDup_seq.
Qed.

(** Claim C10.  Every call instruction in the TAC list of a program has a
    result field that is not [None]: it holds a temporary handed out by
    [new_temp], whatever the place of the call and the return type of the
    callee.  Its printed form is therefore [r = call f, n], never the form
    without a result. *)
Theorem call_always_has_result (ast : Program) (i : TACInstruction) :
  In i (instructions (generate ast)) -> is_call i = true ->
  exists k f n,
    i = TACCall (Some (temp_name k)) f n /\
    k < temp_counter (generate ast) /\
    str i = temp_name k +:+ " = call " +:+ f +:+ ", " +:+ pretty n.
Proof.
  intros Hin Hcall.
  pose proof (generate_temp_defs ast) as Ht.
  destruct i as [| | | | | | |r f n| | | |]; try discriminate.
  destruct (generate_acct ast) as (ids & H & _).
  pose proof (acct_calls _ _ _ _ H) as Hc.
  rewrite Forall_forall in Hc. specialize (Hc _ (proj2 (list_elem_of_In _ _) Hin)).
  destruct r as [r|]; [|discriminate].
  assert (Hr : In r (temp_defs (instructions (generate ast)))).
  { unfold temp_defs. apply in_flat_map. eexists. split; [exact Hin|]. by left. }
  rewrite Ht in Hr. apply in_map_iff in Hr as (k & <- & Hk).
  apply in_seq in Hk. exists k, f, n.
  split; [reflexivity|]. split; [lia|reflexivity].
Qed.

Lemma call_always_has_result_witness :
  In (TACCall (Some "t0") "f" 0) (instructions (generate call_program)) /\
  is_call (TACCall (Some "t0") "f" 0) = true /\
  exists k f n,
    TACCall (Some "t0") "f" 0 = TACCall (Some (temp_name k)) f n /\
    k < temp_counter (generate call_program) /\
    str (TACCall (Some "t0") "f" 0) =
      temp_name k +:+ " = call " +:+ f +:+ ", " +:+ pretty n.
Proof.
  split; [vm_compute; right; left; reflexivity|].
  split; [reflexivity|].
  apply (call_always_has_result call_program (TACCall (Some "t0") "f" 0)).
  - vm_compute. right. left. reflexivity.
  - reflexivity.
Defined.

Lemma visit_expression_appends node self :
  instructions (snd (visit_expression node self)) =
  instructions self ++ lowering node self.
Proof.
  destruct (visit_expression_disciplined node [] self) as (c & i & H & _).
  unfold lowering. rewrite (acct_instructions _ _ _ _ H).
  by rewrite drop_app_length.
Qed.

Lemma params_code_for_each l self :
  for_each (fun arg => arg_temp <- visit_expression arg ;;
                       emit (TACParam arg_temp)) l self =
  (tt, snd (params_code l self)) /\
  instructions (snd (params_code l self)) =
  instructions self ++ fst (params_code l self).
Proof.
  revert self. induction l as [|arg rest IH]; intros self.
  - cbn. by rewrite app_nil_r.
  - cbn [for_each params_code]. rewrite !bind_run.
    pose proof (visit_expression_appends arg self) as Happ.
    destruct (visit_expression arg self) as [name self1]. cbn [fst snd] in *.
    destruct (IH (snd (emit (TACParam name) self1))) as [IH1 IH2].
    destruct (params_code rest _) as [code self3]. cbn [fst snd] in *.
    split; [done|].
    rewrite IH2. cbn [emit snd instructions]. rewrite Happ.
    by rewrite <- !app_assoc.
Qed.

(** Claim C6.  Lowering a call [f(a1, ..., an)] appends, for the arguments
    taken in reverse source order (an first, a1 last), the lowering of the
    argument immediately followed by its [param] instruction, and after
    them the single instruction [result = call f, n] where [result] is a
    fresh temporary and [n] the number of arguments; [result] is the name
    returned for the expression. *)
Theorem function_call_lowering (f : string) (args : list Expression)
        (self : IntermediateCodeGenerator) :
  fst (visit_expression (FunctionCall f args) self) =
    fst (call_code f args self) /\
  instructions (snd (visit_expression (FunctionCall f args) self)) =
    instructions self ++ snd (call_code f args self).
Proof.
  cbn [visit_expression]. rewrite !bind_run.
  rewrite for_each_reversed_rev.
  destruct (params_code_for_each (rev args) self) as [-> Hinstr].
  unfold call_code.
  destruct (params_code (rev args) self) as [code self1].
  cbn [fst snd] in *. cbn. split; [done|].
  by rewrite Hinstr, <- app_assoc.
Qed.

Example function_call_lowering_example :
  instructions
    (snd (visit_expression
            (FunctionCall "f" [Identifier "a"; BinaryOp "+" (Identifier "b") (IntLiteral 1)])
            init)) =
  [TACBinaryOp "t0" "b" "+" "1"; TACParam "t0"; TACParam "a";
   TACCall (Some "t1") "f" 2].
Proof. reflexivity. Qed.

(** Claim C1 fails as stated: for the program made of the one global
    declaration [int x = 5;] the generator emits the copy [x = 5]. *)
Lemma global_var_decl_emits :
  instructions (generate {| declarations := [DVar global_x] |}) =
    [TACAssign "x" "5"] /\
  instructions (generate {| declarations := [DVar global_x] |}) <> [].
Proof. split; [reflexivity | discriminate]. Qed.

(** Claim C1, amended.  [visit_program] hands a global variable declaration
    to [visit_var_decl], the visitor used for a declaration inside a
    function body.  Without an initializer the declaration adds nothing to
    the TAC list; with an initializer it adds the lowering of the
    initializer followed by the copy [name = value]. *)
Theorem global_var_decl_lowering (decl : VarDecl)
        (self : IntermediateCodeGenerator) :
  visit_declaration (DVar decl) self = visit_statement (SVarDecl decl) self /\
  instructions (snd (visit_declaration (DVar decl) self)) =
    match initializer decl with
    | None => instructions self
    | Some e =>
        instructions self ++ lowering e self ++
        [TACAssign (var_name decl) (fst (visit_expression e self))]
    end.
Proof.
  split; [reflexivity|].
  cbn [visit_declaration]. unfold visit_var_decl.
  destruct (initializer decl) as [e|]; [|done].
  rewrite bind_run. cbn [emit snd instructions].
  by rewrite visit_expression_appends, <- app_assoc.
Qed.
End IRFacts.

(* ===================================================================== *)
(** * Properties of the peephole pass *)
(* ===================================================================== *)

Module CodeGenFacts.
Import Ast IR CodeGen CodeGenSpec Samples.

Lemma optimize_loop_filter lines n acc :
  optimize_loop lines n acc =
  (n + length (filter (fun l => redundant_move l = true) lines),
   acc ++ filter (fun l => redundant_move l = false) lines).
Proof.
  revert n acc. induction lines as [|line rest IH]; intros n acc.
  - cbn. by rewrite Nat.add_0_r, app_nil_r.
  - cbn [optimize_loop]. rewrite !filter_cons.
    destruct (redundant_move line) eqn:Hr; rewrite IH.
    + rewrite decide_True by done. rewrite decide_False by done.
      cbn. f_equal. lia.
    + rewrite decide_False by done. rewrite decide_True by done.
      by rewrite <- app_assoc.
Qed.

(** The lines kept by the pass are those that fail the test, in order. *)
Lemma optimize_keeps self :
  assembly_code (snd (optimize self)) =
  filter (fun l => redundant_move l = false) (assembly_code self).
Proof. unfold optimize. by rewrite optimize_loop_filter. Qed.

Lemma no_MOV_not_redundant line :
  contains "MOV" line = false -> redundant_move line = false.
Proof. unfold redundant_move. by intros ->. Qed.

Example self_move_is_redundant : redundant_move "    MOV R1, R1" = true.
Proof. reflexivity. Qed.

Example move_is_kept : redundant_move "    MOV R0, RAX" = false.
Proof. reflexivity. Qed.

Lemma app_cons_string x (a b : string) : String x a +:+ b = String x (a +:+ b).
Proof. reflexivity. Qed.

Lemma app_assoc_string (a b c : string) : (a +:+ b) +:+ c = a +:+ (b +:+ c).
Proof.
  induction a as [|x a IH]; [done|]. by rewrite !app_cons_string, IH.
Qed.

Lemma app_empty_r (a : string) : a +:+ "" = a.
Proof. induction a as [|x a IH]; [done|]. by rewrite app_cons_string, IH. Qed.

Lemma split_go_plain w acc rest :
  plain w = true ->
  split_go (Some acc) (w +:+ rest) = split_go (Some (acc +:+ w)) rest.
Proof.
  revert acc. induction w as [|c w IH]; intros acc Hw.
  - by rewrite app_empty_r.
  - cbn in Hw. apply andb_true_iff in Hw as [Hc Hw].
    apply andb_true_iff in Hc as [Hc _]. apply negb_true_iff in Hc.
    rewrite app_cons_string. cbn [split_go]. rewrite Hc. cbn [default].
    rewrite IH by done. by rewrite app_assoc_string.
Qed.

Lemma split_go_field w rest :
  field w -> split_go None (w +:+ rest) = split_go (Some w) rest.
Proof.
  intros [Hne Hw]. destruct w as [|c w]; [done|]. cbn in Hw.
  apply andb_true_iff in Hw as [Hc Hw].
  apply andb_true_iff in Hc as [Hc _]. apply negb_true_iff in Hc.
  rewrite app_cons_string. cbn [split_go]. rewrite Hc. cbn [default].
  by rewrite (split_go_plain w (String c "")).
Qed.

Lemma rstrip_comma_field w : plain w = true -> rstrip_comma (w +:+ ",") = w.
Proof.
  induction w as [|c w IH]; intros Hw; [done|].
  cbn in Hw. apply andb_true_iff in Hw as [Hc Hw].
  apply andb_true_iff in Hc as [_ Hc]. apply negb_true_iff in Hc.
  rewrite app_cons_string. cbn [rstrip_comma]. rewrite IH by done.
  rewrite Hc. by destruct w.
Qed.

Lemma split_field w : field w -> split_go None w = [w].
Proof.
  intros Hw. rewrite <- (app_empty_r w) at 1. by rewrite split_go_field.
Qed.

Lemma self_move_redundant w :
  field w -> redundant_move ("    MOV " +:+ w +:+ ", " +:+ w) = true.
Proof.
  intros Hw. pose proof Hw as [Hne Hp]. unfold redundant_move.
  change (contains "MOV" ("    MOV " +:+ w +:+ ", " +:+ w)) with true.
  cbv iota. unfold split.
  change (split_go None ("    MOV " +:+ w +:+ ", " +:+ w))
    with ("MOV" :: split_go None (w +:+ String "," (String " " w))).
  rewrite split_go_field by done.
  change (split_go (Some w) (String "," (String " " w)))
    with ((w +:+ ",") :: split_go None w).
  rewrite split_field by done.
  rewrite rstrip_comma_field by done. apply String.eqb_refl.
Qed.

Lemma plain_digits x s : plain s = true -> plain (pretty_N_go x s) = true.
Proof.
  revert s. induction (N.lt_wf_0 x) as [x _ IH]; intros s Hs.
  assert (x = 0 \/ 0 < x)%N as [->|Hx] by lia.
  - by rewrite pretty_N_go_0.
  - rewrite pretty_N_go_step by done. apply IH; [by apply N.div_lt|].
    cbn [plain]. rewrite Hs, andb_true_r.
    unfold pretty_N_char. by repeat case_match.
Qed.

Lemma pretty_N_go_nonempty x s : s <> "" -> pretty_N_go x s <> "".
Proof.
  revert s. induction (N.lt_wf_0 x) as [x _ IH]; intros s Hs.
  assert (x = 0 \/ 0 < x)%N as [->|Hx] by lia.
  - by rewrite pretty_N_go_0.
  - rewrite pretty_N_go_step by done. apply IH; [by apply N.div_lt|done].
Qed.

Lemma plain_pretty (n : nat) : plain (pretty n) = true.
Proof.
  unfold pretty, pretty_nat, pretty, pretty_N.
  case_decide; [done|]. by apply plain_digits.
Qed.

(** A register name [R<n>] is a field. *)
Lemma register_field (n : nat) : field ("R" +:+ pretty n).
Proof. split; [done|]. cbn [plain String.app]. apply plain_pretty. Qed.

(** The part of claim C5 that holds.  Whatever the listing, no line
    [MOV r, r] is left by [optimize], be [r] a numbered register or one of
    RAX, BP and SP. *)
Lemma optimize_removes_self_moves self r :
  field r ->
  ~ In ("    MOV " +:+ r +:+ ", " +:+ r) (assembly_code (snd (optimize self))).
Proof.
  intros Hr Hin. rewrite optimize_keeps in Hin.
  apply list_elem_of_In, list_elem_of_filter in Hin as [Hkeep _].
  by rewrite self_move_redundant in Hkeep.
Qed.

(** Claim C5 fails on the code.  The program [push_program] passes the
    semantic analysis without a diagnostic; the generator emits for it a
    PUSH line whose operand is the string literal; the line holds the
    letters MOV and its second and third fields are equal, so [optimize]
    counts it as an eliminated move and drops it, although it is not a MOV
    line. *)
Theorem peephole_drops_push (py_float_ok : string -> bool) :
  let generated :=
    CodeGen.generate py_float_ok
      (CodeGen.init (instructions (IR.generate push_program))) in
  fst (Semantic.analyze push_program Semantic.init) = Semantic.Return tt /\
  instructions (IR.generate push_program) =
    [TACFunctionStart "main"; TACParam (quoted push_literal);
     TACCall (Some "t0") "f" 1; TACFunctionEnd "main"] /\
  In push_line (assembly_code generated) /\
  split push_line =
    ["PUSH"; "#" +:+ String dquote "x"; "#" +:+ String dquote "x";
     "MOV" +:+ String dquote ""] /\
  fst (optimize generated) = 1 /\
  ~ In push_line (assembly_code (snd (optimize generated))).
Proof.
  cbn zeta.
  assert (Hgen : assembly_code
            (CodeGen.generate py_float_ok
               (CodeGen.init (instructions (IR.generate push_program)))) =
            ["; Generated Assembly Code";
             "; Simplified RISC-style instructions"; "";
             String (ascii_of_nat 10) "; Function: main"; "main:";
             "    PUSH BP"; "    MOV BP, SP"; push_line; "    CALL f";
             "    ADD SP, #4"; "    MOV R0, RAX"; "    MOV SP, BP";
             "    POP BP"; "    RET"; "; End of main"]).
  { unfold CodeGen.generate. cbn [IR.generate]. 
    change (instructions (IR.generate push_program)) with
      [TACFunctionStart "main"; TACParam (quoted push_literal);
       TACCall (Some "t0") "f" 1; TACFunctionEnd "main"].
    cbn [CodeGen.init tac_instructions append fold_left generate_instruction].
    unfold is_constant.
    destruct (py_float_ok (quoted push_literal)); vm_compute; reflexivity. }
  split; [vm_compute; reflexivity|].
  split; [reflexivity|]. split; [rewrite Hgen; cbn; tauto|].
  split; [reflexivity|].
  unfold optimize. rewrite optimize_loop_filter, Hgen. cbn [fst snd assembly_code].
  split; [reflexivity|].
  vm_compute. intros H. repeat (destruct H as [H|H]; [discriminate H|]). exact H.
Qed.
End CodeGenFacts.

(* ===================================================================== *)
(** * Placement of the tokens *)
(* ===================================================================== *)

Module LexerPlacementFacts.
Import Lexer LexerSpec LexerPlacement LexerFacts.
Local Open Scope lex_scope.
#[local] Arguments dict_get : simpl never.

Lemma line_of_snoc prefix c :
  line_of (prefix ++ [c]) =
  if Ascii.eqb c newline then line_of prefix + 1 else line_of prefix.
Proof.
  unfold line_of. rewrite List.filter_app, length_app. cbn.
  destruct (Ascii.eqb c newline); cbn; lia.
Qed.

Lemma column_of_snoc prefix c :
  column_of (prefix ++ [c]) =
  if Ascii.eqb c newline then 1 else column_of prefix + 1.
Proof.
  unfold column_of, last_line. rewrite fold_left_app. cbn.
  destruct (Ascii.eqb c newline); cbn; [done|].
  rewrite length_app. cbn. lia.
Qed.

Lemma tracked_advance self : tracked self -> tracked (advance self).
Proof.
  intros [Hl Hc Hp]. unfold advance.
  destruct (source self !! position self) as [c|] eqn:E; [|done].
  pose proof (lookup_lt_Some _ _ _ E) as Hlt.
  assert (Ht : take (position self + 1) (source self) =
               take (position self) (source self) ++ [c]).
  { rewrite Nat.add_1_r. by apply take_S_r. }
  destruct (Ascii.eqb c newline) eqn:Hn; split;
    cbn [line column position source]; rewrite ?Ht,
    ?line_of_snoc, ?column_of_snoc, ?Hn; lia.
Qed.

Lemma keeps_refl self : keeps self self.
Proof. split; [apply scans_refl|done]. Qed.

Lemma keeps_trans a b c : keeps a b -> keeps b c -> keeps a c.
Proof.
  intros [H1 H2] [K1 K2]. split; [by eapply scans_trans|auto].
Qed.

Lemma keeps_advance self : keeps self (advance self).
Proof. split; [apply advance_scans|apply tracked_advance]. Qed.

Lemma keeps_step self self' :
  keeps (advance self) self' -> keeps self self'.
Proof. apply keeps_trans, keeps_advance. Qed.

Ltac partial_loop fuel :=
  induction fuel as [|fuel IH]; [discriminate|]; cbn.

Lemma skip_whitespace_keeps fuel : forall self self',
  skip_whitespace fuel self = Ok self' -> keeps self self'.
Proof.
  partial_loop fuel. intros self self'.
  destruct (current_char self) as [c|]; [|intros [= <-]; apply keeps_refl].
  destruct (is_blank c); [|intros [= <-]; apply keeps_refl].
  intros H. by apply keeps_step, IH.
Qed.

Lemma skip_line_keeps fuel : forall self self',
  skip_line fuel self = Ok self' -> keeps self self'.
Proof.
  partial_loop fuel. intros self self'.
  destruct (current_char self) as [c|]; [|intros [= <-]; apply keeps_refl].
  destruct (negb _); [|intros [= <-]; apply keeps_refl].
  intros H. by apply keeps_step, IH.
Qed.

Lemma skip_block_keeps fuel : forall self self',
  skip_block fuel self = Ok self' -> keeps self self'.
Proof.
  partial_loop fuel. intros self self'.
  destruct (current_char self) as [c|]; [|intros [= <-]; apply keeps_refl].
  destruct (_ && _).
  - intros [= <-]. apply keeps_step, keeps_advance.
  - intros H. by apply keeps_step, IH.
Qed.

Lemma skip_comment_keeps fuel self self' :
  skip_comment fuel self = Ok self' -> keeps self self'.
Proof.
  unfold skip_comment. destruct (_ && _).
  - destruct (skip_line fuel self) as [s1| |] eqn:E; cbn; try discriminate.
    intros [= <-]. eapply keeps_trans; [by eapply skip_line_keeps|].
    apply keeps_advance.
  - destruct (_ && _); [|intros [= <-]; apply keeps_refl].
    intros H. apply keeps_step, keeps_step. by eapply skip_block_keeps.
Qed.

(** ** The text read by the loops *)

Lemma text_nil self : text self self = [].
Proof. unfold text. by rewrite Nat.sub_diag. Qed.

Lemma text_step self self' c :
  current_char self = Some c -> scans (advance self) self' ->
  text self self' = c :: text (advance self) self'.
Proof.
  intros Hc [_ _ Hp]. pose proof (advance_scans self) as [Hs _ _].
  rewrite (advance_position _ _ Hc) in Hp.
  unfold text. rewrite (advance_position _ _ Hc), Hs.
  unfold current_char in Hc. rewrite (drop_S _ _ _ Hc).
  replace (position self' - position self)
    with (S (position self' - (position self + 1))) by lia.
  cbn [take]. by rewrite Nat.add_1_r.
Qed.

Lemma chars_app (a b : string) :
  list_ascii_of_string (a +:+ b) =
  list_ascii_of_string a ++ list_ascii_of_string b.
Proof. induction a as [|c a IH]; [done|]. cbn. by rewrite <- IH. Qed.

Lemma chars_append_char s c :
  list_ascii_of_string (append_char s c) = list_ascii_of_string s ++ [c].
Proof. unfold append_char. by rewrite chars_app. Qed.

Lemma read_number_loop_reads fuel : forall num_str is_float self s f self',
  read_number_loop fuel num_str is_float self = Ok (s, f, self') ->
  keeps self self' /\
  list_ascii_of_string s = list_ascii_of_string num_str ++ text self self' /\
  Forall (fun c => isdigit c || is_dot c = true) (text self self') /\
  length (List.filter is_dot (text self self')) + Nat.b2n is_float =
    Nat.b2n f /\
  (forall c, current_char self = Some c -> isdigit c = true ->
             position self < position self').
Proof.
  partial_loop fuel. intros num_str is_float self s f self'.
  assert (Hstop : Ok (num_str, is_float, self) = Ok (s, f, self') ->
    keeps self self' /\
    list_ascii_of_string s = list_ascii_of_string num_str ++ text self self' /\
    Forall (fun c => isdigit c || is_dot c = true) (text self self') /\
    length (List.filter is_dot (text self self')) + Nat.b2n is_float =
      Nat.b2n f).
  { intros [= <- <- <-]. rewrite text_nil, app_nil_r.
    split; [apply keeps_refl|]. by do 2 (split; [done|]). }
  destruct (current_char self) as [c|] eqn:Hc.
  2:{ intros H. destruct (Hstop H) as (? & ? & ? & ?).
      do 4 (split; [done|]). intros ? [=]. }
  assert (Hgo : forall b,
    isdigit c || is_dot c = true ->
    Nat.b2n (is_dot c) + Nat.b2n is_float = Nat.b2n b ->
    read_number_loop fuel (append_char num_str c) b (advance self) =
      Ok (s, f, self') ->
    keeps self self' /\
    list_ascii_of_string s = list_ascii_of_string num_str ++ text self self' /\
    Forall (fun c => isdigit c || is_dot c = true) (text self self') /\
    length (List.filter is_dot (text self self')) + Nat.b2n is_float =
      Nat.b2n f /\
    (forall c0, Some c = Some c0 -> isdigit c0 = true ->
                position self < position self')).
  { intros b Hok Hb H.
    destruct (IH _ _ _ _ _ _ H) as (Hk & Hs & Hall & Hdots & _).
    pose proof (keeps_scans _ _ Hk) as Hsc.
    rewrite (text_step _ _ _ Hc Hsc).
    split; [by apply keeps_step|].
    split; [by rewrite Hs, chars_append_char, <- app_assoc|].
    split; [by constructor|].
    split.
    - cbn [List.filter]. destruct (is_dot c); cbn in *; lia.
    - intros _ _ _. destruct Hsc as [_ _ Hp].
      rewrite (advance_position _ _ Hc) in Hp. lia. }
  fold (is_dot c).
  destruct (is_dot c) eqn:Hd.
  - rewrite orb_true_r. destruct is_float; [discriminate|].
    apply Hgo; [by rewrite orb_true_r|done].
  - rewrite orb_false_r. destruct (isdigit c) eqn:Hdig.
    + apply Hgo; [done|]. cbn. lia.
    + intros H. destruct (Hstop H) as (? & ? & ? & ?).
      do 4 (split; [done|]). intros ? [= <-]. congruence.
Qed.

Lemma read_identifier_loop_reads fuel : forall identifier self s self',
  read_identifier_loop fuel identifier self = Ok (s, self') ->
  keeps self self' /\
  list_ascii_of_string s = list_ascii_of_string identifier ++ text self self' /\
  Forall (fun c => isalnum c || Ascii.eqb c "_" = true) (text self self') /\
  (forall c, current_char self = Some c ->
             isalnum c || Ascii.eqb c "_" = true ->
             position self < position self').
Proof.
  partial_loop fuel. intros identifier self s self'.
  destruct (current_char self) as [c|] eqn:Hc.
  2:{ intros [= <- <-]. rewrite text_nil, app_nil_r.
      split; [apply keeps_refl|]. do 2 (split; [done|]). intros ? [=]. }
  destruct (isalnum c || Ascii.eqb c "_") eqn:Hok.
  - intros H. destruct (IH _ _ _ _ H) as (Hk & Hs & Hall & _).
    pose proof (keeps_scans _ _ Hk) as Hsc.
    rewrite (text_step _ _ _ Hc Hsc).
    split; [by apply keeps_step|].
    split; [by rewrite Hs, chars_append_char, <- app_assoc|].
    split; [by constructor|].
    intros _ _ _. destruct Hsc as [_ _ Hp].
    rewrite (advance_position _ _ Hc) in Hp. lia.
  - intros [= <- <-]. rewrite text_nil, app_nil_r.
    split; [apply keeps_refl|]. do 2 (split; [done|]).
    intros ? [= <-]. congruence.
Qed.

Lemma read_string_loop_keeps fuel : forall string_ self s self',
  read_string_loop fuel string_ self = Ok (s, self') -> keeps self self'.
Proof.
  partial_loop fuel. intros string_ self s self'.
  destruct (current_char self) as [c|]; [|intros [= <- <-]; apply keeps_refl].
  destruct (negb _); [|intros [= <- <-]; apply keeps_refl].
  destruct (_ && _); intros H.
  - apply keeps_step, keeps_step. by eapply IH.
  - apply keeps_step. by eapply IH.
Qed.

(** ** One turn of the loop *)

Lemma increasing_snoc offsets b :
  increasing offsets -> Forall (fun p => p < b) offsets ->
  increasing (offsets ++ [b]).
Proof.
  intros Hinc Hall i j p q Hij Hi Hj.
  assert (Hjlen : j < length (offsets ++ [b])) by by eapply lookup_lt_Some.
  rewrite length_app in Hjlen. cbn in Hjlen.
  rewrite lookup_app_l in Hi by lia.
  destruct (decide (j < length offsets)) as [Hlt|Hge].
  - rewrite lookup_app_l in Hj by done. exact (Hinc i j p q Hij Hi Hj).
  - rewrite lookup_app_r in Hj by lia.
    replace (j - length offsets) with 0 in Hj by lia. cbn in Hj.
    injection Hj as <-. rewrite Forall_forall in Hall. apply Hall.
    by eapply list_elem_of_lookup_2.
Qed.

Lemma lexed_keeps self self' : lexed self -> keeps self self' -> lexed self'.
Proof.
  intros [Ht (offsets & Hp & Hinc & Hall)] [[Hs Htok Hpos] Hk].
  split; [auto|]. exists offsets. rewrite Hs, Htok.
  split; [done|]. split; [done|].
  eapply Forall_impl; [exact Hall|]. cbn. lia.
Qed.

(** A token read at the position of [s0] and appended once the scanner has
    moved on to [s1]. *)
Lemma lexed_append s0 s1 tok :
  lexed s0 -> keeps s0 s1 -> position s0 < position s1 ->
  placed (source s0) (position s0) tok ->
  lexed (append_token tok s1).
Proof.
  intros [Ht (offsets & Hp & Hinc & Hall)] [[Hs Htok Hpos] Hk] Hlt Hplaced.
  split.
  - destruct (Hk Ht) as [? ? ?]. by split.
  - exists (offsets ++ [position s0]). cbn [append_token source tokens position].
    rewrite Hs, Htok. split; [|split].
    + apply Forall2_app; [done|]. by constructor.
    + by apply increasing_snoc.
    + apply Forall_app. split; [|by constructor].
      eapply Forall_impl; [exact Hall|]. cbn. lia.
Qed.

Lemma advance_append_token tok self :
  advance (append_token tok self) = append_token tok (advance self).
Proof.
  unfold advance, append_token. cbn.
  destruct (source self !! position self) as [c|]; [|done].
  by destruct (Ascii.eqb c newline).
Qed.

Lemma text_head self self' c :
  current_char self = Some c -> position self < position self' ->
  exists rest, text self self' = c :: rest.
Proof.
  intros Hc Hlt. unfold text. unfold current_char in Hc.
  rewrite (drop_S _ _ _ Hc).
  destruct (position self' - position self) as [|k] eqn:E; [lia|].
  cbn. eauto.
Qed.

Lemma text_prefix self self' :
  text self self' `prefix_of` drop (position self) (source self).
Proof.
  unfold text. eexists. symmetry. apply take_drop.
Qed.

Lemma placed_number fuel s0 tok s1 c :
  tracked s0 -> current_char s0 = Some c -> isdigit c = true ->
  read_number fuel s0 = Ok (tok, s1) ->
  keeps s0 s1 /\ position s0 < position s1 /\
  placed (source s0) (position s0) tok.
Proof.
  intros Ht Hc Hd. unfold read_number.
  destruct (read_number_loop fuel "" false s0) as [[[num f] s]| |] eqn:E;
    cbn; try discriminate.
  intros [= <- <-].
  destruct (read_number_loop_reads _ _ _ _ _ _ _ E)
    as (Hk & Hs & Hall & Hdots & Hp).
  specialize (Hp c Hc Hd). cbn in Hs.
  split; [done|]. split; [done|]. destruct Ht as [Hl Hcol _].
  split; cbn; [done|done|]. right. unfold chars. cbn. rewrite Hs.
  split; [apply text_prefix|].
  split; [by destruct (text_head _ _ _ Hc Hp) as [rest ->]|].
  left. split; unfold chars; cbn; rewrite Hs; [done|].
  destruct f; cbn in Hdots.
  - right. split; [done|lia].
  - left. split; [done|]. apply length_zero_iff_nil. lia.
Qed.

Lemma placed_identifier fuel s0 tok s1 c :
  tracked s0 -> current_char s0 = Some c ->
  isalpha c || Ascii.eqb c "_" = true ->
  read_identifier fuel s0 = Ok (tok, s1) ->
  keeps s0 s1 /\ position s0 < position s1 /\
  placed (source s0) (position s0) tok.
Proof.
  intros Ht Hc Hd. unfold read_identifier.
  destruct (read_identifier_loop fuel "" s0) as [[identifier s]| |] eqn:E;
    cbn; try discriminate.
  intros [= <- <-].
  destruct (read_identifier_loop_reads _ _ _ _ _ E) as (Hk & Hs & Hall & Hp).
  specialize (Hp c Hc (isalpha_isalnum _ Hd)). cbn in Hs.
  split; [done|]. split; [done|]. destruct Ht as [Hl Hcol _].
  destruct (text_head _ _ _ Hc Hp) as [rest Hrest].
  split; cbn; [done|done|]. right. unfold chars. cbn. rewrite Hs.
  split; [apply text_prefix|].
  split; [by rewrite Hrest|].
  right. left. split; unfold chars; cbn; rewrite Hs; [done|].
  split; [|done]. exists c. by rewrite Hrest.
Qed.

Lemma placed_string fuel s0 tok s1 :
  tracked s0 -> current_char s0 = Some dquote ->
  read_string fuel s0 = Ok (tok, s1) ->
  keeps s0 s1 /\ position s0 < position s1 /\
  placed (source s0) (position s0) tok.
Proof.
  intros Ht Hc. unfold read_string. cbv zeta.
  destruct (read_string_loop fuel "" (advance s0)) as [[v s]| |] eqn:E;
    cbn; try discriminate.
  destruct (current_char s) eqn:Hs; [|discriminate].
  intros [= <- <-].
  pose proof (read_string_loop_keeps _ _ _ _ _ E) as Hk.
  assert (Hk1 : keeps s0 (advance s)).
  { apply keeps_step. eapply keeps_trans; [exact Hk|apply keeps_advance]. }
  split; [done|]. split.
  - destruct Hk as [[_ _ Hp] _]. rewrite (advance_position _ _ Hc) in Hp.
    pose proof (advance_scans s) as [_ _ ?]. lia.
  - destruct Ht as [Hl Hcol _]. split; cbn; [done|done|]. by left.
Qed.

Lemma no_short_two_char c : dict_get two_char_tokens (char_str c) = None.
Proof.
  destruct c as [[] [] [] [] [] [] [] []]; reflexivity.
Qed.

Lemma tokenize_step_lexed fuel self next :
  lexed self -> tokenize_step fuel self = Ok next ->
  match next with
  | inl self' => lexed self' /\ source self' = source self
  | inr self' =>
      lexed self' /\ source self' = source self /\ current_char self' = None
  end.
Proof.
  intros Hl. unfold tokenize_step.
  destruct (skip_whitespace fuel self) as [s0| |] eqn:E0; cbn;
    try discriminate.
  pose proof (skip_whitespace_keeps _ _ _ E0) as Hk0.
  pose proof (lexed_keeps _ _ Hl Hk0) as Hl0.
  assert (Hsrc : source s0 = source self) by apply Hk0.
  assert (Ht0 : tracked s0) by apply Hl0.
  destruct (current_char s0) as [char|] eqn:Hc; [|by intros [= <-]].
  destruct (Ascii.eqb char "/" && _).
  { destruct (skip_comment fuel s0) as [s1| |] eqn:E1; cbn; try discriminate.
    intros [= <-]. pose proof (skip_comment_keeps _ _ _ E1) as Hk1.
    split; [by eapply lexed_keeps|]. destruct Hk1 as [[-> _ _] _]. done. }
  assert (Hread : forall tok s1,
    keeps s0 s1 /\ position s0 < position s1 /\
    placed (source s0) (position s0) tok ->
    lexed (append_token tok s1) /\
    source (append_token tok s1) = source self).
  { intros tok s1 (Hk & Hp & Hplaced). split; [by eapply lexed_append|].
    cbn. destruct Hk as [[-> _ _] _]. done. }
  destruct (isdigit char) eqn:Hd.
  { destruct (read_number fuel s0) as [[tok s1]| |] eqn:E1; cbn;
      try discriminate.
    intros [= <-]. by eapply Hread, placed_number. }
  destruct (isalpha char || Ascii.eqb char "_") eqn:Ha.
  { destruct (read_identifier fuel s0) as [[tok s1]| |] eqn:E1; cbn;
      try discriminate.
    intros [= <-]. by eapply Hread, placed_identifier. }
  destruct (Ascii.eqb_spec char dquote) as [->|Hq].
  { destruct (read_string fuel s0) as [[tok s1]| |] eqn:E1; cbn;
      try discriminate.
    intros [= <-]. by eapply Hread, placed_string. }
  cbv beta iota zeta. unfold current_char in Hc.
  destruct (dict_get two_char_tokens _) as [t2|] eqn:H2.
  { intros [= <-]. rewrite !advance_append_token.
    destruct (peek_char s0) as [n|] eqn:Hn;
      [|change (char_str char +:+ "") with (char_str char) in H2;
        by rewrite no_short_two_char in H2].
    unfold peek_char in Hn.
    assert (Hp1 : position (advance s0) = position s0 + 1)
      by by apply (advance_position _ char).
    assert (Hp2 : position (advance (advance s0)) = position s0 + 2).
    { rewrite (advance_position _ n); [lia|]. unfold current_char.
      pose proof (advance_scans s0) as [-> _ _]. by rewrite Hp1. }
    apply Hread. split; [apply keeps_step, keeps_advance|].
    split; [lia|]. destruct Ht0 as [Hline Hcol _].
    split; cbn; [done|done|]. right. unfold chars. cbn.
    split; [|split; [done|]].
    - rewrite (drop_S _ _ _ Hc), <- Nat.add_1_r, (drop_S _ _ _ Hn).
      by eexists.
    - right. right. by left. }
  destruct (dict_get single_char_tokens _) as [t1|] eqn:H1; [|discriminate].
  intros [= <-]. rewrite advance_append_token.
  apply Hread. split; [apply keeps_advance|].
  split; [rewrite (advance_position _ char); [lia|done]|].
  destruct Ht0 as [Hline Hcol _].
  split; cbn; [done|done|]. right. unfold chars. cbn.
  split; [|split; [done|]].
  - rewrite (drop_S _ _ _ Hc). by eexists.
  - right. right. by right.
Qed.

Lemma tokenize_loop_lexed fuel budget : forall self self',
  lexed self -> tokenize_loop fuel budget self = Ok self' ->
  lexed self' /\ source self' = source self /\ current_char self' = None.
Proof.
  induction fuel as [|fuel IH]; intros self self' Hl; [discriminate|].
  cbn. destruct (current_char self) eqn:Hc; [|by intros [= <-]].
  destruct (tokenize_step budget self) as [next| |] eqn:E; cbn;
    try discriminate.
  pose proof (tokenize_step_lexed _ _ _ Hl E) as Hnext.
  destruct next as [s1|s1].
  - destruct Hnext as [Hl1 Hs1]. intros H.
    destruct (IH _ _ Hl1 H) as (? & ? & ?). split; [done|].
    split; [congruence|done].
  - by intros [= <-].
Qed.

Lemma init_lexed source_code : lexed (init source_code).
Proof.
  split.
  - split; cbn; [done|done|lia].
  - exists []. cbn. split; [constructor|]. split; [|constructor].
    intros i j p q _ Hi. by rewrite lookup_nil in Hi.
Qed.

Lemma tokenize_end (source_code : string) :
  match tokenize source_code with
  | Ok toks =>
      exists self',
        lexed self' /\
        source self' = list_ascii_of_string source_code /\
        position self' = length (source self') /\
        toks = tokens self' ++ [mkToken EOF "" (line self') (column self')]
  | _ => True
  end.
Proof.
  unfold tokenize, tokenize_from.
  destruct (tokenize_loop _ _ (init source_code)) as [self'| |] eqn:E;
    cbn [bind]; [|done..].
  destruct (tokenize_loop_lexed _ _ _ _ (init_lexed source_code) E)
    as (Hlexed & Hsrc & Hend).
  cbn [init source] in Hsrc.
  unfold current_char in Hend. apply lookup_ge_None in Hend.
  exists self'. split; [done|]. split; [done|]. split; [|done].
  destruct Hlexed as [[_ _ Hpos] _]. lia.
Qed.

(** Tokens are where they say.  When [tokenize] returns, every token but the
    last was read at an offset of the text: its line and column are those of
    the offset, counted from 1, and the offsets grow strictly along the
    list.  The text of a number, a word or an operator is the text of the
    source at its offset; a string literal opens there with a double quote.
    The last token is the EOF token, with the coordinates of the end of the
    text. *)
Theorem tokens_are_placed (source_code : string) :
  let src := list_ascii_of_string source_code in
  match tokenize source_code with
  | Ok toks =>
      exists front offsets,
        toks = front ++ [mkToken EOF "" (line_of src) (column_of src)] /\
        Forall2 (placed src) offsets front /\
        increasing offsets /\
        Forall (fun p => p < length src) offsets
  | _ => True
  end.
Proof.
  cbv zeta. pose proof (tokenize_end source_code) as H.
  destruct (tokenize source_code) as [toks| |]; [|done..].
  destruct H as (self' & [[Hline Hcol _] (offsets & Hplaced & Hinc & Hall)]
                   & Hsrc & Hp & ->).
  rewrite Hp, firstn_all in Hline, Hcol. rewrite Hsrc in *.
  exists (tokens self'), offsets. rewrite Hline, Hcol.
  split; [done|]. split; [done|]. split; [done|]. by rewrite Hp in Hall.
Qed.

End LexerPlacementFacts.

(* ===================================================================== *)
(** * The scanner and the lexical grammar *)
(* ===================================================================== *)

Module LexerGrammarFacts.
Import Lexer LexerSpec LexerPlacement LexerGrammar LexerFacts.
Local Open Scope lex_scope.
#[local] Arguments dict_get : simpl never.

(** ** The scanner on the text that remains *)










Lemma leaves_bind {A B} (P : A -> Prop) (Q : B -> Prop) failure
      (r : result A) (k : A -> result B) :
  leaves P failure r ->
  (forall a, P a -> leaves Q failure (k a)) ->
  leaves Q failure (bind r k).
Proof. destruct r; cbn; auto. Qed.

Lemma leaves_weaken {A} (P Q : A -> Prop) failure (r : result A) :
  leaves P None r -> (forall a, P a -> Q a) -> leaves Q failure r.
Proof.
  destruct r; cbn; auto. intros (k & [=] & _).
Qed.





(** ** Items *)


Lemma meets_failure s k' k : item_at s = Failure k' -> meets s k <-> k = k'.
Proof.
  intros H. split.
  - inversion 1; congruence.
  - intros ->. by apply meets_here.
Qed.







End LexerGrammarFacts.

(* ===================================================================== *)
(** * Termination of the parser *)
(* ===================================================================== *)

Module ParserTermination.
Import Lexer Ast Parser ParserSpec.
Local Open Scope parse_scope.

Lemma is_type_true a b : is_type a b = true -> a = b.
Proof. apply bool_decide_eq_true. Qed.

Lemma is_type_false a b : is_type a b = false -> a <> b.
Proof. apply bool_decide_eq_false. Qed.

Lemma matched_not_EOF l t :
  existsb (is_type EOF) l = false -> existsb (is_type t) l = true -> t <> EOF.
Proof. intros H1 H2 ->. congruence. Qed.

Lemma current_type_eq self tok :
  current_token self = Some tok -> current_type self = Ok (tok_type tok).
Proof. unfold current_type. by intros ->. Qed.

Lemma current_value_eq self tok :
  current_token self = Some tok -> current_value self = Ok (tok_value tok).
Proof. unfold current_value. by intros ->. Qed.

Lemma match_eq l self tok :
  current_token self = Some tok ->
  match_ l self = Ok (existsb (is_type (tok_type tok)) l).
Proof. unfold match_. intros H. by rewrite (current_type_eq _ _ H). Qed.

Section Tokens.
Variable T : Token -> Prop.

Lemma wf_token self :
  well_formed T self -> exists tok, current_token self = Some tok /\ T tok.
Proof.
  intros [Hp Hc _ HT]. rewrite Hc.
  destruct (lookup_lt_is_Some_2 _ _ Hp) as [tok Htok]. exists tok.
  split; [done|]. rewrite Forall_forall in HT. apply HT.
  by eapply list_elem_of_lookup_2.
Qed.

Lemma after_refl self : well_formed T self -> after T self 0 self.
Proof. intros H. split; [done|done|lia]. Qed.

Lemma after_trans a b c d1 d2 :
  after T a d1 b -> after T b d2 c -> after T a (d1 + d2) c.
Proof. intros [H1 H2 H3] [K1 K2 K3]. split; [congruence|done|lia]. Qed.

Lemma after_weaken self d d' self' :
  after T self d self' -> d' <= d -> after T self d' self'.
Proof. intros [H1 H2 H3] Hd. split; [done|done|lia]. Qed.

Lemma after_left self d self' :
  after T self d self' -> tokens_left self' + d <= tokens_left self.
Proof.
  intros [H1 [H2 _ _ _] H3]. unfold tokens_left. rewrite H1 in *. lia.
Qed.

(** Past a token that is not EOF there is another token. *)
Lemma not_last self tok :
  well_formed T self -> current_token self = Some tok -> tok_type tok <> EOF ->
  position self < length (tokens self) - 1.
Proof.
  intros [Hp Hc (eof & Hlast & Heof) _] Htok Hne.
  destruct (decide (position self = length (tokens self) - 1)) as [E|]; [|lia].
  rewrite Hc, E in Htok. rewrite last_lookup in Hlast.
  replace (Init.Nat.pred (length (tokens self)))
    with (length (tokens self) - 1) in Hlast by lia.
  congruence.
Qed.

Lemma advance_after self tok :
  well_formed T self -> current_token self = Some tok -> tok_type tok <> EOF ->
  after T self 1 (advance self).
Proof.
  intros Hwf Htok Hne. pose proof (not_last _ _ Hwf Htok Hne) as Hlt.
  unfold advance.
  destruct (Nat.ltb_spec (position self) (length (tokens self) - 1)); [|lia].
  destruct Hwf as [Hp Hc Hs HT]. split; cbn; [done| |lia].
  split; cbn; [lia|done|done|done].
Qed.

Lemma parsed_weaken {A} (P P' : A -> Prop) self d d' (r : result (A * Parser)) :
  parsed T P self d r -> d' <= d -> (forall a, P a -> P' a) ->
  parsed T P' self d' r.
Proof.
  destruct r as [[a s]| |]; cbn; [|done..].
  intros [H HP] Hd HPP. split; [by eapply after_weaken|auto].
Qed.

Lemma parsed_bind {A B} (P : A -> Prop) (Q : B -> Prop) self d1 d2 d
      (r : result (A * Parser)) (k : A * Parser -> result (B * Parser)) :
  parsed T P self d1 r ->
  (forall a s1, after T self d1 s1 -> P a -> parsed T Q s1 d2 (k (a, s1))) ->
  d <= d1 + d2 ->
  parsed T Q self d (bind r k).
Proof.
  destruct r as [[a s1]|e|]; cbn; [|done..].
  intros [H1 HP] Hk Hd. specialize (Hk a s1 H1 HP).
  destruct (k (a, s1)) as [[b s2]|e|]; cbn in *; [|done..].
  destruct Hk as [H2 HQ]. split; [|done].
  eapply after_weaken; [by eapply after_trans|done].
Qed.

Lemma parsed_shift {A} (P : A -> Prop) self d0 s0 d d'
      (r : result (A * Parser)) :
  after T self d0 s0 -> parsed T P s0 d r -> d' <= d0 + d ->
  parsed T P self d' r.
Proof.
  destruct r as [[a s1]|e|]; cbn; [|done..].
  intros H0 [H1 HP] Hd. split; [|done].
  eapply after_weaken; [by eapply after_trans|done].
Qed.

Lemma expect_parsed token_type self :
  well_formed T self -> token_type <> EOF ->
  parsed T (fun _ => True) self 1 (expect token_type self).
Proof.
  intros Hwf Hne. destruct (wf_token _ Hwf) as (tok & Htok & _).
  unfold expect. rewrite Htok.
  destruct (is_type (tok_type tok) token_type) eqn:E; cbn [negb].
  - apply is_type_true in E. cbn. split; [|done].
    apply (advance_after _ tok); congruence.
  - unfold error. cbn. done.
Qed.

End Tokens.

Ltac token self tok Htok HT :=
  match goal with
  | Hwf : well_formed _ self |- _ =>
      destruct (wf_token _ self Hwf) as (tok & Htok & HT);
      try rewrite (current_type_eq _ _ Htok);
      try rewrite (current_value_eq _ _ Htok);
      try rewrite !(match_eq _ _ _ Htok);
      cbn [bind]
  end.

Ltac seq P d1 d2 a s H HP :=
  eapply (parsed_bind _ P _ _ d1 d2);
  [ | intros a s H HP; cbn [fst snd]; cbv beta iota zeta;
      let Hl := fresh "Hleft" in
      let Hw := fresh "Hwf" in
      pose proof (after_left _ _ _ _ H) as Hl;
      assert (Hw : well_formed _ s) by apply H
    | lia ].

Ltac here :=
  cbn [parsed fst snd];
  split;
  [ match goal with
    | H : after _ _ _ ?s |- after _ ?s 0 ?s => apply after_refl, H
    | H : well_formed _ ?s |- after _ ?s 0 ?s => apply after_refl, H
    end
  | ].

Ltac forward self tok Htok s Ha :=
  assert (Ha : after _ self 1 (advance self))
    by (eapply (advance_after _ _ tok); [eassumption|eassumption|congruence]);
  let Hl := fresh "Hleft" in
  let Hw := fresh "Hwf" in
  pose proof (after_left _ _ _ _ Ha) as Hl;
  assert (Hw : well_formed _ (advance self)) by apply Ha;
  eapply (parsed_shift _ _ _ 1 _ 0); [exact Ha| |lia];
  generalize dependent (advance self); intros s; intros.

Ltac level := intros t; destruct t; cbn; done.

Lemma unary_matched t :
  existsb (is_type t) [MINUS; LOGICAL_NOT] = true -> unary_type t = true.
Proof. destruct t; cbn; done. Qed.

(** ** Expressions *)

Section Expressions.
Variable py_int : string -> option Z.
Variable py_float : string -> option string.
Variable fuel : nat.
Variable rec : Parser -> result (Expression * Parser).
Variable B U : string -> bool.

Local Notation "'T'" := (token_ok B U).
Local Notation "'W'" := (well_formed (token_ok B U)).
Local Notation "'E'" := (fun e : Expression => operators_ok B U e = true).

Hypothesis Hrec : forall self,
  W self -> tokens_left self + 1 <= fuel -> parsed T E self 1 (rec self).

Lemma parse_primary_parsed self :
  W self -> tokens_left self <= fuel ->
  parsed T E self 1 (parse_primary py_int py_float rec self).
Proof.
  intros Hwf Hfuel. unfold parse_primary. token self tok Htok HT.
  destruct (is_type (tok_type tok) INTEGER_LITERAL) eqn:E1.
  { apply is_type_true in E1. destruct (py_int _); [|done].
    split; [|done]. apply (advance_after _ _ tok); congruence. }
  destruct (is_type (tok_type tok) FLOAT_LITERAL) eqn:E2.
  { apply is_type_true in E2. destruct (py_float _); [|done].
    split; [|done]. apply (advance_after _ _ tok); congruence. }
  destruct (is_type (tok_type tok) STRING_LITERAL) eqn:E3.
  { apply is_type_true in E3.
    split; [|done]. apply (advance_after _ _ tok); congruence. }
  destruct (is_type (tok_type tok) IDENTIFIER) eqn:E4.
  { apply is_type_true in E4.
    split; [|done]. apply (advance_after _ _ tok); congruence. }
  destruct (is_type (tok_type tok) LPAREN) eqn:E5; [|done].
  apply is_type_true in E5. forward self tok Htok s0 Ha.
  seq E 1 0 e s1 H1 He; [apply Hrec; [done|lia]|].
  seq (fun _ : Token => True) 1 0 t s2 H2 Ht; [by apply expect_parsed|].
  by here.
Qed.

Lemma parse_arguments_loop_parsed n : forall arguments self,
  W self -> tokens_left self <= n -> n <= fuel ->
  forallb (operators_ok B U) arguments = true ->
  parsed T (fun args => forallb (operators_ok B U) args = true) self 0
         (parse_arguments_loop rec n arguments self).
Proof.
  induction n as [|n IH]; intros arguments self Hwf Hn Hfuel Hargs.
  - destruct Hwf as [Hp _ _ _]. unfold tokens_left in Hn. lia.
  - cbn [parse_arguments_loop]. token self tok Htok HT.
    destruct (is_type (tok_type tok) COMMA) eqn:E0; [|by here].
    apply is_type_true in E0. forward self tok Htok s0 Ha.
    seq E 1 0 e s1 H1 He; [apply Hrec; [done|lia]|].
    apply IH; [done|lia|lia|].
    rewrite forallb_app, Hargs. cbn. by rewrite He.
Qed.

Lemma parse_postfix_parsed self :
  W self -> tokens_left self <= fuel ->
  parsed T E self 1 (parse_postfix py_int py_float fuel rec self).
Proof.
  intros Hwf Hfuel. unfold parse_postfix.
  seq E 1 0 expr s1 H1 He; [by apply parse_primary_parsed|].
  token s1 tok Htok HT.
  destruct (is_type (tok_type tok) LPAREN) eqn:E0; [|by here].
  apply is_type_true in E0.
  destruct expr; try done.
  forward s1 tok Htok s2 Ha.
  token s2 tok2 Htok2 HT2.
  seq (fun args => forallb (operators_ok B U) args = true) 0 0 args s3 H3 Hargs.
  - destruct (is_type (tok_type tok2) RPAREN); cbn [negb]; [by here|].
    seq E 1 0 e s3 H3 He3; [apply Hrec; [done|lia]|].
    apply parse_arguments_loop_parsed; [done|lia|lia|].
    cbn. by rewrite He3.
  - seq (fun _ : Token => True) 1 0 t s4 H4 Ht; [by apply expect_parsed|].
    by here.
Qed.

Lemma parse_unary_rec_parsed n : forall self,
  W self -> tokens_left self <= n -> n <= fuel ->
  parsed T E self 1 (parse_unary_rec py_int py_float fuel rec n self).
Proof.
  induction n as [|n IH]; intros self Hwf Hn Hfuel.
  - destruct Hwf as [Hp _ _ _]. unfold tokens_left in Hn. lia.
  - cbn [parse_unary_rec]. token self tok Htok HT.
    destruct (existsb (is_type (tok_type tok)) [MINUS; LOGICAL_NOT]) eqn:E0.
    + assert (Hop : U (tok_value tok) = true)
        by (apply HT; by apply unary_matched).
      apply (matched_not_EOF [MINUS; LOGICAL_NOT] _ eq_refl) in E0.
      forward self tok Htok s0 Ha.
      seq E 1 0 e s1 H1 He; [apply IH; [done|lia|lia]|].
      here. cbn [operators_ok]. by rewrite Hop, He.
    + apply parse_postfix_parsed; [done|lia].
Qed.

Lemma binary_loop_parsed operators operand n :
  existsb (is_type EOF) operators = false -> level_known operators ->
  ends B U fuel operand ->
  forall left_ self,
    W self -> tokens_left self <= n -> n <= fuel ->
    operators_ok B U left_ = true ->
    parsed T E self 0 (binary_loop operators operand n left_ self).
Proof.
  intros Hops Hknown Hoperand.
  induction n as [|n IH]; intros left_ self Hwf Hn Hfuel Hleft.
  - destruct Hwf as [Hp _ _ _]. unfold tokens_left in Hn. lia.
  - cbn [binary_loop]. token self tok Htok HT.
    destruct (existsb (is_type (tok_type tok)) operators) eqn:E0;
      [|by here].
    assert (Hop : B (tok_value tok) = true) by (apply HT; by apply Hknown).
    apply (matched_not_EOF _ _ Hops) in E0.
    forward self tok Htok s0 Ha.
    seq E 1 0 e s1 H1 He; [apply Hoperand; [done|lia]|].
    apply IH; [done|lia|lia|]. cbn [operators_ok fst].
    by rewrite Hop, Hleft, He.
Qed.

Lemma binary_level_ends operators operand :
  existsb (is_type EOF) operators = false -> level_known operators ->
  ends B U fuel operand ->
  ends B U fuel (binary_level fuel operators operand).
Proof.
  intros Hops Hknown Hoperand self Hwf Hfuel. unfold binary_level.
  seq E 1 0 e s1 H1 He; [by apply Hoperand|].
  apply binary_loop_parsed; [done|done|done|done|lia|lia|done].
Qed.

Lemma parse_logical_or_ends :
  ends B U fuel (parse_logical_or py_int py_float fuel rec).
Proof.
  repeat (apply binary_level_ends; [reflexivity|level|]).
  intros self Hwf Hfuel. by apply parse_unary_rec_parsed.
Qed.

Lemma parse_expression_body_parsed self :
  W self -> tokens_left self <= fuel ->
  parsed T E self 1 (parse_expression_body py_int py_float fuel rec self).
Proof.
  intros Hwf Hfuel. unfold parse_expression_body.
  seq E 1 0 expr s1 H1 He; [by apply parse_logical_or_ends|].
  token s1 tok Htok HT.
  destruct (is_type (tok_type tok) ASSIGN) eqn:E0; [|by here].
  apply is_type_true in E0. destruct expr; try done.
  forward s1 tok Htok s2 Ha.
  seq E 1 0 e s3 H3 He3; [apply Hrec; [done|lia]|]. by here.
Qed.

End Expressions.

(** [parse_expression] ends when its fuel exceeds the tokens left. *)
Lemma parse_expression_parsed B U py_int py_float fuel : forall self,
  well_formed (token_ok B U) self -> tokens_left self + 1 <= fuel ->
  parsed (token_ok B U) (fun e => operators_ok B U e = true) self 1
         (parse_expression py_int py_float fuel self).
Proof.
  induction fuel as [|fuel IH]; intros self Hwf Hfuel; [lia|].
  cbn [parse_expression].
  apply parse_expression_body_parsed; [exact IH|done|lia].
Qed.

(** ** Declarations and statements *)

Section Statements.
Variable py_int : string -> option Z.
Variable py_float : string -> option string.
Variable fuel : nat.
Variable rec : Parser -> result (Statement * Parser).
Variable B U : string -> bool.

Local Notation "'T'" := (token_ok B U).
Local Notation "'W'" := (well_formed (token_ok B U)).
Local Notation "'S'" := (fun s : Statement => statement_ok B U s = true).
Local Notation "'D'" := (fun d : Declaration => declaration_ok B U d = true).
Local Notation "'Any'" := (fun _ : Token => True).

Hypothesis Hrec : forall self,
  W self -> tokens_left self + 2 <= fuel -> parsed T S self 1 (rec self).

Lemma optional_expression_parsed (test : bool) self :
  W self -> tokens_left self + 1 <= fuel ->
  parsed T (fun e => option_ok B U e = true) self 0
    (if test then
       r <- parse_expression py_int py_float fuel self ;;
       Ok (Some (fst r), snd r)
     else Ok (None, self)).
Proof.
  intros Hwf Hfuel. destruct test; [|by here].
  seq (fun e => operators_ok B U e = true) 1 0 e s1 H1 He;
    [by apply parse_expression_parsed|].
  by here.
Qed.

Lemma parse_parameter_list_loop_parsed n : forall parameters self,
  W self -> tokens_left self <= n ->
  parsed T (fun _ => True) self 1
         (parse_parameter_list_loop n parameters self).
Proof.
  induction n as [|n IH]; intros parameters self Hwf Hn.
  - destruct Hwf as [Hp _ _ _]. unfold tokens_left in Hn. lia.
  - cbn [parse_parameter_list_loop]. token self tok Htok HT.
    destruct (existsb (is_type (tok_type tok)) [INT; FLOAT; CHAR]) eqn:E0;
      cbn [negb]; [|done].
    apply (matched_not_EOF [INT; FLOAT; CHAR] _ eq_refl) in E0.
    cbv zeta. forward self tok Htok s1 Ha.
    seq Any 1 0 t s2 H2 Ht; [by apply expect_parsed|].
    token s2 tok2 Htok2 HT2.
    destruct (is_type (tok_type tok2) COMMA) eqn:E2; cbn [negb];
      [|by here].
    apply is_type_true in E2. forward s2 tok2 Htok2 s3 Ha3.
    eapply parsed_weaken; [apply IH; [done|lia]|lia|done].
Qed.

Lemma parse_variable_declaration_parsed var_type name self :
  W self -> tokens_left self + 1 <= fuel ->
  parsed T (fun v => declaration_ok B U (DVar v) = true) self 1
    (parse_variable_declaration py_int py_float fuel var_type name self).
Proof.
  intros Hwf Hfuel. unfold parse_variable_declaration.
  token self tok Htok HT.
  seq (fun e => option_ok B U e = true) 0 1 i s1 H1 Hi.
  - destruct (is_type (tok_type tok) ASSIGN) eqn:E0; [|by here].
    apply is_type_true in E0. forward self tok Htok s0 Ha.
    seq (fun e => operators_ok B U e = true) 1 0 e s1 H1 He;
      [apply parse_expression_parsed; [done|lia]|].
    by here.
  - seq Any 1 0 t s2 H2 Ht; [by apply expect_parsed|]. by here.
Qed.

Lemma parse_statements_loop_parsed n : forall statements self,
  W self -> tokens_left self <= n -> tokens_left self + 2 <= fuel ->
  forallb (statement_ok B U) statements = true ->
  parsed T (fun l => forallb (statement_ok B U) l = true) self 0
         (parse_statements_loop rec n statements self).
Proof.
  induction n as [|n IH]; intros statements self Hwf Hn Hfuel Hacc.
  - destruct Hwf as [Hp _ _ _]. unfold tokens_left in Hn. lia.
  - cbn [parse_statements_loop]. token self tok Htok HT.
    destruct (is_type (tok_type tok) RBRACE); cbn [negb]; [by here|].
    seq S 1 0 st s1 H1 Hst; [by apply Hrec|].
    apply IH; [done|lia|lia|].
    rewrite forallb_app, Hacc. cbn. by rewrite Hst.
Qed.

Lemma parse_compound_statement_parsed self :
  W self -> tokens_left self + 1 <= fuel ->
  parsed T (fun l => forallb (statement_ok B U) l = true) self 1
         (parse_compound_statement fuel rec self).
Proof.
  intros Hwf Hfuel. unfold parse_compound_statement.
  seq Any 1 0 t s1 H1 Ht; [by apply expect_parsed|].
  seq (fun l => forallb (statement_ok B U) l = true) 0 0 sts s2 H2 Hsts;
    [apply parse_statements_loop_parsed; [done|lia|lia|done]|].
  seq Any 1 0 t2 s3 H3 Ht2; [by apply expect_parsed|]. by here.
Qed.

Lemma parse_function_declaration_parsed return_type name self :
  W self -> tokens_left self + 1 <= fuel ->
  parsed T (fun f => declaration_ok B U (DFunction f) = true) self 1
    (parse_function_declaration fuel rec return_type name self).
Proof.
  intros Hwf Hfuel. unfold parse_function_declaration.
  seq Any 1 0 t s1 H1 Ht; [by apply expect_parsed|].
  token s1 tok1 Htok1 HT1.
  seq (fun _ : list FunParameter => True) 0 0 ps s2 H2 Hps.
  { destruct (is_type (tok_type tok1) RPAREN); cbn [negb]; [by here|].
    eapply parsed_weaken;
      [apply parse_parameter_list_loop_parsed; [done|lia]|lia|done]. }
  seq Any 1 0 t2 s3 H3 Ht2; [by apply expect_parsed|].
  token s3 tok3 Htok3 HT3.
  seq (fun b : option (list Statement) =>
         match b with
         | Some l => forallb (statement_ok B U) l = true
         | None => True
         end) 0 0 b s4 H4 Hb.
  - destruct (is_type (tok_type tok3) LBRACE).
    + seq (fun l => forallb (statement_ok B U) l = true) 1 0 sts s4 H4 Hsts;
        [apply parse_compound_statement_parsed; [done|lia]|].
      by here.
    + seq Any 1 0 t4 s4 H4 Ht4; [by apply expect_parsed|]. by here.
  - here. unfold declaration_ok. cbn. by destruct b.
Qed.

Lemma parse_declaration_parsed self :
  W self -> tokens_left self + 1 <= fuel ->
  parsed T D self 1 (parse_declaration py_int py_float fuel rec self).
Proof.
  intros Hwf Hfuel. unfold parse_declaration. token self tok Htok HT.
  destruct (existsb (is_type (tok_type tok)) [INT; FLOAT; CHAR; VOID]) eqn:E0;
    cbn [negb]; [|done].
  apply (matched_not_EOF [INT; FLOAT; CHAR; VOID] _ eq_refl) in E0.
  cbv zeta. forward self tok Htok s1 Ha.
  seq Any 1 0 t s2 H2 Ht; [by apply expect_parsed|].
  token s2 tok2 Htok2 HT2.
  destruct (is_type (tok_type tok2) LPAREN).
  - seq (fun f => declaration_ok B U (DFunction f) = true) 1 0 f s3 H3 Hf;
      [apply parse_function_declaration_parsed; [done|lia]|]. by here.
  - seq (fun v => declaration_ok B U (DVar v) = true) 1 0 v s3 H3 Hv;
      [apply parse_variable_declaration_parsed; [done|lia]|]. by here.
Qed.

Lemma parse_return_statement_parsed self :
  W self -> tokens_left self + 1 <= fuel ->
  parsed T S self 1 (parse_return_statement py_int py_float fuel self).
Proof.
  intros Hwf Hfuel. unfold parse_return_statement.
  seq Any 1 0 t s1 H1 Ht; [by apply expect_parsed|].
  token s1 tok1 Htok1 HT1.
  seq (fun e => option_ok B U e = true) 0 0 e s2 H2 He;
    [apply optional_expression_parsed; [done|lia]|].
  seq Any 1 0 t2 s3 H3 Ht2; [by apply expect_parsed|]. by here.
Qed.

Lemma parse_expression_statement_parsed self :
  W self -> tokens_left self + 1 <= fuel ->
  parsed T S self 1
         (parse_expression_statement py_int py_float fuel self).
Proof.
  intros Hwf Hfuel. unfold parse_expression_statement.
  token self tok Htok HT.
  destruct (is_type (tok_type tok) SEMICOLON) eqn:E0.
  - apply is_type_true in E0. cbn. split; [|done].
    apply (advance_after _ _ tok); congruence.
  - seq (fun e => operators_ok B U e = true) 1 0 e s1 H1 He;
      [by apply parse_expression_parsed|].
    seq Any 1 0 t s2 H2 Ht; [by apply expect_parsed|]. by here.
Qed.

Lemma parse_if_statement_parsed self :
  W self -> tokens_left self + 1 <= fuel ->
  parsed T S self 1 (parse_if_statement py_int py_float fuel rec self).
Proof.
  intros Hwf Hfuel. unfold parse_if_statement.
  seq Any 1 0 t s1 H1 Ht; [by apply expect_parsed|].
  seq Any 1 0 t2 s2 H2 Ht2; [by apply expect_parsed|].
  seq (fun e => operators_ok B U e = true) 1 0 c s3 H3 Hc;
    [apply parse_expression_parsed; [done|lia]|].
  seq Any 1 0 t4 s4 H4 Ht4; [by apply expect_parsed|].
  seq S 1 0 th s5 H5 Hth; [apply Hrec; [done|lia]|].
  token s5 tok5 Htok5 HT5.
  seq (fun e : option Statement =>
         match e with Some s => statement_ok B U s = true | None => True end)
      0 0 el s6 H6 Hel.
  - destruct (is_type (tok_type tok5) ELSE) eqn:E0; [|by here].
    apply is_type_true in E0. forward s5 tok5 Htok5 s6 Ha.
    seq S 1 0 st s7 H7 Hst; [apply Hrec; [done|lia]|]. by here.
  - here. cbn [statement_ok]. rewrite Hc, Hth. by destruct el.
Qed.

Lemma parse_while_statement_parsed self :
  W self -> tokens_left self + 1 <= fuel ->
  parsed T S self 1 (parse_while_statement py_int py_float fuel rec self).
Proof.
  intros Hwf Hfuel. unfold parse_while_statement.
  seq Any 1 0 t s1 H1 Ht; [by apply expect_parsed|].
  seq Any 1 0 t2 s2 H2 Ht2; [by apply expect_parsed|].
  seq (fun e => operators_ok B U e = true) 1 0 c s3 H3 Hc;
    [apply parse_expression_parsed; [done|lia]|].
  seq Any 1 0 t4 s4 H4 Ht4; [by apply expect_parsed|].
  seq S 1 0 b s5 H5 Hb; [apply Hrec; [done|lia]|].
  here. cbn [statement_ok]. by rewrite Hc, Hb.
Qed.

Lemma parse_for_statement_parsed self :
  W self -> tokens_left self + 1 <= fuel ->
  parsed T S self 1 (parse_for_statement py_int py_float fuel rec self).
Proof.
  intros Hwf Hfuel. unfold parse_for_statement.
  seq Any 1 0 t s1 H1 Ht; [by apply expect_parsed|].
  seq Any 1 0 t2 s2 H2 Ht2; [by apply expect_parsed|].
  token s2 tok2 Htok2 HT2.
  seq (fun e : option Statement =>
         match e with Some s => statement_ok B U s = true | None => True end)
      0 0 i s3 H3 Hi.
  { destruct (existsb (is_type (tok_type tok2)) [INT; FLOAT; CHAR]).
    - seq D 1 0 d s3 H3 Hd; [apply parse_declaration_parsed; [done|lia]|].
      by here.
    - destruct (is_type (tok_type tok2) SEMICOLON) eqn:E0; cbn [negb].
      + apply is_type_true in E0. cbn. split; [|done].
        eapply after_weaken; [apply (advance_after _ _ tok2); congruence|lia].
      + seq S 1 0 st s3 H3 Hst;
          [apply parse_expression_statement_parsed; [done|lia]|]. by here. }
  token s3 tok3 Htok3 HT3.
  seq (fun e => option_ok B U e = true) 0 0 c s4 H4 Hc;
    [apply optional_expression_parsed; [done|lia]|].
  seq Any 1 0 t5 s5 H5 Ht5; [by apply expect_parsed|].
  token s5 tok5 Htok5 HT5.
  seq (fun e => option_ok B U e = true) 0 0 u s6 H6 Hu;
    [apply optional_expression_parsed; [done|lia]|].
  seq Any 1 0 t7 s7 H7 Ht7; [by apply expect_parsed|].
  seq S 1 0 b s8 H8 Hb; [apply Hrec; [done|lia]|].
  here. cbn [statement_ok]. rewrite Hc, Hu, Hb. by destruct i as [?|]; [rewrite Hi|].
Qed.

Lemma parse_statement_body_parsed self :
  W self -> tokens_left self + 1 <= fuel ->
  parsed T S self 1 (parse_statement_body py_int py_float fuel rec self).
Proof.
  intros Hwf Hfuel. unfold parse_statement_body. token self tok Htok HT.
  destruct (existsb (is_type (tok_type tok)) [INT; FLOAT; CHAR]).
  { seq D 1 0 d s1 H1 Hd; [by apply parse_declaration_parsed|]. by here. }
  destruct (is_type (tok_type tok) RETURN);
    [by apply parse_return_statement_parsed|].
  destruct (is_type (tok_type tok) IF); [by apply parse_if_statement_parsed|].
  destruct (is_type (tok_type tok) WHILE);
    [by apply parse_while_statement_parsed|].
  destruct (is_type (tok_type tok) FOR); [by apply parse_for_statement_parsed|].
  destruct (is_type (tok_type tok) LBRACE).
  { seq (fun l => forallb (statement_ok B U) l = true) 1 0 sts s1 H1 Hsts;
      [by apply parse_compound_statement_parsed|]. by here. }
  by apply parse_expression_statement_parsed.
Qed.

(** The loop of [parse] ends on an EOF token. *)
Lemma parse_loop_parsed n : forall declarations self,
  W self -> tokens_left self <= n -> tokens_left self + 1 <= fuel ->
  forallb (declaration_ok B U) declarations = true ->
  match parse_loop py_int py_float fuel rec n declarations self with
  | Ok (ds, self') =>
      after T self 0 self' /\ at_EOF self' /\
      forallb (declaration_ok B U) ds = true
  | Raise e => e <> AttributeError
  | OutOfFuel => False
  end.
Proof.
  induction n as [|n IH]; intros declarations self Hwf Hn Hfuel Hacc.
  - destruct Hwf as [Hp _ _ _]. unfold tokens_left in Hn. lia.
  - cbn [parse_loop]. token self tok Htok HT.
    destruct (is_type (tok_type tok) EOF) eqn:E0; cbn [negb].
    + apply is_type_true in E0. split; [by apply after_refl|].
      split; [by exists tok|done].
    + pose proof (parse_declaration_parsed self Hwf Hfuel) as Hd.
      destruct (parse_declaration _ _ _ _ self) as [[d s1]|e|];
        cbn [bind parsed] in *; [|done..].
      destruct Hd as [H1 Hd]. pose proof (after_left _ _ _ _ H1).
      specialize (IH (declarations ++ [d]) s1).
      cbn [fst snd].
      destruct (parse_loop _ _ _ _ n _ s1) as [[ds s2]|e|]; cbn in *.
      * destruct IH as (H2 & Heof & Hds); [apply H1|lia|lia| |].
        { rewrite forallb_app, Hacc. cbn. by rewrite Hd. }
        split; [|done]. eapply after_weaken; [by eapply after_trans|lia].
      * apply IH; [apply H1|lia|lia|].
        rewrite forallb_app, Hacc. cbn. by rewrite Hd.
      * apply IH; [apply H1|lia|lia|].
        rewrite forallb_app, Hacc. cbn. by rewrite Hd.
Qed.

End Statements.

(** [parse_statement] ends when its fuel exceeds the tokens left by two. *)
Lemma parse_statement_parsed B U py_int py_float fuel : forall self,
  well_formed (token_ok B U) self -> tokens_left self + 2 <= fuel ->
  parsed (token_ok B U) (fun s => statement_ok B U s = true) self 1
         (parse_statement py_int py_float fuel self).
Proof.
  induction fuel as [|fuel IH]; intros self Hwf Hfuel; [lia|].
  cbn [parse_statement].
  apply parse_statement_body_parsed; [exact IH|done|lia].
Qed.

Lemma init_well_formed T toks :
  (exists eof, last toks = Some eof /\ tok_type eof = EOF) ->
  Forall T toks ->
  well_formed T (init toks).
Proof.
  intros (eof & Hlast & Heof) HT. split; cbn; [|done|by exists eof|done].
  destruct toks; [done|cbn; lia].
Qed.

Lemma parse_run B U py_int py_float toks :
  (exists eof, last toks = Some eof /\ tok_type eof = EOF) ->
  Forall (token_ok B U) toks ->
  match parse py_int py_float (S (length toks)) (init toks) with
  | Ok (program, self') =>
      tokens self' = toks /\ at_EOF self' /\ program_ok B U program = true
  | Raise e => e <> AttributeError
  | OutOfFuel => False
  end.
Proof.
  intros Hlast HT. unfold parse.
  pose proof (parse_loop_parsed py_int py_float (S (length toks))
                (parse_statement py_int py_float (S (length toks))) B U
                (parse_statement_parsed _ _ _ _ _)
                (S (length toks)) [] (init toks)
                (init_well_formed _ _ Hlast HT)) as H.
  unfold tokens_left in H. cbn [init tokens position] in H.
  destruct (parse_loop _ _ _ _ _ _ _) as [[ds s']|e|]; cbn [bind fst snd].
  - destruct H as ([Ht _ _] & Heof & Hds); [lia|lia|done|]. done.
  - apply H; [lia|lia|done].
  - apply H; [lia|lia|done].
Qed.

(** The parser ends.  On a token list that ends with an EOF token, [parse]
    with one unit of fuel more than there are tokens does not run out of
    fuel: the loops and the recursion of the parser end.  It raises no
    [AttributeError], its current token being never [None]; when it
    returns, the token list is unchanged and the parser stands on an EOF
    token. *)
Theorem parse_ends (py_int : string -> option Z)
        (py_float : string -> option string) (toks : list Token) :
  (exists eof, last toks = Some eof /\ tok_type eof = EOF) ->
  match parse py_int py_float (S (length toks)) (init toks) with
  | Ok (program, self') => tokens self' = toks /\ at_EOF self'
  | Raise e => e <> AttributeError
  | OutOfFuel => False
  end.
Proof.
  intros Hlast.
  pose proof (parse_run (fun _ => true) (fun _ => true) py_int py_float toks
                Hlast) as H.
  destruct (parse _ _ _ _) as [[program self']|e|].
  - destruct H as (H1 & H2 & _); [|done]. by apply Forall_forall.
  - apply H. by apply Forall_forall.
  - apply H. by apply Forall_forall.
Qed.

Lemma parse_ends_witness :
  let toks := Samples.scan "int main() { return 1 + 2; }" in
  (exists eof, last toks = Some eof /\ tok_type eof = EOF) /\
  match parse int_of_digits Some (S (length toks)) (init toks) with
  | Ok (program, self') => tokens self' = toks /\ at_EOF self'
  | Raise e => e <> AttributeError
  | OutOfFuel => False
  end.
Proof.
  cbv zeta. split.
  - vm_compute. eexists. split; reflexivity.
  - apply (parse_ends int_of_digits Some).
    vm_compute. eexists. split; reflexivity.
Defined.

Lemma spelled_token_ok tok :
  spelled tok ->
  token_ok (fun op => in_list op binary_operators)
           (fun op => in_list op unary_operators) tok.
Proof.
  intros Hs. split; intros Ht.
  - destruct (tok_type tok) eqn:E; try discriminate;
      match goal with
      | |- in_list (tok_value tok) _ = true =>
          first
            [ rewrite (Hs "+") by (rewrite E; cbn; tauto); reflexivity
            | rewrite (Hs "-") by (rewrite E; cbn; tauto); reflexivity
            | rewrite (Hs "*") by (rewrite E; cbn; tauto); reflexivity
            | rewrite (Hs "/") by (rewrite E; cbn; tauto); reflexivity
            | rewrite (Hs "%") by (rewrite E; cbn; tauto); reflexivity
            | rewrite (Hs "==") by (rewrite E; cbn; tauto); reflexivity
            | rewrite (Hs "!=") by (rewrite E; cbn; tauto); reflexivity
            | rewrite (Hs "<") by (rewrite E; cbn; tauto); reflexivity
            | rewrite (Hs ">") by (rewrite E; cbn; tauto); reflexivity
            | rewrite (Hs "<=") by (rewrite E; cbn; tauto); reflexivity
            | rewrite (Hs ">=") by (rewrite E; cbn; tauto); reflexivity
            | rewrite (Hs "&&") by (rewrite E; cbn; tauto); reflexivity
            | rewrite (Hs "||") by (rewrite E; cbn; tauto); reflexivity ]
      end.
  - destruct (tok_type tok) eqn:E; try discriminate.
    + rewrite (Hs "-") by (rewrite E; cbn; tauto). reflexivity.
    + rewrite (Hs "!") by (rewrite E; cbn; tauto). reflexivity.
Qed.

(** Operators of the syntax tree.  If the operator tokens of the list carry
    the text that the scanner's tables give for their type, every operator
    of the program that [parse] returns is one of the thirteen binary or the
    two unary operators of the language: the later stages meet no other. *)
Theorem parsed_operators_are_known (py_int : string -> option Z)
        (py_float : string -> option string) (toks : list Token)
        (program : Program) (self' : Parser) :
  (exists eof, last toks = Some eof /\ tok_type eof = EOF) ->
  Forall spelled toks ->
  parse py_int py_float (S (length toks)) (init toks) = Ok (program, self') ->
  program_known program = true.
Proof.
  intros Hlast HT Hrun.
  pose proof (parse_run (fun op => in_list op binary_operators)
                (fun op => in_list op unary_operators)
                py_int py_float toks Hlast) as H.
  rewrite Hrun in H. apply H.
  eapply Forall_impl; [exact HT|]. apply spelled_token_ok.
Qed.

Lemma parsed_operators_are_known_witness :
  let toks := Samples.scan "int main() { return 1 + 2; }" in
  (exists eof, last toks = Some eof /\ tok_type eof = EOF) /\
  Forall spelled toks /\
  match parse int_of_digits Some (S (length toks)) (init toks) with
  | Ok (program, self') => program_known program = true
  | _ => False
  end.
Proof.
  cbv zeta.
  assert (Hlast : exists eof,
             last (Samples.scan "int main() { return 1 + 2; }") = Some eof /\
             tok_type eof = EOF).
  { vm_compute. eexists. split; reflexivity. }
  assert (HT : Forall spelled (Samples.scan "int main() { return 1 + 2; }")).
  { vm_compute Samples.scan.
    repeat (apply List.Forall_cons; [intros lexeme H; cbn in H;
      repeat (destruct H as [H|H]; [try discriminate H; by injection H|]);
      done|]).
    apply List.Forall_nil. }
  split; [exact Hlast|]. split; [exact HT|].
  destruct (parse int_of_digits Some _ _) as [[program self']|e|] eqn:E.
  - exact (parsed_operators_are_known int_of_digits Some _ program self'
             Hlast HT E).
  - vm_compute in E. discriminate E.
  - vm_compute in E. discriminate E.
Defined.

(** The EOF token is needed.  [advance] does nothing on the last token of
    the list.  When that token is a semicolon, the loop of
    [parse_compound_statement] reads it as an empty statement again and
    again: with every amount of fuel, for the loop and for the recursion,
    it runs out of fuel, so the loop of the source does not end. *)
Theorem block_needs_EOF (py_int : string -> option Z)
        (py_float : string -> option string) (depth n : nat)
        (statements : list Statement) (self : Parser) (tok : Token) :
  length (tokens self) - 1 <= position self ->
  current_token self = Some tok ->
  tok_type tok = SEMICOLON ->
  parse_statements_loop (parse_statement py_int py_float depth) n statements
                        self = OutOfFuel.
Proof.
  intros Hpos Hcur Htok. revert statements.
  induction n as [|n IH]; intros statements; [done|].
  cbn [parse_statements_loop].
  unfold current_type. rewrite Hcur, Htok.
  cbn.
  destruct depth as [|depth]; [done|].
  cbn [parse_statement]. unfold parse_statement_body, match_, current_type.
  rewrite Hcur, Htok. cbn.
  unfold parse_expression_statement, current_type.
  rewrite Hcur, Htok. cbn.
  assert (advance self = self) as ->.
  { unfold advance. by rewrite (proj2 (Nat.ltb_ge _ _) Hpos). }
  apply IH.
Qed.

Lemma block_needs_EOF_witness :
  let self := init [mkToken SEMICOLON ";" 1 1] in
  length (tokens self) - 1 <= position self /\
  current_token self = Some (mkToken SEMICOLON ";" 1 1) /\
  tok_type (mkToken SEMICOLON ";" 1 1) = SEMICOLON /\
  parse_statements_loop (parse_statement int_of_digits Some 5) 7 [] self
    = OutOfFuel.
Proof.
  cbv zeta. split; [cbn; lia|]. split; [reflexivity|]. split; [reflexivity|].
  apply (block_needs_EOF int_of_digits Some 5 7 [] _
           (mkToken SEMICOLON ";" 1 1)); [cbn; lia|reflexivity|reflexivity].
Defined.

End ParserTermination.

(* ===================================================================== *)
(** * Scopes and diagnostics of the semantic analyzer *)
(* ===================================================================== *)

Module ScopeFacts.
Import Ast AstFacts Semantic SemanticSpec ScopeSpec SemanticFacts.
Local Open Scope sem_scope.

(** ** The symbol table *)

Lemma scopes_snoc (self : SymbolTable) :
  scopes self <> [] ->
  exists below top, scopes self = below ++ [top].
Proof.
  intros H. destruct (scopes self) as [|x l] using rev_ind; [done|]. eauto.
Qed.

Lemma declare_on_top below top name symbol_type self :
  scopes self = below ++ [top] ->
  SymbolTable_.declare name symbol_type self =
  match top !! name with
  | Some _ => (Raise (SemanticError (already_declared name)), self)
  | None =>
      let symbol := mkSymbol name symbol_type (current_scope self) in
      (Return tt,
       {| scopes := below ++ [<[name := symbol]> top];
          current_scope := current_scope self;
          recorded := recorded self ++ [symbol] |})
  end.
Proof.
  intros E. unfold SymbolTable_.declare. rewrite E, last_snoc.
  destruct (top !! name); [done|]. cbv zeta. do 2 f_equal.
  rewrite length_app. cbn [length].
  replace (length below + 1 - 1) with (length below + 0) by lia.
  by rewrite insert_app_r.
Qed.

Lemma declare_returns_inv name symbol_type self self' :
  SymbolTable_.declare name symbol_type self = (Return tt, self') ->
  exists below top,
    scopes self = below ++ [top] /\ top !! name = None /\
    self' = {| scopes := below ++ [<[name := mkSymbol name symbol_type
                                                      (current_scope self)]> top];
               current_scope := current_scope self;
               recorded := recorded self ++
                           [mkSymbol name symbol_type (current_scope self)] |}.
Proof.
  intros H. destruct (scopes self) as [|x l] eqn:E using rev_ind.
  - unfold SymbolTable_.declare in H. by rewrite E in H.
  - clear IHl. rewrite (declare_on_top l x) in H by done.
    destruct (x !! name) eqn:Hx; [done|]. exists l, x.
    cbv zeta in H. injection H as <-. done.
Qed.

Lemma lookup_on_top below top name self :
  scopes self = below ++ [top] ->
  SymbolTable_.lookup name self =
  match top !! name with
  | Some symbol => Some symbol
  | None => SymbolTable_.lookup_frames (rev below) name
  end.
Proof.
  intros E. unfold SymbolTable_.lookup. by rewrite E, rev_unit.
Qed.

(** Insert then look up.  When [declare] returns, [lookup] of the name
    yields the symbol just stored, with the type given and the scope label
    current at the time, and [get_all_symbols] lists it. *)
Theorem declare_then_lookup (name symbol_type : string)
        (self self' : SymbolTable) :
  SymbolTable_.declare name symbol_type self = (Return tt, self') ->
  SymbolTable_.lookup name self' =
    Some (mkSymbol name symbol_type (current_scope self)) /\
  In (mkSymbol name symbol_type (current_scope self))
     (SymbolTable_.get_all_symbols self').
Proof.
  intros H.
  destruct (declare_returns_inv _ _ _ _ H) as (below & top & E & Hfresh & ->).
  split.
  - rewrite (lookup_on_top below (<[name := _]> top)) by done.
    by rewrite lookup_insert_eq.
  - unfold SymbolTable_.get_all_symbols. cbn [scopes].
    apply in_flat_map. eexists. split; [apply in_or_app; right; by left|].
    apply list_elem_of_In, list_elem_of_fmap.
    exists (name, mkSymbol name symbol_type (current_scope self)).
    split; [done|]. apply elem_of_map_to_list. by rewrite lookup_insert_eq.
Qed.

Lemma declare_then_lookup_witness :
  SymbolTable_.declare "x" "int" SymbolTable_.init =
    (Return tt, snd (SymbolTable_.declare "x" "int" SymbolTable_.init)) /\
  SymbolTable_.lookup "x" (snd (SymbolTable_.declare "x" "int" SymbolTable_.init)) =
    Some (mkSymbol "x" "int" "global").
Proof.
  split; [reflexivity|].
  apply (declare_then_lookup "x" "int" SymbolTable_.init). reflexivity.
Defined.

(** A name is declared once per scope.  After [declare] has returned for a
    name, a second [declare] of the name in the same scope, whatever the
    type, raises [SemanticError] with the text of the redeclaration and
    leaves the table as it was. *)
Theorem redeclaration_is_refused (name type1 type2 : string)
        (self self' : SymbolTable) :
  SymbolTable_.declare name type1 self = (Return tt, self') ->
  SymbolTable_.declare name type2 self' =
    (Raise (SemanticError (already_declared name)), self').
Proof.
  intros H.
  destruct (declare_returns_inv _ _ _ _ H) as (below & top & E & Hfresh & ->).
  rewrite (declare_on_top below (<[name := _]> top)) by done.
  by rewrite lookup_insert_eq.
Qed.

Lemma redeclaration_is_refused_witness :
  SymbolTable_.declare "x" "float"
    (snd (SymbolTable_.declare "x" "int" SymbolTable_.init)) =
  (Raise (SemanticError "Variable 'x' already declared in this scope"),
   snd (SymbolTable_.declare "x" "int" SymbolTable_.init)).
Proof.
  apply (redeclaration_is_refused "x" "int" "float" SymbolTable_.init).
  reflexivity.
Defined.

(** Shadowing.  In a scope just entered any name can be declared, also one
    that an enclosing scope holds; [lookup] then yields the inner symbol,
    labelled with the scope entered. *)
Theorem inner_declaration_shadows (scope_name name symbol_type : string)
        (self : SymbolTable) :
  let inside :=
    SymbolTable_.declare name symbol_type
      (SymbolTable_.enter_scope scope_name self) in
  fst inside = Return tt /\
  SymbolTable_.lookup name (snd inside) =
    Some (mkSymbol name symbol_type scope_name).
Proof.
  cbv zeta.
  rewrite (declare_on_top (scopes self) ∅) by done.
  rewrite lookup_empty. cbv zeta. split; [done|].
  cbn [snd]. erewrite lookup_on_top by done. by rewrite lookup_insert_eq.
Qed.

Lemma declare_all_on_top ds : forall below top self,
  scopes self = below ++ [top] ->
  exists top', scopes (declare_all ds self) = below ++ [top'].
Proof.
  induction ds as [|[name symbol_type] ds IH]; intros below top self E.
  - by exists top.
  - cbn [declare_all fold_left fst snd].
    rewrite (declare_on_top below top) by done.
    destruct (top !! name); cbv zeta; cbn [snd].
    + by apply (IH below top).
    + by eapply IH.
Qed.

(** Leaving a scope undoes it.  From a table with one frame or more, enter
    a scope, declare any names, leave the scope: the frames are those of
    the start, so every name looks up as it did before. *)
Theorem scope_is_undone_on_exit (scope_name : string)
        (ds : list (string * string)) (self : SymbolTable) :
  scopes self <> [] ->
  let after :=
    SymbolTable_.exit_scope
      (declare_all ds (SymbolTable_.enter_scope scope_name self)) in
  scopes after = scopes self /\
  forall name, SymbolTable_.lookup name after = SymbolTable_.lookup name self.
Proof.
  intros Hne. cbv zeta.
  destruct (declare_all_on_top ds (scopes self) ∅
              (SymbolTable_.enter_scope scope_name self) eq_refl) as [top' E].
  assert (Hs : scopes (SymbolTable_.exit_scope
                 (declare_all ds (SymbolTable_.enter_scope scope_name self))) =
               scopes self).
  { unfold SymbolTable_.exit_scope. rewrite E, length_app. cbn [length].
    destruct (scopes self) as [|g rest] eqn:Eg; [done|].
    destruct (Nat.ltb_spec 1 (length (g :: rest) + 1)); [|cbn in *; lia].
    cbn [scopes]. by rewrite removelast_last. }
  split; [exact Hs|]. intros name. unfold SymbolTable_.lookup. by rewrite Hs.
Qed.

Lemma scope_is_undone_on_exit_witness :
  scopes (SymbolTable_.exit_scope
            (declare_all [("i", "int")]
               (SymbolTable_.enter_scope "for" SymbolTable_.init))) =
  scopes SymbolTable_.init.
Proof.
  apply (scope_is_undone_on_exit "for" [("i", "int")] SymbolTable_.init).
  cbn. discriminate.
Defined.

Lemma lookup_frames_keyed frames name symbol :
  Forall keyed_by_name frames ->
  SymbolTable_.lookup_frames frames name = Some symbol ->
  sym_name symbol = name.
Proof.
  induction 1 as [|frame frames Hf _ IH]; [done|]. cbn.
  destruct (frame !! name) eqn:E; [|exact IH].
  intros [= <-]. by apply Hf.
Qed.

Lemma reachable_frames self :
  reachable self -> scopes self <> [] /\ Forall keyed_by_name (scopes self).
Proof.
  induction 1 as [|scope_name self _ [Hne Hk]|self _ [Hne Hk]
                  |name symbol_type self _ [Hne Hk]].
  - split; [done|]. constructor; [|done]. intros key symbol H.
    by rewrite lookup_empty in H.
  - cbn. split; [by destruct (scopes self)|].
    apply Forall_app. split; [done|]. constructor; [|done].
    intros key symbol H. by rewrite lookup_empty in H.
  - unfold SymbolTable_.exit_scope.
    destruct (Nat.ltb_spec 1 (length (scopes self))) as [Hlen|]; [|done].
    cbn. destruct (scopes_snoc self Hne) as (below & top & E).
    rewrite E in *. rewrite removelast_last.
    rewrite length_app in Hlen. cbn in Hlen.
    split; [destruct below; [cbn in Hlen; lia|done]|].
    by apply Forall_app in Hk as [? _].
  - destruct (scopes_snoc self Hne) as (below & top & E).
    rewrite (declare_on_top below top) by done.
    destruct (top !! name) eqn:Hf; cbv zeta; cbn [snd]; [done|].
    cbn [scopes]. split; [by destruct below|].
    rewrite E in Hk. apply Forall_app in Hk as [Hb Ht].
    apply Forall_app. split; [done|]. constructor; [|done].
    apply Forall_inv in Ht. intros key symbol.
    destruct (decide (key = name)) as [->|Hneq].
    + rewrite lookup_insert_eq. by intros [= <-].
    + rewrite lookup_insert_ne by done. apply Ht.
Qed.

(** Invariants of the symbol table.  Whatever methods were called on a new
    table, in whatever order, it has at least one frame: [exit_scope] does
    not pop the global frame.  So [declare] never fails on an empty stack,
    and the symbol that [lookup] finds for a name carries that name. *)
Theorem reachable_table_is_sound (self : SymbolTable) :
  reachable self ->
  scopes self <> [] /\
  (forall name symbol_type,
      fst (SymbolTable_.declare name symbol_type self) <> Raise IndexError) /\
  (forall name symbol,
      SymbolTable_.lookup name self = Some symbol -> sym_name symbol = name).
Proof.
  intros H. destruct (reachable_frames self H) as [Hne Hk].
  split; [done|]. split.
  - intros name symbol_type.
    destruct (scopes_snoc self Hne) as (below & top & E).
    rewrite (declare_on_top below top) by done. by destruct (top !! name).
  - intros name symbol. apply lookup_frames_keyed.
    by apply Forall_rev.
Qed.

Lemma reachable_table_is_sound_witness :
  scopes (SymbolTable_.exit_scope SymbolTable_.init) <> [].
Proof.
  apply (reachable_table_is_sound (SymbolTable_.exit_scope SymbolTable_.init)).
  apply reachable_exit_scope, reachable_init.
Defined.

(** ** Expressions *)

(** Expressions are only read.  Visiting an expression always returns a
    type: it raises nothing, leaves the symbol table and the return type of
    the current function as they are, and adds its diagnostics at the end of
    the error list. *)
Theorem visit_expression_reads_only (e : Expression) (self : SemanticAnalyzer) :
  exists expression_type,
    fst (visit_expression e self) = Return expression_type /\
    symbol_table (snd (visit_expression e self)) = symbol_table self /\
    current_function_return_type (snd (visit_expression e self)) =
      current_function_return_type self /\
    errors self `prefix_of` errors (snd (visit_expression e self)).
Proof.
  apply (visit_expression_returns
           (fun s => symbol_table s = symbol_table self /\
                     current_function_return_type s =
                       current_function_return_type self /\
                     errors self `prefix_of` errors s) e).
  - intros message s (H1 & H2 & H3). exists tt. split; [done|]. cbn.
    repeat split; [done..|]. by apply prefix_app_r.
  - done.
Qed.

Lemma kept_refl self : kept self self.
Proof. by split. Qed.

Lemma kept_trans a b c : kept a b -> kept b c -> kept a c.
Proof. intros [? ?] [? ?]. split; [congruence|by etrans]. Qed.

Lemma kept_length a b : kept a b -> length (errors a) <= length (errors b).
Proof. intros [_ H]. by apply prefix_length. Qed.

Lemma kept_error message self : kept self (snd (error message self)).
Proof. split; [done|]. cbn. by apply prefix_app_r. Qed.

Lemma returns_kept_error self message :
  returns (kept self) (error message) (kept self).
Proof.
  intros s H. exists tt. split; [done|].
  eapply kept_trans; [exact H|apply kept_error].
Qed.

Lemma visit_expression_kept e self :
  exists t, fst (visit_expression e self) = Return t /\
            kept self (snd (visit_expression e self)).
Proof.
  apply (visit_expression_returns (kept self) e);
    [apply returns_kept_error|apply kept_refl].
Qed.

Lemma visit_arguments_kept (args : list Expression) self :
  fst (for_each (fun arg => _ <- visit_expression arg ;; ret tt) args self) =
    Return tt /\
  kept self
    (snd (for_each (fun arg => _ <- visit_expression arg ;; ret tt) args self)).
Proof.
  destruct (returns_for_each (kept self)
              (fun arg => _ <- visit_expression arg ;; ret tt) args) with self
    as ([] & H1 & H2); [|apply kept_refl|done].
  apply Forall_forall. intros arg _.
  eapply returns_bind; [|intros; apply returns_ret].
  apply visit_expression_returns. intros message. apply returns_kept_error.
Qed.

Lemma error_grows message self :
  length (errors self) < length (errors (snd (error message self))).
Proof. cbn. rewrite length_app. cbn. lia. Qed.

Lemma lookup_kept name self s :
  kept self s ->
  SymbolTable_.lookup name (symbol_table s) =
  SymbolTable_.lookup name (symbol_table self).
Proof. by intros [-> _]. Qed.

Lemma visit_arguments_diagnose name (args : list Expression) :
  Forall (fun e => forall self,
            name ∈ names_used e ->
            SymbolTable_.lookup name (symbol_table self) = None ->
            length (errors self) <
              length (errors (snd (visit_expression e self)))) args ->
  forall self,
    name ∈ flat_map names_used args ->
    SymbolTable_.lookup name (symbol_table self) = None ->
    length (errors self) <
      length (errors (snd (for_each
                             (fun arg => _ <- visit_expression arg ;; ret tt)
                             args self))).
Proof.
  induction 1 as [|a args Ha _ IH]; intros self Hin Hnone.
  - by apply elem_of_nil in Hin.
  - cbn [flat_map] in Hin. apply elem_of_app in Hin.
    cbn [for_each].
    destruct (visit_expression_kept a self) as (t & Ht & Hk).
    rewrite (bind_return _ _ self tt)
      by (by rewrite (bind_return _ _ self t Ht)).
    rewrite (bind_return _ _ self t Ht). cbn [ret snd].
    destruct (visit_arguments_kept args (snd (visit_expression a self)))
      as [_ Hk'].
    destruct Hin as [Hin|Hin].
    + specialize (Ha self Hin Hnone). apply kept_length in Hk'. lia.
    + apply kept_length in Hk as Hle.
      specialize (IH (snd (visit_expression a self)) Hin).
      rewrite (lookup_kept _ _ _ Hk) in IH. specialize (IH Hnone). lia.
Qed.

(** Visiting an expression that uses a name [lookup] does not find adds
    an error, whichever branch of the visit meets it first. *)
Lemma used_name_not_found (e : Expression) (name : string) :
  forall self : SemanticAnalyzer,
    name ∈ names_used e ->
    SymbolTable_.lookup name (symbol_table self) = None ->
    length (errors self) < length (errors (snd (visit_expression e self))).
Proof.
  induction e as [op l r IHl IHr|op e IH|x|v|v|v|f args IH|target e IH]
    using Expression_nested_ind; intros self Hin Hnone;
    cbn [names_used] in Hin; cbn [visit_expression].
  - destruct (visit_expression_kept l self) as (tl & Hl & Kl).
    destruct (visit_expression_kept r (snd (visit_expression l self)))
      as (tr & Hr & Kr).
    rewrite (bind_return _ _ self tl Hl), (bind_return _ _ _ tr Hr).
    assert (Hgoal : length (errors self) <
                    length (errors (snd (visit_expression r
                                           (snd (visit_expression l self)))))).
    { apply elem_of_app in Hin as [Hin|Hin].
      - specialize (IHl self Hin Hnone). apply kept_length in Kr. lia.
      - apply kept_length in Kl as Hle.
        specialize (IHr (snd (visit_expression l self)) Hin).
        rewrite (lookup_kept _ _ _ Kl) in IHr. specialize (IHr Hnone). lia. }
    by repeat case_match.
  - destruct (visit_expression_kept e self) as (t & Ht & K).
    rewrite (bind_return _ _ self t Ht).
    specialize (IH self Hin Hnone). by repeat case_match.
  - apply list_elem_of_singleton in Hin as ->.
    unfold bind, lookup, get. cbn [fst snd]. rewrite Hnone. cbn.
    rewrite length_app. cbn. lia.
  - by apply elem_of_nil in Hin.
  - by apply elem_of_nil in Hin.
  - by apply elem_of_nil in Hin.
  - unfold bind at 1. unfold lookup, get.
    destruct (SymbolTable_.lookup f (symbol_table self)) as [symbol|] eqn:Hf.
    + destruct (String.prefix "function:" (sym_type symbol)) eqn:Hp;
        cbn [negb].
      * destruct (function_type_return_type _ Hp) as (rt & _ & ->). cbn [snd].
        destruct (visit_arguments_kept args self) as [Hr _].
        rewrite (bind_return _ _ self tt Hr). cbn [ret snd].
        apply elem_of_cons in Hin as [->|Hin]; [congruence|].
        by apply (visit_arguments_diagnose name).
      * cbn. rewrite length_app. cbn. lia.
    + cbn. rewrite length_app. cbn. lia.
  - unfold bind at 1. unfold lookup, get.
    destruct (SymbolTable_.lookup target (symbol_table self))
      as [symbol|] eqn:Ht.
    + apply elem_of_cons in Hin as [->|Hin]; [congruence|].
      destruct (visit_expression_kept e self) as (t & He & K).
      rewrite (bind_return _ _ self t He).
      specialize (IH self Hin Hnone).
      destruct (is_compatible_type (sym_type symbol) t); cbn; [done|].
      rewrite length_app. cbn. lia.
    + cbn. rewrite length_app. cbn. lia.
Qed.

(** An undefined name never passes silently.  If an expression uses a name,
    as a variable, as the target of an assignment or as the function of a
    call, that [lookup] does not find, then visiting the expression adds at
    least one diagnostic. *)
Theorem undefined_name_is_diagnosed (e : Expression) (name : string) :
  forall self : SemanticAnalyzer,
    name ∈ names_used e ->
    SymbolTable_.lookup name (symbol_table self) = None ->
    length (errors self) < length (errors (snd (visit_expression e self))).
Proof. apply used_name_not_found. Qed.

Lemma undefined_name_is_diagnosed_witness :
  length (errors init) <
  length (errors (snd (visit_expression
                         (BinaryOp "+" (IntLiteral 1) (Identifier "y")) init))).
Proof.
  apply (undefined_name_is_diagnosed _ "y").
  - cbn. apply list_elem_of_In. simpl. auto.
  - reflexivity.
Defined.

(** ** Top-level declarations *)

Lemma visit_declaration_split decl :
  visit_declaration decl =
  (try_except (declare (declared_name decl) (declared_type decl)) error ;;
   after_declare decl).
Proof. by destruct decl. Qed.

Lemma Top_Inv e0 g self : Top e0 g self -> Inv e0 [] 1 self.
Proof. intros [? Hg]. split; try done; by rewrite Hg. Qed.

Lemma returns_error_top e0 g message :
  returns (Top e0 g) (error message) (Top e0 g).
Proof.
  intros self [? ?]. exists tt. split; [done|].
  split; [by apply Steady_error|done].
Qed.

(** The rest of a declaration leaves the global frame as it is. *)
Lemma after_declare_returns e0 g decl :
  returns (Top e0 g) (after_declare decl) (Top e0 g).
Proof.
  destruct decl as [f|v]; cbn [after_declare].
  - destruct (body f) as [statements|]; [|apply returns_ret].
    intros self HT. pose proof HT as [_ Hg].
    destruct (returns_enter_scope e0 ("function:" +:+ fun_name f) [] 1 _
                (code_scope_label_function _) ltac:(lia)
                (fun stack Hstack =>
                   function_body_returns e0 (return_type f) (parameters f)
                     statements stack 1 Hstack ltac:(lia))
                [g] self (conj (Top_Inv _ _ _ HT) Hg))
      as (a & Ha & [HI _] & Hs).
    exists a. split; [done|]. split; [apply HI|done].
  - destruct (initializer v); [|apply returns_ret].
    eapply returns_bind.
    + apply visit_expression_returns. intros message.
      apply returns_error_top.
    + intros t. case_match; [apply returns_ret|apply returns_error_top].
Qed.

(** The declaration of a name at top level: refused with a diagnostic when
    the frame has the name, stored otherwise. *)
Lemma try_declare_top e0 g name symbol_type self :
  Top e0 g self ->
  exists self',
    try_except (declare name symbol_type) error self = (Return tt, self') /\
    match g !! name with
    | Some _ =>
        Top (errors self ++ [already_declared name]) g self'
    | None =>
        Top e0 (<[name := mkSymbol name symbol_type
                            (current_scope (symbol_table self))]> g) self'
    end.
Proof.
  intros [[H0 H1 H2] Hg].
  unfold try_except, declare, SymbolTable_.declare. rewrite Hg. cbn [last].
  destruct (g !! name) as [sym|] eqn:Hlook.
  - eexists. split; [reflexivity|]. by repeat split.
  - eexists. split; [reflexivity|]. repeat split; cbn; try done.
    apply Forall_app. split; [done|]. by constructor.
Qed.

Lemma Top_weaken e0 e1 g self :
  e0 `prefix_of` e1 -> Top e1 g self -> Top e0 g self.
Proof.
  intros He [[H0 H1 H2] Hg]. repeat split; try done. by etrans.
Qed.

(** One top-level declaration: the frame gains the name unless it has
    it. *)
Lemma visit_declaration_top e0 g decl self :
  Top e0 g self ->
  exists self',
    visit_declaration decl self = (Return tt, self') /\
    match g !! declared_name decl with
    | Some _ =>
        Top (errors self ++ [already_declared (declared_name decl)]) g self'
    | None =>
        exists label,
          Top e0 (<[declared_name decl :=
                      mkSymbol (declared_name decl) (declared_type decl) label]> g)
              self'
    end.
Proof.
  intros HT. rewrite visit_declaration_split.
  destruct (try_declare_top e0 g (declared_name decl) (declared_type decl)
              self HT) as (self1 & Hrun & H1).
  rewrite (bind_return _ _ self tt) by by rewrite Hrun.
  rewrite Hrun. cbn [snd].
  destruct (g !! declared_name decl).
  - destruct (after_declare_returns _ _ decl self1 H1) as ([] & Ha & H2).
    exists (snd (after_declare decl self1)). split; [|done].
    by destruct (after_declare decl self1) as [r0 s0]; cbn in *; subst.
  - destruct (after_declare_returns _ _ decl self1 H1) as ([] & Ha & H2).
    exists (snd (after_declare decl self1)). split; [|by eexists].
    by destruct (after_declare decl self1) as [r0 s0]; cbn in *; subst.
Qed.

(** The types in the global frame after a list of declarations. *)
Lemma visit_declarations_top ds : forall e0 g self,
  Top e0 g self ->
  exists self' g',
    for_each visit_declaration ds self = (Return tt, self') /\
    Top e0 g' self' /\
    forall name,
      sym_type <$> g' !! name =
      match g !! name with
      | Some symbol => Some (sym_type symbol)
      | None => first_declared ds name
      end.
Proof.
  induction ds as [|d ds IH]; intros e0 g self HT.
  - exists self, g. split; [done|]. split; [done|]. intros name.
    by destruct (g !! name).
  - cbn [for_each].
    destruct (visit_declaration_top e0 g d self HT) as (self1 & Hrun & H1).
    rewrite (bind_return _ _ self tt) by by rewrite Hrun.
    rewrite Hrun. cbn [snd].
    assert (Hpre : e0 `prefix_of` errors self) by apply HT.
    destruct (g !! declared_name d) as [symbol|] eqn:Hd.
    + apply (Top_weaken e0) in H1; [|by apply prefix_app_r].
      destruct (IH e0 g self1 H1) as (self' & g' & Hrun' & HT' & Hg').
      exists self', g'. split; [done|]. split; [done|]. intros name.
      rewrite Hg'. destruct (g !! name) eqn:Hn; [done|].
      unfold first_declared. cbn [List.find].
      destruct (String.eqb_spec (declared_name d) name) as [E|]; [|done].
      rewrite E in Hd. congruence.
    + destruct H1 as [label H1].
      destruct (IH e0 _ self1 H1) as (self' & g' & Hrun' & HT' & Hg').
      exists self', g'. split; [done|]. split; [done|]. intros name.
      rewrite Hg'. unfold first_declared. cbn [List.find].
      destruct (String.eqb_spec (declared_name d) name) as [E|Hne].
      * rewrite <- E, lookup_insert_eq, Hd. done.
      * rewrite lookup_insert_ne by done. done.
Qed.

Lemma Top_init : Top [] ∅ init.
Proof. split; [|done]. split; cbn; try done. left. by left. Qed.

(** The first declaration wins.  After the analysis of a program, whether
    it raises or not, [lookup] finds a name exactly when a top-level
    declaration declares it, and the type found is that of the first such
    declaration: a redeclaration is diagnosed and changes nothing. *)
Theorem first_declaration_wins (ast : Program) (name : string) :
  sym_type <$> SymbolTable_.lookup name (symbol_table (snd (analyze ast init))) =
  first_declared (declarations ast) name.
Proof.
  destruct (visit_declarations_top (declarations ast) [] ∅ init Top_init)
    as (self' & g' & Hrun & [_ Hg] & Htypes).
  fold (visit_program ast) in Hrun.
  destruct (analyze_run ast) as [_ ->]. rewrite Hrun. cbn [snd].
  unfold SymbolTable_.lookup. rewrite Hg. cbn [rev app SymbolTable_.lookup_frames].
  specialize (Htypes name). rewrite lookup_empty in Htypes.
  rewrite <- Htypes. by destruct (g' !! name).
Qed.

Lemma first_declared_Some ds name :
  name ∈ map declared_name ds -> is_Some (first_declared ds name).
Proof.
  unfold first_declared. induction ds as [|d ds IH]; cbn [map List.find].
  - intros H. by apply elem_of_nil in H.
  - intros [->|H]%elem_of_cons.
    + rewrite String.eqb_refl. by eexists.
    + destruct (String.eqb (declared_name d) name); [by eexists|by apply IH].
Qed.

(** A redeclared name is diagnosed.  If a top-level declaration declares a
    name that an earlier one declares, the error list of the analysis holds
    the redeclaration message for the name, and [analyze] raises. *)
Theorem duplicate_declaration_is_diagnosed
        (ds1 ds2 : list Declaration) (d : Declaration) :
  declared_name d ∈ map declared_name ds1 ->
  let ast := {| declarations := ds1 ++ d :: ds2 |} in
  In (already_declared (declared_name d)) (errors (snd (analyze ast init))) /\
  fst (analyze ast init) = Raise (SemanticError "Semantic analysis failed").
Proof.
  intros Hdup. cbv zeta.
  destruct (analyze_run {| declarations := ds1 ++ d :: ds2 |}) as [_ ->].
  cbn [fst snd]. unfold visit_program. cbn [declarations].
  destruct (visit_declarations_top ds1 [] ∅ init Top_init)
    as (self1 & g1 & Hrun1 & HT1 & Htypes).
  rewrite walk_for_each_app.
  rewrite (bind_return _ _ init tt) by by rewrite Hrun1.
  rewrite Hrun1. cbn [snd for_each].
  destruct (visit_declaration_top [] g1 d self1 HT1) as (self2 & Hrun2 & HT2).
  rewrite (bind_return _ _ self1 tt) by by rewrite Hrun2.
  rewrite Hrun2. cbn [snd].
  specialize (Htypes (declared_name d)). rewrite lookup_empty in Htypes.
  destruct (first_declared_Some ds1 _ Hdup) as [t Ht].
  rewrite Ht in Htypes.
  destruct (g1 !! declared_name d) as [symbol|]; [|done].
  destruct (visit_declarations_top ds2 _ g1 self2 HT2)
    as (self3 & g3 & Hrun3 & [[Hpre _ _] _] & _).
  rewrite Hrun3. cbn [snd].
  destruct Hpre as [more Hmore]. rewrite Hmore. split.
  - apply in_or_app. left. apply in_or_app. right. by left.
  - destruct (errors self1); done.
Qed.

Lemma duplicate_declaration_is_diagnosed_witness :
  fst (analyze {| declarations :=
                    [DVar (mkVarDecl "int" "x" None)] ++
                    DVar (mkVarDecl "float" "x" None) :: [] |} init) =
  Raise (SemanticError "Semantic analysis failed").
Proof.
  apply (duplicate_declaration_is_diagnosed
           [DVar (mkVarDecl "int" "x" None)] []
           (DVar (mkVarDecl "float" "x" None))).
  cbn. apply list_elem_of_In. simpl. auto.
Defined.

End ScopeFacts.

(* ===================================================================== *)
(** * The walk of the semantic analyzer *)
(* ===================================================================== *)

Module WalkFacts.
Import Ast AstFacts Semantic SemanticSpec ScopeSpec WalkSpec Samples.
Import SemanticFacts ScopeFacts.
Local Open Scope sem_scope.







Section Walk.
Variable D : list string.




Lemma counted_ret {A} (a : A) n : returns (Counted D n) (ret a) (Counted D n).
Proof. apply returns_ret. Qed.














End Walk.






End WalkFacts.

(* ===================================================================== *)
(** * Shape of the three-address code *)
(* ===================================================================== *)

Module IRShapeFacts.
Import Ast AstFacts IR IRSpec IRShape IRFacts.
Local Open Scope gen_scope.

Lemma jump_targets_app c1 c2 :
  jump_targets (c1 ++ c2) = jump_targets c1 ++ jump_targets c2.
Proof. apply flat_map_app. Qed.

Lemma shape_ret Q open {A} (a : A) : shape Q open [] (ret a).
Proof.
  intros self. exists []. cbn. rewrite app_nil_r.
  repeat split; [constructor|..]; intros l Hl; by apply elem_of_nil in Hl.
Qed.

Lemma shape_bind Q open p1 p2 {A B} (m : M A) (k : A -> M B) :
  shape Q open p1 m -> (forall a, shape Q open p2 (k a)) ->
  shape Q open (p1 ++ p2) (bind m k).
Proof.
  intros Hm Hk self. rewrite bind_run.
  destruct (Hm self) as (c1 & E1 & Q1 & J1 & P1).
  destruct (Hk (fst (m self)) (snd (m self))) as (c2 & E2 & Q2 & J2 & P2).
  exists (c1 ++ c2). rewrite E2, E1, app_assoc.
  split; [done|]. split; [by apply Forall_app|].
  rewrite jump_targets_app, label_defs_app. split.
  - intros l [Hl|Hl]%elem_of_app.
    + destruct (J1 l Hl); [left; apply elem_of_app|]; auto.
    + destruct (J2 l Hl); [left; apply elem_of_app|]; auto.
  - intros l [Hl|Hl]%elem_of_app; apply elem_of_app; auto.
Qed.

Lemma shape_weaken Q open open' placed placed' {A} (m : M A) :
  open ⊆ open' -> placed' ⊆ placed ->
  shape Q open placed m -> shape Q open' placed' m.
Proof.
  intros Ho Hp Hm self. destruct (Hm self) as (c & E & HQ & J & P).
  exists c. repeat split; [done..| |].
  - intros l Hl. destruct (J l Hl); auto.
  - intros l Hl. auto.
Qed.

(** Labels that the action places itself need not be open. *)
Lemma shape_close Q open placed {A} (m : M A) :
  shape Q (placed ++ open) placed m -> shape Q open placed m.
Proof.
  intros Hm self. destruct (Hm self) as (c & E & HQ & J & P).
  exists c. repeat split; [done..| |done].
  intros l Hl. destruct (J l Hl) as [|[|]%elem_of_app]; auto.
Qed.

Lemma shape_emit (Q : TACInstruction -> Prop) open i :
  Q i -> jump_target i ⊆ open -> shape Q open (defined_label i) (emit i).
Proof.
  intros HQ Hj self. exists [i]. cbn. rewrite !app_nil_r.
  repeat split; [by constructor| |done].
  intros l Hl. right. by apply Hj.
Qed.

Lemma shape_new_label Q open placed {A} (k : string -> M A) :
  (forall l, shape Q open placed (k l)) -> shape Q open placed (bind new_label k).
Proof.
  intros Hk self. rewrite bind_run.
  destruct (Hk (fst (new_label self)) (snd (new_label self)))
    as (c & E & HQ & J & P).
  exists c. by rewrite E.
Qed.

Lemma shape_new_temp Q open placed {A} (k : string -> M A) :
  (forall t, shape Q open placed (k t)) -> shape Q open placed (bind new_temp k).
Proof.
  intros Hk self. rewrite bind_run.
  destruct (Hk (fst (new_temp self)) (snd (new_temp self)))
    as (c & E & HQ & J & P).
  exists c. by rewrite E.
Qed.

Lemma shape_for_each Q open {A} (body : A -> M unit) l :
  Forall (fun x => shape Q open [] (body x)) l ->
  shape Q open [] (for_each body l).
Proof.
  induction 1 as [|x l Hx Hl IH]; [apply shape_ret|].
  cbn [for_each]. change (@nil string) with (@nil string ++ []).
  by apply shape_bind.
Qed.

Lemma shape_for_each_reversed Q open {A} (body : A -> M unit) l :
  Forall (fun x => shape Q open [] (body x)) l ->
  shape Q open [] (for_each_reversed body l).
Proof.
  induction 1 as [|x l Hx Hl IH]; [apply shape_ret|].
  cbn [for_each_reversed]. change (@nil string) with (@nil string ++ []).
  by apply shape_bind.
Qed.

(** Sequencing when nothing need be recorded as placed. *)
Lemma shape_seq Q open p1 p2 {A B} (m : M A) (k : A -> M B) :
  shape Q open p1 m -> (forall a, shape Q open p2 (k a)) ->
  shape Q open [] (bind m k).
Proof.
  intros Hm Hk. eapply shape_weaken; [done| |by eapply shape_bind].
  intros l Hl. by apply elem_of_nil in Hl.
Qed.

Section Kinds.
Variable Q : TACInstruction -> Prop.
Variable open : list string.

Lemma visit_expression_shape e :
  (forall i, straight_line i = true -> Q i) ->
  shape Q open [] (visit_expression e).
Proof.
  intros HQ.
  assert (Hemit : forall i {A} (k : unit -> M A),
             straight_line i = true -> (forall u, shape Q open [] (k u)) ->
             shape Q open [] (bind (emit i) k)).
  { intros i A k Hi Hk. eapply shape_seq; [|exact Hk].
    apply shape_emit; [by apply HQ|].
    destruct i; try discriminate; apply list_subseteq_nil. }
  induction e as [op l r IHl IHr|op e IH|name|v|v|v|name args IH|target e IH]
    using Expression_nested_ind; cbn [visit_expression];
    try apply shape_ret.
  - eapply shape_seq; [exact IHl|intros lt].
    eapply shape_seq; [exact IHr|intros rt].
    apply shape_new_temp. intros t.
    apply Hemit; [done|]. intros _. apply shape_ret.
  - eapply shape_seq; [exact IH|intros ot].
    apply shape_new_temp. intros t.
    apply Hemit; [done|]. intros _. apply shape_ret.
  - eapply shape_seq.
    + apply shape_for_each_reversed. eapply Forall_impl; [exact IH|].
      intros a Ha. cbn beta.
      eapply (shape_seq _ _ [] []); [exact Ha|]. intros t.
      apply (shape_emit Q open (TACParam t));
        [by apply HQ|apply list_subseteq_nil].
    + intros _. apply shape_new_temp. intros t.
      apply Hemit; [done|]. intros _. apply shape_ret.
  - eapply shape_seq; [exact IH|intros vt].
    apply Hemit; [done|]. intros _. apply shape_ret.
Qed.

Lemma shape_emit_plain i :
  Q i -> jump_target i ⊆ open -> defined_label i = [] ->
  shape Q open [] (emit i).
Proof. intros HQ Hj Hd. rewrite <- Hd. by apply shape_emit. Qed.

Lemma shape_emit_label l :
  Q (TACLabel l) -> shape Q open [l] (emit (TACLabel l)).
Proof.
  intros HQ. apply (shape_emit Q open (TACLabel l)); [done|].
  apply list_subseteq_nil.
Qed.

End Kinds.

(** The labels allocated inside an action may be jumped to inside it,
    provided it places them. *)
Lemma shape_scoped Q open labels placed {A} (m : M A) :
  shape Q (labels ++ open) placed m -> labels ⊆ placed ->
  shape Q open [] m.
Proof.
  intros Hm Hl. apply (shape_weaken Q open open labels); [done| |].
  { intros l Hin. by apply elem_of_nil in Hin. }
  apply shape_close. eapply shape_weaken; [| |exact Hm]; done.
Qed.

Lemma singleton_subseteq_list (l : string) (open : list string) :
  l ∈ open -> [l] ⊆ open.
Proof. intros H x Hx. apply list_elem_of_singleton in Hx. by subst. Qed.

Section Statements.
Variable Q : TACInstruction -> Prop.
Hypothesis HQ : forall i, statement_level i = true -> Q i.

Lemma HQ_straight i : straight_line i = true -> Q i.
Proof. intros H. apply HQ. unfold statement_level. by rewrite H. Qed.

Lemma visit_var_decl_shape open decl : shape Q open [] (visit_var_decl decl).
Proof.
  unfold visit_var_decl. destruct (initializer decl); [|apply shape_ret].
  eapply (shape_seq _ _ [] []);
    [apply visit_expression_shape, HQ_straight|].
  intros t. apply shape_emit_plain; [by apply HQ|apply list_subseteq_nil|done].
Qed.

Lemma visit_return_stmt_shape open e : shape Q open [] (visit_return_stmt e).
Proof.
  destruct e; cbn.
  - eapply (shape_seq _ _ [] []);
      [apply visit_expression_shape, HQ_straight|].
    intros t. apply shape_emit_plain; [by apply HQ|apply list_subseteq_nil|done].
  - apply shape_emit_plain; [by apply HQ|apply list_subseteq_nil|done].
Qed.

Ltac emit_step :=
  first
    [ apply shape_emit_label; by apply HQ
    | apply shape_emit_plain;
        [ by apply HQ
        | first [ apply list_subseteq_nil
                | apply singleton_subseteq_list; repeat constructor ]
        | reflexivity ] ].

Ltac shape_step :=
  first
    [ apply shape_ret
    | emit_step
    | apply visit_expression_shape, HQ_straight
    | apply visit_var_decl_shape
    | apply visit_return_stmt_shape
    | apply shape_new_label; intros ?
    | eapply shape_bind; [ | intros ? ] ].

Lemma visit_statement_shape s :
  forall open, shape Q open [] (visit_statement s).
Proof.
  induction s as [decl|rt name ps b|l IH|e|e|c t e IHt IHe|c b IH|i c u b IHi IHb]
    using Statement_nested_ind; intros open; cbn [visit_statement].
  - shape_step.
  - shape_step.
  - apply shape_for_each. eapply Forall_impl; [exact IH|]. by intros.
  - destruct e; [|shape_step].
    eapply (shape_seq _ _ [] []); [shape_step|]. intros; shape_step.
  - shape_step.
  - destruct e as [e|].
    + eapply (shape_seq _ _ [] []); [shape_step|]. intros ct.
      apply shape_new_label. intros else_label.
      apply shape_new_label. intros end_label.
      eapply (shape_scoped _ _ [else_label; end_label]).
      * shape_step; [emit_step|]. shape_step; [apply IHt|].
        shape_step; [emit_step|]. shape_step; [emit_step|].
        shape_step; [by apply IHe|]. emit_step.
      * cbn. done.
    + eapply (shape_seq _ _ [] []); [shape_step|]. intros ct.
      apply shape_new_label. intros end_label.
      eapply (shape_scoped _ _ [end_label]).
      * shape_step; [emit_step|]. shape_step; [apply IHt|]. emit_step.
      * cbn. done.
  - apply shape_new_label. intros start_label.
    apply shape_new_label. intros end_label.
    eapply (shape_scoped _ _ [start_label; end_label]).
    + shape_step; [emit_step|].
      shape_step; [apply visit_expression_shape, HQ_straight|].
      shape_step; [emit_step|]. shape_step; [apply IH|].
      shape_step; [emit_step|]. emit_step.
    + cbn. done.
  - eapply (shape_seq _ _ [] []).
    { destruct i as [s0|]; [|shape_step].
      destruct s0; first [exact (IHi _ eq_refl open) | shape_step]. }
    intros _.
    apply shape_new_label. intros start_label.
    apply shape_new_label. intros end_label.
    apply shape_new_label. intros update_label.
    eapply (shape_scoped _ _ [start_label; end_label; update_label]).
    + shape_step; [emit_step|].
      eapply (shape_bind _ _ []).
      { destruct c; [|shape_step].
        eapply (shape_seq _ _ [] []); [shape_step|]. intros; emit_step. }
      intros _.
      shape_step; [apply IHb|]. shape_step; [emit_step|].
      eapply (shape_bind _ _ []).
      { destruct u; [|shape_step].
        eapply (shape_seq _ _ [] []); [shape_step|]. intros; shape_step. }
      intros _.
      shape_step; [emit_step|]. emit_step.
    + cbn. intros l Hl.
      repeat (apply elem_of_cons in Hl as [->|Hl]; [repeat constructor|]).
      by apply elem_of_nil in Hl.
Qed.

Lemma visit_compound_stmt_shape open statements :
  shape Q open [] (visit_compound_stmt statements).
Proof.
  apply shape_for_each, Forall_forall. intros s _.
  apply visit_statement_shape.
Qed.

End Statements.

Section Programs.
Variable Q : TACInstruction -> Prop.
Hypothesis HQ : forall i, statement_level i || is_marker i = true -> Q i.

Lemma HQ_statement i : statement_level i = true -> Q i.
Proof. intros H. apply HQ. by rewrite H. Qed.

Lemma visit_declaration_shape decl : shape Q [] [] (visit_declaration decl).
Proof.
  destruct decl as [f|v]; cbn [visit_declaration].
  - unfold visit_function_decl. destruct (body f); [|apply shape_ret].
    eapply (shape_seq _ _ [] []).
    { apply shape_emit_plain; [by apply HQ|apply list_subseteq_nil|done]. }
    intros _.
    eapply (shape_seq _ _ [] []);
      [apply visit_compound_stmt_shape, HQ_statement|].
    intros _. apply shape_emit_plain; [by apply HQ|apply list_subseteq_nil|done].
  - apply visit_var_decl_shape, HQ_statement.
Qed.

Lemma generate_shape ast :
  Forall Q (instructions (generate ast)) /\
  jump_targets (instructions (generate ast)) ⊆
    label_defs (instructions (generate ast)).
Proof.
  assert (H : shape Q [] [] (visit_program ast)).
  { apply shape_for_each, Forall_forall. intros d _.
    apply visit_declaration_shape. }
  destruct (H init) as (code & E & HQc & J & _).
  fold (generate ast) in E. cbn in E. rewrite E. split; [done|].
  intros l Hl. destruct (J l Hl) as [|Hn]; [done|].
  by apply elem_of_nil in Hn.
Qed.

End Programs.

(** Every jump lands.  In the TAC list of any program, the target of each
    [goto] and of each conditional jump is a label that the list places. *)
Theorem jump_targets_are_placed (ast : Program) :
  jump_targets (instructions (generate ast)) ⊆
  label_defs (instructions (generate ast)).
Proof. by apply (generate_shape (fun _ => True)). Qed.

(** The generator has one conditional jump only: it never emits
    [if c goto L], every test is an [ifFalse]. *)
Theorem no_jump_on_true (ast : Program) :
  Forall (fun i => match i with TACIfGoto _ _ => False | _ => True end)
         (instructions (generate ast)).
Proof.
  apply generate_shape. intros i Hi. by destruct i.
Qed.

Lemma markers_app c1 c2 : markers (c1 ++ c2) = markers c1 ++ markers c2.
Proof. apply flat_map_app. Qed.

Lemma markers_none code :
  Forall (fun i => is_marker i = false) code -> markers code = [].
Proof.
  induction 1 as [|i code Hi _ IH]; [done|].
  unfold markers in *. cbn. unfold marker at 1. by rewrite Hi, IH.
Qed.

Lemma statement_level_not_marker i :
  statement_level i = true -> is_marker i = false.
Proof. by destruct i. Qed.

Lemma visit_declaration_markers decl self :
  markers (instructions (snd (visit_declaration decl self))) =
  markers (instructions self) ++ function_markers decl.
Proof.
  destruct decl as [f|v]; cbn [visit_declaration function_markers].
  - unfold visit_function_decl. destruct (body f) as [statements|].
    + rewrite !bind_run. cbn [emit fst snd instructions].
      destruct (visit_compound_stmt_shape (fun i => is_marker i = false)
                  statement_level_not_marker [] statements
                  (snd (emit (TACFunctionStart (fun_name f)) self)))
        as (code & E & HQ & _).
      cbn [emit snd] in E. rewrite E. cbn [instructions].
      rewrite !markers_app, (markers_none code) by done.
      by rewrite app_nil_r, <- app_assoc.
    + cbn. by rewrite app_nil_r.
  - destruct (visit_var_decl_shape (fun i => is_marker i = false)
                statement_level_not_marker [] v self)
      as (code & E & HQ & _).
    rewrite E, markers_app, (markers_none code) by done. done.
Qed.

(** Functions are bracketed.  The function markers of the TAC list of a
    program are, in order, one start and one end for each top-level function
    that has a body: the brackets are balanced, carry the name of their
    function and are never nested; a forward declaration and a global
    variable contribute none. *)
Theorem function_markers_bracket (ast : Program) :
  markers (instructions (generate ast)) =
  flat_map function_markers (declarations ast).
Proof.
  unfold generate, visit_program.
  change (flat_map function_markers (declarations ast))
    with (markers (instructions init) ++
          flat_map function_markers (declarations ast)).
  generalize init as self.
  induction (declarations ast) as [|d ds IH]; intros self.
  - cbn. by rewrite app_nil_r.
  - cbn [for_each flat_map]. rewrite bind_run, IH, visit_declaration_markers.
    by rewrite app_assoc.
Qed.

Lemma for_each_reversed_counters (args : list Expression) self :
  Forall (fun e => forall self,
            label_counter (snd (visit_expression e self)) = label_counter self /\
            temp_counter (snd (visit_expression e self)) =
              temp_counter self + operations e) args ->
  let walk := for_each_reversed
                (fun arg => arg_temp <- visit_expression arg ;;
                            emit (TACParam arg_temp)) args in
  label_counter (snd (walk self)) = label_counter self /\
  temp_counter (snd (walk self)) =
    temp_counter self + list_sum (map operations args).
Proof.
  cbv zeta. intros H. revert self.
  induction H as [|a args Ha _ IH]; intros self.
  - cbn. split; [done|lia].
  - cbn [for_each_reversed map list_sum]. rewrite !bind_run.
    cbn [emit snd label_counter temp_counter].
    destruct (Ha (snd (for_each_reversed
                         (fun arg => arg_temp <- visit_expression arg ;;
                                     emit (TACParam arg_temp)) args self)))
      as [-> ->].
    destruct (IH self) as [-> ->]. split; [done|].
    change (list_sum (operations a :: map operations args))
      with (operations a + list_sum (map operations args)). lia.
Qed.

Lemma visit_expression_counters e : forall self,
  label_counter (snd (visit_expression e self)) = label_counter self /\
  temp_counter (snd (visit_expression e self)) =
    temp_counter self + operations e.
Proof.
  induction e as [op l r IHl IHr|op e IH|name|v|v|v|name args IH|target e IH]
    using Expression_nested_ind; intros self;
    cbn [visit_expression operations].
  - rewrite !bind_run. cbn [emit new_temp ret fst snd label_counter temp_counter].
    destruct (IHr (snd (visit_expression l self))) as [-> ->].
    destruct (IHl self) as [-> ->]. split; [done|lia].
  - rewrite !bind_run. cbn [emit new_temp ret fst snd label_counter temp_counter].
    destruct (IH self) as [-> ->]. split; [done|lia].
  - cbn. split; [done|lia].
  - cbn. split; [done|lia].
  - cbn. split; [done|lia].
  - cbn. split; [done|lia].
  - rewrite !bind_run. cbn [emit new_temp ret fst snd label_counter temp_counter].
    destruct (for_each_reversed_counters args self IH) as [-> ->].
    split; [done|lia].
  - rewrite !bind_run. cbn [emit new_temp ret fst snd label_counter temp_counter].
    destruct (IH self) as [-> ->]. split; [done|lia].
Qed.

(** Expressions lower to straight-line code.  Whatever the expression and
    the state of the generator, the instructions appended are assignments,
    operations, [param]s and calls: no label, no jump, no [return].  No
    label is allocated, and one temporary is taken for each operator and
    each call of the expression. *)
Theorem expression_code_is_straight_line
        (e : Expression) (self : IntermediateCodeGenerator) :
  Forall (fun i => straight_line i = true) (lowering e self) /\
  label_counter (snd (visit_expression e self)) = label_counter self /\
  temp_counter (snd (visit_expression e self)) =
    temp_counter self + operations e.
Proof.
  split; [|apply visit_expression_counters].
  destruct (visit_expression_shape (fun i => straight_line i = true) []
              e (fun _ H => H) self) as (code & E & HQ & _).
  unfold lowering. rewrite E. by rewrite drop_app_length.
Qed.

(** Generation is incremental: the TAC list of the first declarations of a
    program starts the TAC list of the whole program. *)
Theorem generate_prefix (ds1 ds2 : list Declaration) :
  instructions (generate {| declarations := ds1 |}) `prefix_of`
  instructions (generate {| declarations := ds1 ++ ds2 |}).
Proof.
  unfold generate, visit_program. cbn [declarations].
  rewrite for_each_app, bind_run.
  assert (H : shape (fun _ => True) [] [] (for_each visit_declaration ds2)).
  { apply shape_for_each, Forall_forall. intros d _.
    by apply visit_declaration_shape. }
  destruct (H (snd (for_each visit_declaration ds1 init))) as (code & -> & _).
  by apply prefix_app_r.
Qed.

End IRShapeFacts.

(* ===================================================================== *)
(** * Translation to assembly and the peephole pass *)
(* ===================================================================== *)

Module TranslationFacts.
Import Ast IR CodeGen CodeGenSpec TranslationSpec Samples CodeGenFacts.

Section Translation.
Variable py_float_ok : string -> bool.

(** Every state change of [generate_instruction] is an [append] or an
    [allocate_register]: what these two keep, it keeps. *)
Lemma generate_instruction_keeps (P : CodeGenerator -> Prop) :
  (forall line self, P self -> P (append line self)) ->
  (forall var self, P self -> P (snd (allocate_register var self))) ->
  forall instruction self,
    P self -> P (generate_instruction py_float_ok instruction self).
Proof.
  intros Happend Halloc instruction self HP.
  assert (Hpair : forall var s, P s ->
            forall r s', allocate_register var s = (r, s') -> P s').
  { intros var s Hs r s' E. pose proof (Halloc var s Hs) as H.
    by rewrite E in H. }
  destruct instruction; cbn [generate_instruction];
    repeat lazymatch goal with
    | H : P ?s |- P ?s => exact H
    | |- P (append _ _) => apply Happend
    | |- P (if ?b then _ else _) => destruct b
    | |- P (let (_, _) := allocate_register ?v ?s in _) =>
        let E := fresh "E" in
        let H := fresh "H" in
        assert (H : P s);
        [|destruct (allocate_register v s) eqn:E; apply (Hpair _ _ H) in E]
    | |- P (let (_, _) := (if ?b then _ else _) in _) => destruct b
    | |- P (let (_, _) := (_, _) in _) => cbv beta iota zeta
    | |- P (let _ := _ in _) => cbv zeta
    end.
Qed.

Lemma generate_keeps (P : CodeGenerator -> Prop) :
  (forall line self, P self -> P (append line self)) ->
  (forall var self, P self -> P (snd (allocate_register var self))) ->
  forall self, P self -> P (generate py_float_ok self).
Proof.
  intros Happend Halloc self HP. unfold generate. cbv zeta.
  set (start := append "" _).
  assert (Hstart : P start) by (subst start; auto).
  change (tac_instructions start) with (tac_instructions self).
  generalize (tac_instructions self) as tac. clearbody start.
  intros tac. revert start Hstart.
  induction tac as [|i tac IH]; intros start Hstart; [done|].
  cbn [fold_left]. apply IH. by apply generate_instruction_keeps.
Qed.


Lemma grows_refl self : grows self self.
Proof. by split. Qed.

Lemma grows_append base line self :
  grows base self -> grows base (append line self).
Proof.
  intros [Ha Hr Hc]. split; cbn; [|done..].
  by apply prefix_app_r.
Qed.

Lemma grows_allocate base var self :
  grows base self -> grows base (snd (allocate_register var self)).
Proof.
  intros [Ha Hr Hc]. unfold allocate_register.
  destruct (var_to_register self !! var) eqn:E; [by split|].
  split; cbn; [done| |lia].
  etrans; [exact Hr|]. by apply insert_subseteq.
Qed.

Lemma registers_in_use_append line self :
  registers_in_use self -> registers_in_use (append line self).
Proof. done. Qed.

Lemma registers_in_use_allocate var self :
  registers_in_use self -> registers_in_use (snd (allocate_register var self)).
Proof.
  unfold registers_in_use, allocate_register. intros H.
  destruct (var_to_register self !! var) eqn:E; [done|]. cbn.
  rewrite map_to_list_insert by done. cbn [map snd].
  rewrite H, Nat.add_1_r, seq_S, map_app. cbn.
  by rewrite Permutation_app_comm.
Qed.

Lemma append_with_tac tac line self :
  append line (with_tac tac self) = with_tac tac (append line self).
Proof. reflexivity. Qed.

Lemma allocate_register_with_tac tac var self :
  allocate_register var (with_tac tac self) =
  (fst (allocate_register var self),
   with_tac tac (snd (allocate_register var self))).
Proof.
  unfold allocate_register, with_tac. cbn.
  by destruct (var_to_register self !! var).
Qed.

(** [generate_instruction] does not read the TAC list of its state. *)
Lemma generate_instruction_with_tac tac instruction self :
  generate_instruction py_float_ok instruction (with_tac tac self) =
  with_tac tac (generate_instruction py_float_ok instruction self).
Proof.
  destruct instruction; cbn [generate_instruction]; cbv zeta;
    repeat lazymatch goal with
    | |- context [append ?l (with_tac ?t ?s)] =>
        rewrite (append_with_tac t l s)
    | |- context [allocate_register ?v (with_tac ?t ?s)] =>
        rewrite (allocate_register_with_tac t v s);
        destruct (allocate_register v s) as [? ?]; cbn [fst snd]
    | |- context [if ?b then _ else _] => destruct b
    end;
    reflexivity.
Qed.

Lemma translate_with_tac tac code self :
  fold_left (fun self i => generate_instruction py_float_ok i self) code
            (with_tac tac self) =
  with_tac tac
    (fold_left (fun self i => generate_instruction py_float_ok i self) code self).
Proof.
  revert self. induction code as [|i code IH]; intros self; [done|].
  cbn [fold_left]. by rewrite generate_instruction_with_tac, IH.
Qed.

Lemma translate_grows code self :
  grows self
    (fold_left (fun self i => generate_instruction py_float_ok i self) code self).
Proof.
  generalize (grows_refl self). generalize self at 1 3 as base.
  intros base. revert self.
  induction code as [|i code IH]; intros self H; [done|].
  cbn [fold_left]. apply IH.
  apply generate_instruction_keeps;
    auto using grows_append, grows_allocate.
Qed.

(** Translation is incremental.  The listing of a TAC list starts with the
    three header lines, and the listing and the register assignment of a
    longer TAC list extend those of the shorter one: no line is revised,
    and a variable keeps the register it was first given. *)
Theorem generate_extends (tac1 tac2 : list TACInstruction) :
  let shorter := generate py_float_ok (init tac1) in
  let longer := generate py_float_ok (init (tac1 ++ tac2)) in
  header `prefix_of` assembly_code shorter /\
  assembly_code shorter `prefix_of` assembly_code longer /\
  var_to_register shorter ⊆ var_to_register longer.
Proof.
  cbv zeta.
  pose (start := fun tac : list TACInstruction =>
          append "" (append "; Simplified RISC-style instructions"
                       (append "; Generated Assembly Code" (init tac)))).
  assert (Hs : forall tac,
             generate py_float_ok (init tac) =
             fold_left (fun self i => generate_instruction py_float_ok i self)
                       tac (start tac)) by reflexivity.
  rewrite (Hs tac1), (Hs (tac1 ++ tac2)).
  change (start (tac1 ++ tac2)) with (with_tac (tac1 ++ tac2) (start tac1)).
  rewrite fold_left_app, !translate_with_tac.
  set (first := fold_left _ tac1 (start tac1)).
  split.
  - destruct (translate_grows tac1 (start tac1)) as [H _ _]. exact H.
  - destruct (translate_grows tac2 first) as [Ha Hr _].
    cbn [with_tac assembly_code var_to_register]. by split.
Qed.

(** Register allocation.  After [generate], the registers in use are
    exactly R0, R1, ... below the counter, and no register is given to two
    variables. *)
Theorem registers_distinct (tac : list TACInstruction) :
  let self := generate py_float_ok (init tac) in
  registers_in_use self /\
  NoDup (map snd (map_to_list (var_to_register self))).
Proof.
  cbv zeta.
  assert (H : registers_in_use (generate py_float_ok (init tac))).
  { apply generate_keeps;
      auto using registers_in_use_append, registers_in_use_allocate.
    unfold registers_in_use. cbn. by rewrite map_to_list_empty. }
  split; [exact H|]. rewrite H.
  apply NoDup_fmap_2; [|apply NoDup_seq].
  intros a b Hab. unfold register_name in Hab.
  apply (inj pretty). by simplify_eq.
Qed.

End Translation.

Lemma filter_split_length (lines : list string) :
  length (filter (fun l => redundant_move l = true) lines) +
  length (filter (fun l => redundant_move l = false) lines) = length lines.
Proof.
  induction lines as [|line rest IH]; [done|].
  rewrite !filter_cons. destruct (redundant_move line) eqn:Hr.
  - rewrite decide_True by done. rewrite decide_False by done. cbn. lia.
  - rewrite decide_False by done. rewrite decide_True by done. cbn. lia.
Qed.

(** The peephole pass only deletes lines.  The count it reports is the
    number of lines it removed, the lines it keeps are in their original
    order, and the register assignment is untouched. *)
Theorem optimize_only_deletes (self : CodeGenerator) :
  let result := optimize self in
  fst result + length (assembly_code (snd result)) =
    length (assembly_code self) /\
  assembly_code (snd result) `sublist_of` assembly_code self /\
  var_to_register (snd result) = var_to_register self /\
  register_counter (snd result) = register_counter self /\
  tac_instructions (snd result) = tac_instructions self.
Proof.
  cbv zeta. unfold optimize. rewrite optimize_loop_filter.
  cbn [fst snd assembly_code var_to_register register_counter
       tac_instructions app].
  split; [apply filter_split_length|].
  split; [apply sublist_filter|done].
Qed.

(** The peephole pass is idempotent: run on its own output it removes
    nothing and reports zero. *)
Theorem optimize_idempotent (self : CodeGenerator) :
  optimize (snd (optimize self)) = (0, snd (optimize self)).
Proof.
  unfold optimize at 1. rewrite optimize_loop_filter, optimize_keeps.
  cbn [app Nat.add].
  rewrite (list_filter_filter (fun l => redundant_move l = true)
                               (fun l => redundant_move l = false)).
  rewrite (list_filter_filter_l (fun l => redundant_move l = false)
                                 (fun l => redundant_move l = false)) by done.
  assert (Hnone : filter (fun l => redundant_move l = true /\
                                   redundant_move l = false)
                         (assembly_code self) = []).
  { induction (assembly_code self) as [|l ls IH]; [done|].
    rewrite filter_cons, decide_False; [done|]. intros [? ?]. congruence. }
  rewrite Hnone. cbn [length]. f_equal.
  unfold optimize. rewrite optimize_loop_filter. reflexivity.
Qed.

End TranslationFacts.

(* ===================================================================== *)
(** * The stages together *)
(* ===================================================================== *)

Module PipelineFacts.
Import Lexer LexerSpec LexerPlacement LexerFacts LexerPlacementFacts.
Import Parser ParserSpec ParserTermination.
Import Compiler.
#[local] Arguments dict_get : simpl never.

(** ** The tokens of the scanner, as the parser needs them *)

Lemma dict_get_In {V} (d : list (string * V)) key v :
  dict_get d key = Some v -> In (key, v) d.
Proof.
  unfold dict_get. destruct (List.find _ d) as [[k w]|] eqn:E; [|done].
  cbn. intros [= <-]. apply List.find_some in E as [Hin Heq].
  cbn in Heq. apply String.eqb_eq in Heq. by subst.
Qed.

Lemma table_lexeme lexeme t :
  In (lexeme, t) (two_char_tokens ++ single_char_tokens) ->
  lexeme_of t = Some lexeme.
Proof.
  cbn. intros H.
  repeat (destruct H as [H|H]; [by injection H as <- <-|]). done.
Qed.

Lemma operator_spelled tok : operator tok -> spelled tok.
Proof.
  intros H lexeme Hl. apply table_lexeme in Hl.
  assert (Hin : In (tok_value tok, tok_type tok)
                   (two_char_tokens ++ single_char_tokens)).
  { apply in_or_app. destruct H as [H|H]; [left|right]; by apply dict_get_In. }
  apply table_lexeme in Hin. congruence.
Qed.

Lemma word_type identifier :
  lexeme_of (default IDENTIFIER (dict_get KEYWORDS identifier)) = None.
Proof.
  unfold dict_get, KEYWORDS. cbn [List.find fst].
  repeat (destruct (String.eqb _ identifier); [reflexivity|]). reflexivity.
Qed.

Lemma placed_spelled src p tok : placed src p tok -> spelled tok.
Proof.
  intros [_ _ [[Ht _]|(_ & _ & [Hn|[Hw|Ho]])]].
  - intros lexeme Hl. apply table_lexeme in Hl. by rewrite Ht in Hl.
  - intros lexeme Hl. apply table_lexeme in Hl.
    destruct Hn as [_ [[Ht _]|[Ht _]]]; by rewrite Ht in Hl.
  - intros lexeme Hl. apply table_lexeme in Hl.
    destruct Hw as (_ & _ & Ht). by rewrite Ht, word_type in Hl.
  - by apply operator_spelled.
Qed.

Lemma tokenize_tokens source_code toks :
  tokenize source_code = Lexer.Ok toks ->
  (exists eof, last toks = Some eof /\ tok_type eof = EOF) /\
  Forall spelled toks.
Proof.
  intros H. pose proof (tokenize_end source_code) as Hp.
  rewrite H in Hp.
  destruct Hp as (self' & [_ (offsets & Hplaced & _)] & Hsrc & _ & ->).
  rewrite Hsrc in Hplaced.
  split.
  - eexists. by rewrite last_snoc.
  - apply Forall_app. split.
    + apply Forall_forall. intros tok Hin.
      destruct (proj1 (list_elem_of_lookup _ _) Hin) as [i Hi].
      destruct (Forall2_lookup_r _ _ _ _ _ Hplaced Hi) as (p & _ & Hp).
      by eapply placed_spelled.
    + constructor; [|done]. intros lexeme Hl. by apply table_lexeme in Hl.
Qed.

Lemma tokenize_has_fuel source_code : tokenize source_code <> Lexer.OutOfFuel.
Proof.
  unfold tokenize, tokenize_from.
  pose proof (tokenize_loop_scanned
                (S (length (source (Lexer.init source_code))))
                (S (length (source (Lexer.init source_code))))
                (Lexer.init source_code)) as H.
  cbn [Lexer.init source Lexer.position] in H.
  specialize (H ltac:(unfold remaining; cbn; lia) ltac:(lia)).
  cbn [Lexer.init source].
  destruct (tokenize_loop _ _ _) as [s1| |]; cbn in *; done.
Qed.

(** Scanning then parsing.  On every source text the scanner and the parser
    end.  When the scanner returns its tokens, [parse] run on them does not
    run out of fuel and raises no [AttributeError]; when it returns a
    program, the parser stands on the EOF token, so the whole text was
    parsed, and every operator of the program is one of the thirteen binary
    or the two unary operators of the language. *)
Theorem front_end_ends (py_int : string -> option Z)
        (py_float : string -> option string) (source_code : string) :
  match tokenize source_code with
  | Lexer.Ok toks =>
      match parse py_int py_float (S (length toks)) (Parser.init toks) with
      | Parser.Ok (program, self') =>
          at_EOF self' /\ program_known program = true
      | Parser.Raise e => e <> AttributeError
      | Parser.OutOfFuel => False
      end
  | Lexer.LexicalError _ _ _ => True
  | Lexer.OutOfFuel => False
  end.
Proof.
  pose proof (tokenize_has_fuel source_code) as Hfuel.
  destruct (tokenize source_code) as [toks| |] eqn:E; [|done..].
  destruct (tokenize_tokens _ _ E) as [Hlast Hspelled].
  pose proof (parse_run (fun op => ParserSpec.in_list op binary_operators)
                (fun op => ParserSpec.in_list op unary_operators)
                py_int py_float toks Hlast) as H.
  destruct (parse _ _ _ _) as [[program self']|e|].
  - destruct H as (_ & H2 & H3); [|done].
    eapply Forall_impl; [exact Hspelled|]. apply spelled_token_ok.
  - apply H. eapply Forall_impl; [exact Hspelled|]. apply spelled_token_ok.
  - apply H. eapply Forall_impl; [exact Hspelled|]. apply spelled_token_ok.
Qed.

(** The driver returns.  On every source text [compile_c_code] ends and
    returns [True] or [False]: no loop of the five stages runs for ever. *)
Theorem compile_c_code_returns (py_int : string -> option Z)
        (py_float : string -> option string) (py_float_ok : string -> bool)
        (source_code : string) :
  exists b : bool,
    returned (compile_c_code py_int py_float py_float_ok source_code) = Some b.
Proof.
  unfold compile_c_code.
  pose proof (tokenize_has_fuel source_code) as Hfuel.
  destruct (tokenize source_code) as [toks| |] eqn:E; [|by eexists|done].
  destruct (tokenize_tokens _ _ E) as [Hlast _].
  pose proof (parse_run (fun _ => true) (fun _ => true)
                py_int py_float toks Hlast) as H.
  destruct (parse _ _ _ _) as [[program self']|e|].
  - destruct (fst (Semantic.analyze program Semantic.init)); by eexists.
  - destruct e; by eexists.
  - exfalso. apply H. by apply Forall_forall.
Qed.

End PipelineFacts.
